(** * The streaming decoder of [VariableResponse]

    A shallow embedding of
    [paddle/fluid/operators/detail/variable_response.cc]: the hand-written
    protobuf decoder that fills [meta_] and copies tensor payloads straight
    into the variables of a scope.

    The decoder is written against protobuf's
    [google::protobuf::io::CodedInputStream]; the first part of the file is a
    model of the operations of that class which the decoder calls.  The
    second part embeds the functions of [variable_response.cc] one by one,
    under their own names.  The last part states and proves the properties
    of the decoder.

    The file also embeds [paddle/fluid/framework/block_desc.cc], the
    variables and operators of a block and the search for a variable through
    the linked blocks, with its properties at the end. *)

From Stdlib Require Import ZArith List Bool Lia.
From Stdlib.Strings Require Import String Byte.
From stdpp Require Import gmap strings list.

Local Open Scope Z_scope.

(** ** Machine integers *)

Module Int.

Definition INT_MAX : Z := 2 ^ 31 - 1.

(** The conversions of C++ between integer types, wrap-around written out. *)
Definition to_uint32 (z : Z) : Z := z mod 2 ^ 32.
Definition to_uint64 (z : Z) : Z := z mod 2 ^ 64.
Definition to_int32 (z : Z) : Z := (z + 2 ^ 31) mod 2 ^ 32 - 2 ^ 31.
Definition to_int64 (z : Z) : Z := (z + 2 ^ 63) mod 2 ^ 64 - 2 ^ 63.

End Int.

(** ** Bytes *)

Definition byte_val (b : byte) : Z := Z.of_N (Byte.to_N b).

Definition byte_of (z : Z) : byte :=
  match Byte.of_N (Z.to_N (z mod 256)) with
  | Some b => b
  | None => x00
  end.

(** ** The coded input stream of protobuf

    [CodedInputStream] reads from a [ZeroCopyInputStream], which hands out the
    message as a sequence of contiguous buffers (for a gRPC byte buffer: its
    slices).  The model keeps the buffers that are still to be read, the head
    one being what is left of the current buffer; [position] is
    [CurrentPosition()], [current_limit] the absolute position of the nearest
    limit (never above the total bytes limit, which [Parse] sets to
    [INT_MAX]), [legitimate_message_end] the flag behind
    [ConsumedEntireMessage()]. *)

Module Pb.

Record CodedInputStream := mkStream {
  buffers : list (list byte);
  position : Z;
  current_limit : Z;
  legitimate_message_end : bool;
  recursion_budget : Z
}.

(** [CodedInputStream input(input_stream); input.SetTotalBytesLimit(INT_MAX, INT_MAX)];
    the default recursion limit of protobuf is 100. *)
Definition open (src : list (list byte)) : CodedInputStream :=
  {| buffers := src; position := 0; current_limit := Int.INT_MAX;
     legitimate_message_end := false; recursion_budget := 100 |}.

(** The next byte of the source, across buffer boundaries ([Refresh] skips
    empty buffers). *)
Fixpoint next_byte (bufs : list (list byte)) : option (byte * list (list byte)) :=
  match bufs with
  | [] => None
  | [] :: bufs' => next_byte bufs'
  | (b :: c) :: bufs' => Some (b, c :: bufs')
  end.

Fixpoint drop_bytes (n : nat) (bufs : list (list byte)) : list (list byte) :=
  match n with
  | O => bufs
  | S n' =>
      match next_byte bufs with
      | Some (_, bufs') => drop_bytes n' bufs'
      | None => []
      end
  end.

(** The stream after [n] more bytes were consumed. *)
Definition advance (n : nat) (s : CodedInputStream) : CodedInputStream :=
  {| buffers := drop_bytes n (buffers s);
     position := position s + Z.of_nat n;
     current_limit := current_limit s;
     legitimate_message_end := legitimate_message_end s;
     recursion_budget := recursion_budget s |}.

(** Reading one byte: refused at the limit and at the end of the source. *)
Definition read_byte (s : CodedInputStream) : option (byte * CodedInputStream) :=
  if position s <? current_limit s then
    match next_byte (buffers s) with
    | Some (b, _) => Some (b, advance 1 s)
    | None => None
    end
  else None.

(** [ReadVarint64]: at most ten bytes, seven payload bits each, least
    significant group first; the bits that do not fit 64 bits are dropped. *)
Fixpoint ReadVarint64_loop (count : nat) (shift result : Z) (s : CodedInputStream)
  : option (Z * CodedInputStream) :=
  match count with
  | O => None
  | S count' =>
      match read_byte s with
      | None => None
      | Some (b, s') =>
          let result' := Z.lor result (Z.shiftl (Z.land (byte_val b) 127) shift) in
          if Z.land (byte_val b) 128 =? 0
          then Some (Int.to_uint64 result', s')
          else ReadVarint64_loop count' (shift + 7) result' s'
      end
  end.

Definition kMaxVarintBytes : nat := 10.

Definition ReadVarint64 (s : CodedInputStream) : option (Z * CodedInputStream) :=
  ReadVarint64_loop kMaxVarintBytes 0 0 s.

(** [ReadVarint32] reads the whole varint and keeps its low 32 bits. *)
Definition ReadVarint32 (s : CodedInputStream) : option (Z * CodedInputStream) :=
  match ReadVarint64 s with
  | Some (v, s') => Some (Int.to_uint32 v, s')
  | None => None
  end.

(** The member [CodedInputStream::ReadVarintSizeAsInt]: a varint that must
    fit a non-negative [int]. *)
Definition ReadVarintSizeAsInt (s : CodedInputStream) : option (Z * CodedInputStream) :=
  match ReadVarint64 s with
  | Some (v, s') => if v <=? Int.INT_MAX then Some (v, s') else None
  | None => None
  end.

(** The bytes the source still holds, and how many of them can be read
    before the limit. *)
Definition rest (s : CodedInputStream) : list byte := concat (buffers s).

Definition available (s : CodedInputStream) : Z :=
  Z.min (Z.of_nat (length (rest s))) (current_limit s - position s).

(** [ReadString(&buffer, size)]: fails on a negative size and when fewer
    than [size] bytes are left before the limit. *)
Definition ReadString (size : Z) (s : CodedInputStream) : option (string * CodedInputStream) :=
  if size <? 0 then None
  else if available s <? size then None
  else Some (string_of_list_byte (take (Z.to_nat size) (rest s)),
             advance (Z.to_nat size) s).

(** [ReadTagWithCutoff(cutoff)] for a cutoff below 128.  With nothing left
    to read (at the limit or at the end of the source) the tag is 0 and the
    stream records a legitimate message end; a tag that cannot be read is 0
    as well, without that record.  The second component tells whether the tag
    is in [1, cutoff]. *)
Definition with_message_end (s : CodedInputStream) : CodedInputStream :=
  {| buffers := buffers s; position := position s;
     current_limit := current_limit s;
     legitimate_message_end := true;
     recursion_budget := recursion_budget s |}.

Definition ReadTagWithCutoff (cutoff : Z) (s : CodedInputStream)
  : (Z * bool) * CodedInputStream :=
  match read_byte s with
  | None => ((0, false), with_message_end s)
  | Some _ =>
      match ReadVarint64 s with
      | Some (v, s') =>
          let tag := Int.to_uint32 v in
          ((tag, (1 <=? tag) && (tag <=? cutoff)), s')
      | None => ((0, false), s)
      end
  end.

(** [PushLimit(byte_limit)]: the new limit is never beyond the old one; the
    old limit is returned. *)
Definition PushLimit (byte_limit : Z) (s : CodedInputStream) : Z * CodedInputStream :=
  let new_limit :=
    if (0 <=? byte_limit) && (byte_limit <=? Int.INT_MAX - position s)
    then position s + byte_limit else Int.INT_MAX in
  (current_limit s,
   {| buffers := buffers s; position := position s;
      current_limit := Z.min new_limit (current_limit s);
      legitimate_message_end := legitimate_message_end s;
      recursion_budget := recursion_budget s |}).

Definition IncrementRecursionDepthAndPushLimit (byte_limit : Z) (s : CodedInputStream)
  : (Z * Z) * CodedInputStream :=
  let '(old_limit, s1) := PushLimit byte_limit s in
  let budget := recursion_budget s1 - 1 in
  ((old_limit, budget),
   {| buffers := buffers s1; position := position s1;
      current_limit := current_limit s1;
      legitimate_message_end := legitimate_message_end s1;
      recursion_budget := budget |}).

(** [DecrementRecursionDepthAndPopLimit(limit)]: answers
    [ConsumedEntireMessage()], restores the limit and clears the flag. *)
Definition DecrementRecursionDepthAndPopLimit (limit : Z) (s : CodedInputStream)
  : bool * CodedInputStream :=
  (legitimate_message_end s,
   {| buffers := buffers s; position := position s;
      current_limit := limit;
      legitimate_message_end := false;
      recursion_budget := recursion_budget s + 1 |}).

(** [GetDirectBufferPointer(&data, &size)]: what is left of the current
    buffer, up to the limit; the next non-empty buffer when the current one
    is used up; failure at the limit and at the end of the source. *)
Fixpoint skip_empty (bufs : list (list byte)) : list (list byte) :=
  match bufs with
  | [] :: bufs' => skip_empty bufs'
  | _ => bufs
  end.

Definition GetDirectBufferPointer (s : CodedInputStream) : option (list byte) :=
  if position s <? current_limit s then
    match skip_empty (buffers s) with
    | [] => None
    | c :: _ =>
        Some (take (Z.to_nat (Z.min (Z.of_nat (length c)) (current_limit s - position s))) c)
    end
  else None.

(** [Skip(count)], for a count that the stream holds. *)
Definition Skip (count : Z) (s : CodedInputStream) : CodedInputStream :=
  advance (Z.to_nat count) s.

(** The stream holds the bytes [bs] next, all of them before its limit. *)
Definition holds (s : CodedInputStream) (bs : list byte) : Prop :=
  (exists tl, rest s = bs ++ tl) /\ position s + Z.of_nat (length bs) <= current_limit s.

(** The position and the limit are within the total bytes limit. *)
Definition bounded (s : CodedInputStream) : Prop :=
  0 <= position s /\ current_limit s <= Int.INT_MAX.

(** What holds of the stream at the head of the loop of [Parse]: it is
    bounded, no message end is recorded, the recursion budget is not used
    up. *)
Definition sane (s : CodedInputStream) : Prop :=
  bounded s /\ legitimate_message_end s = false /\ 1 <= recursion_budget s.

End Pb.

(** ** What the decoder takes from the rest of the repository

    [send_recv.proto] and the framework ([Scope], [Variable], [Tensor],
    [DDim], the device contexts) are not part of the two files at hand.  The
    constants of the generated [send_recv.pb.h] and the framework calls that
    can throw are parameters of the development. *)

(** The field numbers and enum values of [send_recv.pb.h]. *)
Record Proto := {
  kVarnameFieldNumber : Z;
  kTypeFieldNumber : Z;
  kDataTypeFieldNumber : Z;
  kDimsFieldNumber : Z;
  kLodLevelFieldNumber : Z;
  kLodFieldNumber : Z;
  kSerializedFieldNumber : Z;
  kRowsFieldNumber : Z;
  kLodDataFieldNumber : Z;     (* VariableMessage_LodData::kLodDataFieldNumber *)
  LOD_TENSOR : Z;              (* sendrecv::LOD_TENSOR *)
  SELECTED_ROWS : Z            (* sendrecv::SELECTED_ROWS *)
}.

Definition field_numbers (pb : Proto) : list Z :=
  [kVarnameFieldNumber pb; kTypeFieldNumber pb; kDataTypeFieldNumber pb;
   kDimsFieldNumber pb; kLodLevelFieldNumber pb; kLodFieldNumber pb;
   kSerializedFieldNumber pb; kRowsFieldNumber pb].

(** What protobuf and the C++ [switch] ask of these constants: the case
    labels are pairwise distinct, field numbers are positive.  A field number
    above 15 has a tag above the cutoff of 127 and is never dispatched, so the
    statements about recognised fields ask for field numbers up to 15. *)
Definition small_field (n : Z) : bool := (1 <=? n) && (n <=? 15).

Fixpoint distinct (l : list Z) : bool :=
  match l with
  | [] => true
  | x :: l' => forallb (fun y => negb (x =? y)) l' && distinct l'
  end.

Definition proto_ok (pb : Proto) : bool :=
  forallb small_field (kLodDataFieldNumber pb :: field_numbers pb)
  && distinct (field_numbers pb)
  && negb (LOD_TENSOR pb =? SELECTED_ROWS pb)
  && forallb (fun v => (0 <=? v) && (v <? 2 ^ 31)) [LOD_TENSOR pb; SELECTED_ROWS pb].

(** Modelled from the spec: the numbering of [send_recv.proto], which is not
    under [src/]: the eight top-level fields numbered in the order of the
    table of section 6 of the specification, the single field of the [lod]
    sub-message numbered 1, the dense kind 0 and the sparse kind 1.  It is
    used where a concrete numbering is needed to run the decoder. *)
Definition send_recv : Proto :=
  {| kVarnameFieldNumber := 1; kTypeFieldNumber := 2; kDataTypeFieldNumber := 3;
     kDimsFieldNumber := 4; kLodLevelFieldNumber := 5; kLodFieldNumber := 6;
     kSerializedFieldNumber := 7; kRowsFieldNumber := 8;
     kLodDataFieldNumber := 1; LOD_TENSOR := 0; SELECTED_ROWS := 1 |}.

Definition DDim : Type := list Z.
Definition TypeIndex : Type := Z.

(** The framework calls of the materializer that can throw, and the build
    flag of [ReadRaw]. *)
Record Framework := {
  PADDLE_WITH_CUDA : bool;
  (* sendrecvop_utils.h; [None]: the type is not supported, PADDLE_THROW *)
  ToTypeIndex : Z -> option TypeIndex;
  (* framework/ddim.cc, on the dimensions as [int]; [None]: it throws *)
  make_ddim : list Z -> option DDim;
  (* framework/tensor_impl.h; [false]: the enforce of [mutable_data] fails *)
  mutable_data_ok : DDim -> TypeIndex -> bool;
  (* framework/tensor_impl.h; the bytes behind the pointer that
     [mutable_data] returns for a tensor of that shape and element type:
     numel() * SizeOfType(type) *)
  memory_size : DDim -> TypeIndex -> Z
}.

(** ** The data model *)

Inductive Place := CPUPlace | CUDAPlace (device : Z).

Definition is_gpu_place (p : Place) : bool :=
  match p with CUDAPlace _ => true | CPUPlace => false end.

(** A tensor: its shape, and what [mutable_data] leaves behind: the place and
    element type of the buffer.  [data_] are the bytes the decoder copied to
    the start of that buffer, in the order of the copies.  The buffer has
    [memory_size] bytes of the framework for the shape and the element type;
    a copy of more bytes runs past its end. *)
Record Tensor := {
  dims_ : DDim;
  place_ : Place;
  type_ : option TypeIndex;
  data_ : list byte
}.

Definition LoD : Type := list (list Z).

Record LoDTensor := { tensor_ : Tensor; lod_ : LoD }.

(** [rows_data_] is the memory behind [mutable_rows()->data()]: the rows of
    the vector, [sizeof(int64_t)] bytes a row.  The decoder never resizes
    the vector. *)
Record SelectedRows := { rows_data_ : list byte; value_ : Tensor }.

Definition new_Tensor : Tensor :=
  {| dims_ := [0]; place_ := CPUPlace; type_ := None; data_ := [] |}.
Definition new_LoDTensor : LoDTensor := {| tensor_ := new_Tensor; lod_ := [] |}.
Definition new_SelectedRows : SelectedRows :=
  {| rows_data_ := []; value_ := new_Tensor |}.

(** A [framework::Variable] holds nothing, or a value of any one type. *)
Inductive Variable_ :=
| HoldsNothing
| HoldsLoDTensor (t : LoDTensor)
| HoldsSelectedRows (s : SelectedRows)
| HoldsOther.

(** [Variable::GetMutable<T>()]: the value held when it is a [T], a fresh [T]
    put in its place otherwise. *)
Definition GetMutable_LoDTensor (v : Variable_) : LoDTensor :=
  match v with HoldsLoDTensor t => t | _ => new_LoDTensor end.
Definition GetMutable_SelectedRows (v : Variable_) : SelectedRows :=
  match v with HoldsSelectedRows s => s | _ => new_SelectedRows end.

(** The device context: its place and, for a CUDA context, the transfers
    issued on its stream that no [Wait()] has confirmed yet. *)
Record DeviceContext := {
  GetPlace : Place;
  in_flight : list (list byte)
}.

(** [sendrecv::VariableMessage], the fields the decoder touches. *)
Record VariableMessage := {
  varname : string;
  type : Z;
  data_type : Z;
  dims : list Z;
  lod_level : Z;
  lod : list (list Z)          (* lod(i).lod_data(j) *)
}.

Definition new_VariableMessage : VariableMessage :=
  {| varname := EmptyString; type := 0; data_type := 0; dims := [];
     lod_level := 0; lod := [] |}.

(** The members of [VariableResponse] that [Parse] reads and writes.  The
    scope maps a name to its variable; [FindVar] is the lookup. *)
Record VariableResponse := {
  scope_ : gmap string Variable_;
  dev_ctx_ : DeviceContext;
  meta_ : VariableMessage
}.

(** How a call of [Parse] ends: it returns its [int], or an enforce throws,
    or it runs into undefined behaviour (a null [Variable*], an index past the
    end of a repeated field, a copy past the end of the destination). *)
Inductive outcome :=
| Returned (code : Z)
| Threw (what : string)
| NullPointerDereference
| IndexOutOfRange
| BufferOverrun.

(** ** The decoder of [variable_response.cc] *)

(** [enum WireType] *)
Definition WIRETYPE_VARINT : Z := 0.
Definition WIRETYPE_LENGTH_DELIMITED : Z := 2.

Definition GetTagFieldNumber (tag : Z) : Z := Z.shiftr tag 3.

Definition GetTagWireType (tag : Z) : Z := Z.land tag 7.

(** The free function [ReadVarintSizeAsInt] of the file. *)
Definition ReadVarintSizeAsInt (input : Pb.CodedInputStream)
  : option (Z * Pb.CodedInputStream) :=
  match Pb.ReadVarint64 input with
  | Some (v, input') =>
      if v <=? Int.to_uint64 Int.INT_MAX then Some (Int.to_int32 v, input') else None
  | None => None
  end.

(** The setters of the generated message class. *)
Definition set_varname (s : string) (m : VariableMessage) : VariableMessage :=
  {| varname := s; type := type m; data_type := data_type m; dims := dims m;
     lod_level := lod_level m; lod := lod m |}.
Definition set_type (v : Z) (m : VariableMessage) : VariableMessage :=
  {| varname := varname m; type := v; data_type := data_type m; dims := dims m;
     lod_level := lod_level m; lod := lod m |}.
Definition set_data_type (v : Z) (m : VariableMessage) : VariableMessage :=
  {| varname := varname m; type := type m; data_type := v; dims := dims m;
     lod_level := lod_level m; lod := lod m |}.
Definition add_dims (v : Z) (m : VariableMessage) : VariableMessage :=
  {| varname := varname m; type := type m; data_type := data_type m;
     dims := dims m ++ [v]; lod_level := lod_level m; lod := lod m |}.
(** The repeated field [dims] after a run of [add_dims]. *)
Definition set_dims (ds : list Z) (m : VariableMessage) : VariableMessage :=
  {| varname := varname m; type := type m; data_type := data_type m;
     dims := ds; lod_level := lod_level m; lod := lod m |}.
Definition set_lod_level (v : Z) (m : VariableMessage) : VariableMessage :=
  {| varname := varname m; type := type m; data_type := data_type m; dims := dims m;
     lod_level := v; lod := lod m |}.
(** [add_lod()] followed by [add_lod_data] for each element of [l]. *)
Definition add_lod (l : list Z) (m : VariableMessage) : VariableMessage :=
  {| varname := varname m; type := type m; data_type := data_type m; dims := dims m;
     lod_level := lod_level m; lod := lod m ++ [l] |}.

Definition set_meta (m : VariableMessage) (r : VariableResponse) : VariableResponse :=
  {| scope_ := scope_ r; dev_ctx_ := dev_ctx_ r; meta_ := m |}.
Definition set_dev_ctx (c : DeviceContext) (r : VariableResponse) : VariableResponse :=
  {| scope_ := scope_ r; dev_ctx_ := c; meta_ := meta_ r |}.
(** Writing through the [Variable*] that [FindVar] returned. *)
Definition store (name : string) (v : Variable_) (r : VariableResponse) : VariableResponse :=
  {| scope_ := <[name := v]> (scope_ r); dev_ctx_ := dev_ctx_ r; meta_ := meta_ r |}.

(** [memory::Copy] to a CUDA place on the stream of the context: the
    transfer is issued, not awaited. *)
Definition Copy_async (data : list byte) (ctx : DeviceContext) : DeviceContext :=
  {| GetPlace := GetPlace ctx; in_flight := in_flight ctx ++ [data] |}.

(** [gpu_dev_ctx.Wait()]: every transfer issued on the stream is complete. *)
Definition Wait (ctx : DeviceContext) : DeviceContext :=
  {| GetPlace := GetPlace ctx; in_flight := [] |}.

(** [Tensor::Resize], [LoDTensor::set_lod], and the effect of
    [Tensor::mutable_data] on the model. *)
Definition Resize (d : DDim) (t : Tensor) : Tensor :=
  {| dims_ := d; place_ := place_ t; type_ := type_ t; data_ := data_ t |}.
Definition mutable_data (p : Place) (ti : TypeIndex) (t : Tensor) : Tensor :=
  {| dims_ := dims_ t; place_ := p; type_ := Some ti; data_ := [] |}.
(** The bytes [ReadRaw] wrote from the start of a buffer of [room] bytes are
    within the buffer. *)
Definition fits (bs : list byte) (room : Z) : bool := Z.of_nat (length bs) <=? room.

(** The bytes at the start of the buffer of a tensor, for bytes that fit. *)
Definition write_data (bs : list byte) (t : Tensor) : Tensor :=
  {| dims_ := dims_ t; place_ := place_ t; type_ := type_ t; data_ := bs |}.

(** The bytes at the start of the rows of a [SelectedRows], for bytes that
    fit; the rows behind them are as they were. *)
Definition write_rows (bs : list byte) (s : SelectedRows) : SelectedRows :=
  {| rows_data_ := bs ++ drop (length bs) (rows_data_ s); value_ := value_ s |}.

(** The state of a loop of [ReadRaw]: the bytes copied to [dest] so far, the
    stream and the device context. *)
Definition raw_state : Type := list byte * Pb.CodedInputStream * DeviceContext.

(** How [ReadRaw] ends. *)
Inductive raw_result :=
| RawReturn (ok : bool) (st : raw_state)
| RawThrow (what : string).

(** Where a loop of the decoder is cut by its fuel the result is [None]; the
    fuel each loop is started with is never used up ([Parse_total]). *)

(** The copy loop of the device branch of [ReadRaw]; [Some (false, _)] is
    the [return false] from inside the loop. *)
Fixpoint ReadRaw_gpu_loop (fuel : nat) (size : Z) (st : raw_state)
  : option (bool * raw_state) :=
  let '(p, input, ctx) := st in
  if 0 <? size then
    match fuel with
    | O => None
    | S fuel' =>
        match Pb.GetDirectBufferPointer input with
        | None => Some (false, st)
        | Some data =>
            let size_to_write := Z.of_nat (length data) in
            ReadRaw_gpu_loop fuel' (size - size_to_write)
              (p ++ data, Pb.Skip size_to_write input, Copy_async data ctx)
        end
    end
  else Some (true, st).

(** The copy loop of the host branch. *)
Fixpoint ReadRaw_cpu_loop (fuel : nat) (size : Z) (st : raw_state)
  : option (bool * raw_state) :=
  let '(p, input, ctx) := st in
  if 0 <? size then
    match fuel with
    | O => None
    | S fuel' =>
        match Pb.GetDirectBufferPointer input with
        | None => Some (false, st)
        | Some data =>
            let size_to_write := Z.of_nat (length data) in
            ReadRaw_cpu_loop fuel' (size - size_to_write)
              (p ++ data, Pb.Skip size_to_write input, ctx)
        end
    end
  else Some (true, st).

Definition loop_fuel (input : Pb.CodedInputStream) : nat := S (length (Pb.rest input)).

Section Decoder.

Variable pb : Proto.
Variable fw : Framework.

Definition ReadRaw (input : Pb.CodedInputStream) (dev_ctx : DeviceContext)
    (place : Place) (size : Z) : option raw_result :=
  if is_gpu_place place then
    if PADDLE_WITH_CUDA fw then
      match ReadRaw_gpu_loop (loop_fuel input) size ([], input, dev_ctx) with
      | None => None
      | Some (false, st) => Some (RawReturn false st)
      | Some (true, (p, input', ctx)) => Some (RawReturn true (p, input', Wait ctx))
      end
    else Some (RawThrow "Unexpected branch")
  else
    match ReadRaw_cpu_loop (loop_fuel input) size ([], input, dev_ctx) with
    | None => None
    | Some (ok, st) => Some (RawReturn ok st)
    end.

(** How one of the [Copy...] members ends: it returns its [bool], or the
    call does not return.  [ReadRaw] writes from the start of [dest] what it
    takes from the stream; when that is more than the buffer behind [dest]
    holds, the copy has run past the end of the buffer. *)
Inductive copy_result :=
| CopyReturn (ok : bool) (r : VariableResponse) (input : Pb.CodedInputStream)
| CopyStop (o : outcome) (r : VariableResponse).

(** The loop of [CopyLodTensorData] over [meta_.lod(i)], [i] below
    [lod_level]; the elements are converted to [size_t]. *)
Fixpoint copy_lod (n i : nat) (m : VariableMessage) (out : LoD) : option LoD :=
  match n with
  | O => Some out
  | S n' =>
      match lod m !! i with
      | None => None
      | Some l => copy_lod n' (S i) m (out ++ [map Int.to_uint64 l])
      end
  end.

Definition CopyLodTensorData (r : VariableResponse) (input : Pb.CodedInputStream)
    (dims : DDim) (length : Z) : option copy_result :=
  let name := varname (meta_ r) in
  match scope_ r !! name with
  | None => Some (CopyStop NullPointerDereference r)
  | Some var =>
      let t := GetMutable_LoDTensor var in
      let t := {| tensor_ := Resize dims (tensor_ t); lod_ := lod_ t |} in
      match copy_lod (Z.to_nat (lod_level (meta_ r))) 0 (meta_ r) [] with
      | None => Some (CopyStop IndexOutOfRange (store name (HoldsLoDTensor t) r))
      | Some lod =>
          let t := {| tensor_ := tensor_ t; lod_ := lod |} in
          match ToTypeIndex fw (data_type (meta_ r)) with
          | None => Some (CopyStop (Threw "Not support type")
                            (store name (HoldsLoDTensor t) r))
          | Some ti =>
              if mutable_data_ok fw dims ti then
                let place := GetPlace (dev_ctx_ r) in
                let t := {| tensor_ := mutable_data place ti (tensor_ t); lod_ := lod |} in
                match ReadRaw input (dev_ctx_ r) place length with
                | None => None
                | Some (RawThrow what) =>
                    Some (CopyStop (Threw what) (store name (HoldsLoDTensor t) r))
                | Some (RawReturn ok (p, input', ctx)) =>
                    if fits p (memory_size fw dims ti) then
                      let t := {| tensor_ := write_data p (tensor_ t); lod_ := lod |} in
                      Some (CopyReturn ok
                              (set_dev_ctx ctx (store name (HoldsLoDTensor t) r)) input')
                    else Some (CopyStop BufferOverrun
                                 (set_dev_ctx ctx (store name (HoldsLoDTensor t) r)))
                end
              else Some (CopyStop (Threw "mutable_data")
                           (store name (HoldsLoDTensor t) r))
          end
      end
  end.

(** [GetDims]: the dimensions pass through a [std::vector<int>]. *)
Definition GetDims (ds : list Z) : option DDim := make_ddim fw (map Int.to_int32 ds).

Definition CopySelectRowsTensorData (r : VariableResponse) (input : Pb.CodedInputStream)
    (dims : DDim) (length : Z) : option copy_result :=
  let name := varname (meta_ r) in
  match scope_ r !! name with
  | None => Some (CopyStop NullPointerDereference r)
  | Some var =>
      let slr := GetMutable_SelectedRows var in
      let slr := {| rows_data_ := rows_data_ slr; value_ := Resize dims (value_ slr) |} in
      match ToTypeIndex fw (data_type (meta_ r)) with
      | None => Some (CopyStop (Threw "Not support type")
                        (store name (HoldsSelectedRows slr) r))
      | Some ti =>
          if mutable_data_ok fw dims ti then
            let place := GetPlace (dev_ctx_ r) in
            let slr := {| rows_data_ := rows_data_ slr;
                          value_ := mutable_data place ti (value_ slr) |} in
            match ReadRaw input (dev_ctx_ r) place length with
            | None => None
            | Some (RawThrow what) =>
                Some (CopyStop (Threw what) (store name (HoldsSelectedRows slr) r))
            | Some (RawReturn ok (p, input', ctx)) =>
                if fits p (memory_size fw dims ti) then
                  let slr := {| rows_data_ := rows_data_ slr;
                                value_ := write_data p (value_ slr) |} in
                  Some (CopyReturn ok
                          (set_dev_ctx ctx (store name (HoldsSelectedRows slr) r)) input')
                else Some (CopyStop BufferOverrun
                             (set_dev_ctx ctx (store name (HoldsSelectedRows slr) r)))
            end
          else Some (CopyStop (Threw "mutable_data")
                       (store name (HoldsSelectedRows slr) r))
      end
  end.

Definition CopySelectRowsData (r : VariableResponse) (input : Pb.CodedInputStream)
    (length : Z) : option copy_result :=
  let name := varname (meta_ r) in
  match scope_ r !! name with
  | None => Some (CopyStop NullPointerDereference r)
  | Some var =>
      let slr := GetMutable_SelectedRows var in
      match ReadRaw input (dev_ctx_ r) CPUPlace length with
      | None => None
      | Some (RawThrow what) =>
          Some (CopyStop (Threw what) (store name (HoldsSelectedRows slr) r))
      | Some (RawReturn ok (p, input', ctx)) =>
          if fits p (Z.of_nat (List.length (rows_data_ slr))) then
            Some (CopyReturn ok
                    (set_dev_ctx ctx (store name (HoldsSelectedRows (write_rows p slr)) r))
                    input')
          else Some (CopyStop BufferOverrun
                       (set_dev_ctx ctx (store name (HoldsSelectedRows slr) r)))
      end
  end.

(** The [for (int i = 0; i < length; i++)] loop of a packed block: a varint
    is read and pushed back [length] times; [Some (false, _)] when one of them
    cannot be read. *)
Fixpoint read_packed (fuel : nat) (i length : Z) (input : Pb.CodedInputStream)
    (out : list Z) : option (bool * list Z * Pb.CodedInputStream) :=
  if i <? length then
    match fuel with
    | O => None
    | S fuel' =>
        match Pb.ReadVarint64 input with
        | None => Some (false, out, input)
        | Some (v, input') =>
            read_packed fuel' (i + 1) length input' (out ++ [Int.to_int64 v])
        end
    end
  else Some (true, out, input).

(** [ParseLodData]; its [return tag] is converted to [bool]. *)
Fixpoint ParseLodData_loop (fuel : nat) (input : Pb.CodedInputStream) (lod : list Z)
  : option (bool * list Z * Pb.CodedInputStream) :=
  match fuel with
  | O => None
  | S fuel' =>
      let '((p_first, p_second), input) := Pb.ReadTagWithCutoff 127 input in
      let tag := GetTagFieldNumber p_first in
      let wt := GetTagWireType p_first in
      if negb p_second then Some (tag =? 0, lod, input)
      else if tag =? kLodDataFieldNumber pb then
        if wt =? WIRETYPE_VARINT then
          match Pb.ReadVarint64 input with
          | None => Some (false, lod, input)
          | Some (v, input') => ParseLodData_loop fuel' input' (lod ++ [Int.to_int64 v])
          end
        else if wt =? WIRETYPE_LENGTH_DELIMITED then
          match Pb.ReadVarintSizeAsInt input with
          | None => Some (negb (tag =? 0), lod, input)
          | Some (length, input') =>
              match read_packed (loop_fuel input') 0 length input' lod with
              | None => None
              | Some (false, lod', input'') => Some (false, lod', input'')
              | Some (true, lod', input'') => ParseLodData_loop fuel' input'' lod'
              end
          end
        else Some (false, lod, input)
      else Some (false, lod, input)
  end.

Definition ParseLodData (input : Pb.CodedInputStream) (lod : list Z)
  : option (bool * list Z * Pb.CodedInputStream) :=
  ParseLodData_loop (loop_fuel input) input lod.

(** One turn of the [while (true)] of [Parse]: the loop goes on, or [Parse]
    ends. *)
Inductive turn :=
| Next (r : VariableResponse) (input : Pb.CodedInputStream)
| Stop (o : outcome) (r : VariableResponse).

(** The condition of the two [PADDLE_ENFORCE]s on the metadata. *)
Definition meta_info_got (m : VariableMessage) : bool :=
  ((type m =? SELECTED_ROWS pb) || (type m =? LOD_TENSOR pb))
  && negb (String.eqb (varname m) EmptyString).

Definition after_copy (tag : Z) (c : option copy_result) : option turn :=
  match c with
  | None => None
  | Some (CopyStop o r) => Some (Stop o r)
  | Some (CopyReturn false r _) => Some (Stop (Returned tag) r)
  | Some (CopyReturn true r input) => Some (Next r input)
  end.

Definition Parse_turn (r : VariableResponse) (input : Pb.CodedInputStream)
  : option turn :=
  let '((p_first, p_second), input) := Pb.ReadTagWithCutoff 127 input in
  let tag := GetTagFieldNumber p_first in
  let wt := GetTagWireType p_first in
  if negb p_second then
    if negb (tag =? 0) then Some (Stop (Returned (-1)) r)
    else Some (Stop (Returned 0) r)
  else if tag =? kVarnameFieldNumber pb then
    if negb (wt =? WIRETYPE_LENGTH_DELIMITED) then Some (Stop (Returned tag) r)
    else match Pb.ReadVarint32 input with
         | None => Some (Stop (Returned tag) r)
         | Some (length, input) =>
             match Pb.ReadString (Int.to_int32 length) input with
             | None => Some (Stop (Returned tag) r)
             | Some (temp, input) => Some (Next (set_meta (set_varname temp (meta_ r)) r) input)
             end
         end
  else if tag =? kTypeFieldNumber pb then
    if negb (wt =? WIRETYPE_VARINT) then Some (Stop (Returned tag) r)
    else match Pb.ReadVarint64 input with
         | None => Some (Stop (Returned tag) r)
         | Some (v, input) =>
             Some (Next (set_meta (set_type (Int.to_int32 v) (meta_ r)) r) input)
         end
  else if tag =? kDataTypeFieldNumber pb then
    if negb (wt =? WIRETYPE_VARINT) then Some (Stop (Returned tag) r)
    else match Pb.ReadVarint64 input with
         | None => Some (Stop (Returned tag) r)
         | Some (v, input) =>
             Some (Next (set_meta (set_data_type (Int.to_int32 v) (meta_ r)) r) input)
         end
  else if tag =? kDimsFieldNumber pb then
    if wt =? WIRETYPE_VARINT then
      match Pb.ReadVarint64 input with
      | None => Some (Stop (Returned tag) r)
      | Some (v, input) =>
          Some (Next (set_meta (add_dims (Int.to_int64 v) (meta_ r)) r) input)
      end
    else if wt =? WIRETYPE_LENGTH_DELIMITED then
      match Pb.ReadVarintSizeAsInt input with
      | None => Some (Stop (Returned tag) r)
      | Some (length, input) =>
          match read_packed (loop_fuel input) 0 length input (dims (meta_ r)) with
          | None => None
          | Some (false, ds, _) => Some (Stop (Returned tag) (set_meta (set_dims ds (meta_ r)) r))
          | Some (true, ds, input) => Some (Next (set_meta (set_dims ds (meta_ r)) r) input)
          end
      end
    else Some (Stop (Returned tag) r)
  else if tag =? kLodLevelFieldNumber pb then
    if negb (wt =? WIRETYPE_VARINT) then Some (Stop (Returned tag) r)
    else match Pb.ReadVarint64 input with
         | None => Some (Stop (Returned tag) r)
         | Some (v, input) =>
             Some (Next (set_meta (set_lod_level (Int.to_int64 v) (meta_ r)) r) input)
         end
  else if tag =? kLodFieldNumber pb then
    if negb (wt =? WIRETYPE_LENGTH_DELIMITED) then Some (Stop (Returned tag) r)
    else match ReadVarintSizeAsInt input with
         | None => Some (Stop (Returned tag) r)
         | Some (length, input) =>
             let '((p_first, p_second), input) :=
               Pb.IncrementRecursionDepthAndPushLimit length input in
             if p_second <? 0 then Some (Stop (Returned tag) r)
             else match ParseLodData input [] with
                  | None => None
                  | Some (false, _, _) => Some (Stop (Returned tag) r)
                  | Some (true, lod_data, input) =>
                      let '(consumed, input) :=
                        Pb.DecrementRecursionDepthAndPopLimit p_first input in
                      if negb consumed then Some (Stop (Returned 0) r)  (* return false; *)
                      else if Z.of_nat (List.length lod_data) =? 0 then Some (Next r input)
                      else Some (Next (set_meta (add_lod lod_data (meta_ r)) r) input)
                  end
         end
  else if tag =? kSerializedFieldNumber pb then
    if negb (meta_info_got (meta_ r))
    then Some (Stop (Threw "meta info should be got first!") r)
    else if negb (wt =? WIRETYPE_LENGTH_DELIMITED) then Some (Stop (Returned tag) r)
    else match ReadVarintSizeAsInt input with
         | None => Some (Stop (Returned tag) r)
         | Some (length, input) =>
             match GetDims (dims (meta_ r)) with
             | None => Some (Stop (Threw "make_ddim") r)
             | Some dims =>
                 if type (meta_ r) =? LOD_TENSOR pb then
                   (* PADDLE_ENFORCE(meta_.lod_size() >= 0, ...) always holds *)
                   after_copy tag (CopyLodTensorData r input dims length)
                 else if type (meta_ r) =? SELECTED_ROWS pb then
                   after_copy tag (CopySelectRowsTensorData r input dims length)
                 else Some (Stop (Returned tag) r)
             end
         end
  else if tag =? kRowsFieldNumber pb then
    if negb (meta_info_got (meta_ r))
    then Some (Stop (Threw "meta info should be got first!") r)
    else if negb (wt =? WIRETYPE_LENGTH_DELIMITED) then Some (Stop (Returned tag) r)
    else match ReadVarintSizeAsInt input with
         | None => Some (Stop (Returned tag) r)
         | Some (length, input) => after_copy tag (CopySelectRowsData r input length)
         end
  else Some (Stop (Returned (-1)) r).

Fixpoint Parse_loop (fuel : nat) (r : VariableResponse) (input : Pb.CodedInputStream)
  : option (outcome * VariableResponse) :=
  match fuel with
  | O => None
  | S fuel' =>
      match Parse_turn r input with
      | None => None
      | Some (Stop o r') => Some (o, r')
      | Some (Next r' input') => Parse_loop fuel' r' input'
      end
  end.

(** [VariableResponse::Parse] on a [Source], that is on the buffers that
    [source->contents()] hands out. *)
Definition Parse (r : VariableResponse) (source : list (list byte))
  : option (outcome * VariableResponse) :=
  let input := Pb.open source in
  Parse_loop (loop_fuel input) r input.

End Decoder.

(** The decoder arrives at the head of its loop with [r'] and [input']
    after some turns that all went on. *)
Inductive loop_head (pb : Proto) (fw : Framework)
  : VariableResponse -> Pb.CodedInputStream ->
    VariableResponse -> Pb.CodedInputStream -> Prop :=
| head_start r input : loop_head pb fw r input r input
| head_turn r input r1 input1 r2 input2 :
    Parse_turn pb fw r input = Some (Next r1 input1) ->
    loop_head pb fw r1 input1 r2 input2 ->
    loop_head pb fw r input r2 input2.

(** The same, counting the turns: where the decoder is after [k] turns
    that all went on. *)
Fixpoint Parse_turns (pb : Proto) (fw : Framework) (k : nat)
    (r : VariableResponse) (input : Pb.CodedInputStream)
  : option (VariableResponse * Pb.CodedInputStream) :=
  match k with
  | O => Some (r, input)
  | S k' =>
      match Parse_turn pb fw r input with
      | Some (Next r' input') => Parse_turns pb fw k' r' input'
      | _ => None
      end
  end.

(** A [Copy...] member ends, and when it returns the stream holds no more
    than before. *)
Definition copy_ends (input : Pb.CodedInputStream) (c : option copy_result) : Prop :=
  match c with
  | None => False
  | Some (CopyReturn _ _ input') => (length (Pb.rest input') <= length (Pb.rest input))%nat
  | Some (CopyStop _ _) => True
  end.

(** A turn ends, and when the loop goes on the stream holds less than
    before. *)
Definition turn_ends (input : Pb.CodedInputStream) (t : option turn) : Prop :=
  match t with
  | None => False
  | Some (Next _ input') => (length (Pb.rest input') < length (Pb.rest input))%nat
  | Some (Stop _ _) => True
  end.

(** The tensor behind the name of the metadata: the tensor of a
    [LoDTensor], the value of a [SelectedRows]. *)
Definition destination (r : VariableResponse) : option Tensor :=
  match scope_ r !! varname (meta_ r) with
  | Some (HoldsLoDTensor t) => Some (tensor_ t)
  | Some (HoldsSelectedRows s) => Some (value_ s)
  | _ => None
  end.

(** The wire types that section 6 allows for a top-level field. *)
Definition wire_types (pb : Proto) (field : Z) : list Z :=
  if field =? kDimsFieldNumber pb
  then [WIRETYPE_VARINT; WIRETYPE_LENGTH_DELIMITED]
  else if (field =? kTypeFieldNumber pb) || (field =? kDataTypeFieldNumber pb)
          || (field =? kLodLevelFieldNumber pb)
  then [WIRETYPE_VARINT]
  else [WIRETYPE_LENGTH_DELIMITED].

(** ** The wire format of section 6 of the specification

    The producer's side: how a message is laid out.  These definitions
    follow the specification, not the decoder. *)

Module Wire.

(** A varint: seven bits a byte, least significant group first, the top bit
    of a byte set when more bytes follow; the minimum number of bytes. *)
Fixpoint varint_loop (n : nat) (v : Z) : list byte :=
  match n with
  | O => [byte_of v]
  | S n' =>
      if v <? 128 then [byte_of v]
      else byte_of (v mod 128 + 128) :: varint_loop n' (v / 128)
  end.

(** The varint of a 64-bit value; a negative [int64] is sent as its
    unsigned image. *)
Definition varint (v : Z) : list byte := varint_loop 9 (Int.to_uint64 v).

(** A tag: [(fieldNumber << 3) | wireType]. *)
Definition tag (field wire_type : Z) : list byte :=
  varint (Z.lor (Z.shiftl field 3) wire_type).

Definition length_delimited (body : list byte) : list byte :=
  varint (Z.of_nat (length body)) ++ body.

Definition packed (vs : list Z) : list byte :=
  length_delimited (concat (map varint vs)).

(** An entry of a [lod] sub-message: one value under its own tag, or a
    packed block of values. *)
Inductive lod_entry :=
| LodValue (v : Z)
| LodPacked (vs : list Z).

Definition entry_values (e : lod_entry) : list Z :=
  match e with LodValue v => [v] | LodPacked vs => vs end.

(** A top-level field of a message. *)
Inductive field :=
| Varname (s : string)
| Type_ (v : Z)
| DataType (v : Z)
| Dim (v : Z)                    (* one dimension under its own tag *)
| DimsPacked (vs : list Z)       (* a packed block of dimensions *)
| LodLevel (v : Z)
| Lod (es : list lod_entry)      (* one offset-table level *)
| Serialized (payload : list byte)
| Rows (payload : list byte).

Definition field_number (pb : Proto) (f : field) : Z :=
  match f with
  | Varname _ => kVarnameFieldNumber pb
  | Type_ _ => kTypeFieldNumber pb
  | DataType _ => kDataTypeFieldNumber pb
  | Dim _ | DimsPacked _ => kDimsFieldNumber pb
  | LodLevel _ => kLodLevelFieldNumber pb
  | Lod _ => kLodFieldNumber pb
  | Serialized _ => kSerializedFieldNumber pb
  | Rows _ => kRowsFieldNumber pb
  end.

Definition encode_entry (pb : Proto) (e : lod_entry) : list byte :=
  match e with
  | LodValue v => tag (kLodDataFieldNumber pb) WIRETYPE_VARINT ++ varint v
  | LodPacked vs => tag (kLodDataFieldNumber pb) WIRETYPE_LENGTH_DELIMITED ++ packed vs
  end.

Definition encode_entries (pb : Proto) (es : list lod_entry) : list byte :=
  concat (map (encode_entry pb) es).

(** The bytes of a field after its tag. *)
Definition encode_value (pb : Proto) (f : field) : list byte :=
  match f with
  | Varname s => length_delimited (list_byte_of_string s)
  | Type_ v | DataType v | Dim v | LodLevel v => varint v
  | DimsPacked vs => packed vs
  | Lod es => length_delimited (encode_entries pb es)
  | Serialized payload | Rows payload => length_delimited payload
  end.

Definition wire_type (f : field) : Z :=
  match f with
  | Type_ _ | DataType _ | Dim _ | LodLevel _ => WIRETYPE_VARINT
  | _ => WIRETYPE_LENGTH_DELIMITED
  end.

Definition encode_field (pb : Proto) (f : field) : list byte :=
  tag (field_number pb f) (wire_type f) ++ encode_value pb f.

Definition encode (pb : Proto) (fs : list field) : list byte :=
  concat (map (encode_field pb) fs).

(** The values of one offset-table level. *)
Definition level (es : list lod_entry) : list Z := concat (map entry_values es).

(** What a field says about the metadata, in the words of section 3 of the
    specification: the scalar fields are set, [shape] grows by the
    dimensions in order, [offsetTable] grows by one level for each [lod]
    field.  The payload fields say nothing about the metadata. *)
Definition describe (f : field) (m : VariableMessage) : VariableMessage :=
  match f with
  | Varname s => set_varname s m
  | Type_ v => set_type v m
  | DataType v => set_data_type v m
  | Dim v => set_dims (dims m ++ [v]) m
  | DimsPacked vs => set_dims (dims m ++ vs) m
  | LodLevel v => set_lod_level v m
  | Lod es => add_lod (level es) m
  | Serialized _ | Rows _ => m
  end.

Definition describe_all (fs : list field) (m : VariableMessage) : VariableMessage :=
  fold_left (fun m f => describe f m) fs m.

(** The levels that the [lod] fields of a message carry, in message order. *)
Definition levels (fs : list field) : list (list Z) :=
  concat (map (fun f => match f with Lod es => [level es] | _ => [] end) fs).

(** The metadata fields: every field but the two payload fields. *)
Definition is_header (f : field) : bool :=
  match f with Serialized _ | Rows _ => false | _ => true end.

(** A value that a varint of one byte carries. *)
Definition one_byte (v : Z) : bool := (0 <=? v) && (v <? 128).

Definition int64 (v : Z) : bool := (- 2 ^ 63 <=? v) && (v <? 2 ^ 63).
Definition int32 (v : Z) : bool := (- 2 ^ 31 <=? v) && (v <? 2 ^ 31).

(** The values of the fields are in the range of their C++ types; the values
    of a packed block fit one byte each. *)
Definition entry_in_range (e : lod_entry) : bool :=
  match e with
  | LodValue v => int64 v
  | LodPacked vs => forallb one_byte vs
  end.

Definition in_range (f : field) : bool :=
  match f with
  | Varname _ => true
  | Type_ v | DataType v => int32 v
  | Dim v | LodLevel v => int64 v
  | DimsPacked vs => forallb one_byte vs
  | Lod es => forallb entry_in_range es
  | Serialized _ | Rows _ => true
  end.

(** A [lod] field with at least one value. *)
Definition no_empty_level (f : field) : bool :=
  match f with
  | Lod es => negb (Z.of_nat (length (level es)) =? 0)
  | _ => true
  end.

(** The part of the value of a field whose length the decoder enforces
    against the end of the source: the whole value, but of a [lod] field only
    the length prefix. *)
Definition enforced_value (pb : Proto) (f : field) : list byte :=
  match f with
  | Lod es => varint (Z.of_nat (length (encode_entries pb es)))
  | _ => encode_value pb f
  end.

(** Where a message can be cut inside a field so that the decoder sees the
    cut.  [vpart] is what is left of the value of the field [f] behind its
    tag.  The cut is before the end of the enforced value, or, in the body of
    a [lod] field, inside an entry: behind the tag of an entry and before the
    end of a single value, or behind the length of a packed block and before
    the end of the block.  The entries in front of the cut are in range. *)
Definition entry_wire_type (e : lod_entry) : Z :=
  match e with
  | LodValue _ => WIRETYPE_VARINT
  | LodPacked _ => WIRETYPE_LENGTH_DELIMITED
  end.

Definition inside_entry (e : lod_entry) (epart : list byte) : Prop :=
  match e with
  | LodValue v => exists tl, tl <> [] /\ varint v = epart ++ tl
  | LodPacked vs =>
      exists part tl,
        tl <> [] /\ concat (map varint vs) = part ++ tl
        /\ epart = varint (Z.of_nat (length (concat (map varint vs)))) ++ part
  end.

Definition cut_inside (pb : Proto) (f : field) (vpart : list byte) : Prop :=
  (exists tl, tl <> [] /\ enforced_value pb f = vpart ++ tl)
  \/ match f with
     | Lod es =>
         exists es1 e es2 epart,
           es = es1 ++ e :: es2
           /\ forallb entry_in_range es1 = true
           /\ inside_entry e epart
           /\ vpart = varint (Z.of_nat (length (encode_entries pb es)))
                      ++ encode_entries pb es1
                      ++ tag (kLodDataFieldNumber pb) (entry_wire_type e) ++ epart
     | _ => False
     end.

(** What the decoder accumulates in [meta_] from a field, and from a run of
    fields: what the field says, except that a [lod] field without a value
    leaves no level. *)
Definition accumulate (f : field) (m : VariableMessage) : VariableMessage :=
  if no_empty_level f then describe f m else m.

Definition accumulate_all (fs : list field) (m : VariableMessage) : VariableMessage :=
  fold_left (fun m f => accumulate f m) fs m.

End Wire.

(** What the materializer of the [serialized] field takes for granted of
    the metadata [m] and of its collaborators, for a payload of [n] bytes:
    the name and the kind are there, the name resolves in the scope, the
    framework calls do not throw, the buffer of the tensor has room for the
    [n] bytes, a dense tensor has its [lod_level] levels, and a device
    destination comes with a CUDA build. *)
Definition can_materialize (pb : Proto) (fw : Framework) (r : VariableResponse)
    (m : VariableMessage) (n : nat) : Prop :=
  varname m <> EmptyString
  /\ (type m = LOD_TENSOR pb \/ type m = SELECTED_ROWS pb)
  /\ is_Some (scope_ r !! varname m)
  /\ (exists d ti, GetDims fw (dims m) = Some d
                  /\ ToTypeIndex fw (data_type m) = Some ti
                  /\ mutable_data_ok fw d ti = true
                  /\ Z.of_nat n <= memory_size fw d ti)
  /\ (type m = LOD_TENSOR pb -> lod_level m <= Z.of_nat (length (lod m)))
  /\ (is_gpu_place (GetPlace (dev_ctx_ r)) = true -> PADDLE_WITH_CUDA fw = true).

(** What the materializer of the [rows] field takes for granted, for [n]
    bytes of rows: the name and the kind are there, the name resolves in the
    scope, and the rows of the variable have room for the [n] bytes. *)
Definition can_hold_rows (pb : Proto) (r : VariableResponse) (m : VariableMessage)
    (n : nat) : Prop :=
  varname m <> EmptyString
  /\ (type m = LOD_TENSOR pb \/ type m = SELECTED_ROWS pb)
  /\ exists var, scope_ r !! varname m = Some var
                 /\ (n <= length (rows_data_ (GetMutable_SelectedRows var)))%nat.

(** What the decoder takes for granted when it comes to the field [f]: of a
    payload field, what its materializer does; of a metadata field,
    nothing. *)
Definition can_receive (pb : Proto) (fw : Framework) (r : VariableResponse)
    (m : VariableMessage) (f : Wire.field) : Prop :=
  match f with
  | Wire.Serialized payload => can_materialize pb fw r m (length payload)
  | Wire.Rows payload => can_hold_rows pb r m (length payload)
  | _ => True
  end.

(** A level with at least one value. *)
Definition has_value (l : list Z) : bool := negb (Z.of_nat (length l) =? 0).

(** No transfer issued on the stream of the device context is still
    unconfirmed. *)
Definition quiet (r : VariableResponse) : Prop := in_flight (dev_ctx_ r) = [].

(** A [Copy...] member that returns true leaves the context quiet (one that
    copies to the host: always), and when it does not return that is no
    return of [Parse] either. *)
Definition copy_settled (always : bool) (c : option copy_result) : Prop :=
  match c with
  | Some (CopyReturn ok r' _) => ok = true \/ always = true -> quiet r'
  | Some (CopyStop o _) => forall code, o <> Returned code
  | None => True
  end.

(** A turn after which the loop goes on, or [Parse] returns 0, leaves the
    context quiet. *)
Definition turn_settled (t : option turn) : Prop :=
  match t with
  | Some (Next r' _) => quiet r'
  | Some (Stop o r') => o = Returned 0 -> quiet r'
  | None => True
  end.

(** ** A concrete setting

    A framework in which no call throws and every element has four bytes,
    built with and without CUDA, and a decoder with a fresh [meta_] whose
    scope knows the variable [X], on the host and on a device. *)
Module Example.

Definition framework (cuda : bool) : Framework :=
  {| PADDLE_WITH_CUDA := cuda; ToTypeIndex := Some; make_ddim := Some;
     mutable_data_ok := fun _ _ => true;
     memory_size := fun d _ => 4 * fold_right Z.mul 1 d |}.

Definition response (place : Place) : VariableResponse :=
  {| scope_ := {[ "X"%string := HoldsNothing ]};
     dev_ctx_ := {| GetPlace := place; in_flight := [] |};
     meta_ := new_VariableMessage |}.

(** A message as raw bytes. *)
Definition bytes (l : list Z) : list byte := map byte_of l.

(** A decoder whose variable [X] holds a [SelectedRows] with one row, the
    row 7: eight bytes, the low byte first. *)
Definition response_rows (place : Place) : VariableResponse :=
  {| scope_ := {[ "X"%string :=
                   HoldsSelectedRows {| rows_data_ := bytes [7; 0; 0; 0; 0; 0; 0; 0];
                                        value_ := new_Tensor |} ]};
     dev_ctx_ := {| GetPlace := place; in_flight := [] |};
     meta_ := new_VariableMessage |}.

(** The metadata fields of a dense tensor [X] of shape 2 x 3 with one
    offset-table level [0; 2; 6], the shape and a part of the level packed. *)
Definition header : list Wire.field :=
  [Wire.Varname "X"; Wire.Type_ 0; Wire.DataType 5; Wire.DimsPacked [2; 3];
   Wire.LodLevel 1; Wire.Lod [Wire.LodValue 0; Wire.LodPacked [2; 6]]].

(** The same tensor without offsets, sent with one empty level. *)
Definition header_empty_level : list Wire.field :=
  [Wire.Varname "X"; Wire.Type_ 0; Wire.DataType 5; Wire.Dim 2; Wire.Dim 3;
   Wire.LodLevel 0; Wire.Lod []].

(** A dense tensor [X] of shape 2 x 3, one dimension a field. *)
Definition dense : list Wire.field :=
  [Wire.Varname "X"; Wire.Type_ 0; Wire.DataType 5; Wire.Dim 2; Wire.Dim 3].

Definition payload : list byte := bytes [1; 2; 3; 4].

(** How [Parse] ended and what it left in [meta_]. *)
Definition result (o : option (outcome * VariableResponse))
  : option (outcome * VariableMessage) :=
  match o with
  | Some (oc, r) => Some (oc, meta_ r)
  | None => None
  end.

(** How [Parse] ended and the bytes it copied to the destination. *)
Definition copied (o : option (outcome * VariableResponse))
  : option (outcome * option (list byte)) :=
  match o with
  | Some (oc, r) => Some (oc, data_ <$> destination r)
  | None => None
  end.

End Example.

(** ** What [Parse] keeps

    The codes [Parse] returns are 0, -1 and the numbers of the fields. *)
Definition return_codes (pb : Proto) : list Z := 0 :: -1 :: field_numbers pb.

(** The scope has the same names and the device context is at the same
    place. *)
Definition same_names (r r' : VariableResponse) : Prop :=
  dom (scope_ r') = dom (scope_ r)
  /\ GetPlace (dev_ctx_ r') = GetPlace (dev_ctx_ r).

(** A [Copy...] member keeps the names, and when it does not return that is
    no return of [Parse] either. *)
Definition copy_keeps (r : VariableResponse) (c : option copy_result) : Prop :=
  match c with
  | Some (CopyReturn _ r' _) => same_names r r'
  | Some (CopyStop o r') => same_names r r' /\ forall code, o <> Returned code
  | None => True
  end.

(** A turn keeps the names, and a code it returns is one of
    [return_codes]. *)
Definition turn_keeps (pb : Proto) (r : VariableResponse) (t : option turn) : Prop :=
  match t with
  | Some (Next r' _) => same_names r r'
  | Some (Stop o r') =>
      same_names r r' /\ forall code, o = Returned code -> In code (return_codes pb)
  | None => True
  end.

(** * The block descriptor of [block_desc.cc]

    A shallow embedding of [paddle/fluid/framework/block_desc.cc]: the
    variables and operators of one block of a program, and the lookup of a
    variable through the blocks a block is linked to. *)

(** How a call ends: it returns, an enforce throws, or it runs into
    undefined behaviour (an iterator past the end of [ops_], a [BlockDesc*]
    that is no block of the program). *)
Inductive ended (A : Type) :=
| Returns (a : A)
| Throws (what : string)
| UndefinedBehaviour.
Arguments Returns {A} a.
Arguments Throws {A} what.
Arguments UndefinedBehaviour {A}.

(** What the file takes from [var_desc.h], [op_desc.h] and [operator.h],
    which are not at hand: the descriptors of a variable and of an operator
    with the members the file calls, and the name that stands for no
    variable. *)
Class Descs := {
  VarDesc : Type;
  OpDesc : Type;
  VarDesc_new : string -> VarDesc;                   (* VarDesc(name) *)
  SetName : string -> VarDesc -> VarDesc;            (* VarDesc::SetName *)
  OpDesc_new : OpDesc;                               (* OpDesc(block) *)
  Rename : string -> string -> OpDesc -> OpDesc;     (* OpDesc::Rename *)
  kEmptyVarName : string
}.

Module Block.

Section BlockDesc.

Context `{Descs}.

(** [proto::BlockDesc], the fields the file reads and writes.
    [forward_block_idx] is what the getter returns: the default of the
    field while [has_forward_block_idx] is false. *)
Record BlockDescProto := {
  parent_idx : Z;
  forward_block_idx : Z;
  has_forward_block_idx : bool
}.

(** The members of [BlockDesc]: [ops_] is the deque of the operators,
    [vars_] the map from a name to its variable.  [prog_] is the program
    the functions below take as an argument. *)
Record BlockDesc := {
  desc_ : BlockDescProto;
  need_update_ : bool;
  ops_ : list OpDesc;
  vars_ : gmap string VarDesc
}.

(** The program a block belongs to: its blocks, a [BlockDesc*] into it being
    the position of the block, and [ProgramDesc::MutableBlock] of
    [program_desc.h], which is not at hand: the block a [size_t] stands for,
    or [nullptr]. *)
Record ProgramDesc := {
  blocks_ : list BlockDesc;
  MutableBlock : Z -> option nat
}.

Definition set_need_update (u : bool) (b : BlockDesc) : BlockDesc :=
  {| desc_ := desc_ b; need_update_ := u; ops_ := ops_ b; vars_ := vars_ b |}.
Definition set_ops (ops : list OpDesc) (b : BlockDesc) : BlockDesc :=
  {| desc_ := desc_ b; need_update_ := need_update_ b; ops_ := ops; vars_ := vars_ b |}.
Definition set_vars (vars : gmap string VarDesc) (b : BlockDesc) : BlockDesc :=
  {| desc_ := desc_ b; need_update_ := need_update_ b; ops_ := ops_ b; vars_ := vars |}.
Definition set_desc (d : BlockDescProto) (b : BlockDesc) : BlockDesc :=
  {| desc_ := d; need_update_ := need_update_ b; ops_ := ops_ b; vars_ := vars_ b |}.

(** [BlockDesc::Var]: the variable of that name, created when the block has
    none. *)
Definition Var (name : string) (b : BlockDesc) : VarDesc * BlockDesc :=
  match vars_ b !! name with
  | Some var => (var, b)
  | None =>
      let var := VarDesc_new name in
      (var, set_vars (<[name := var]> (vars_ b)) (set_need_update true b))
  end.

(** [BlockDesc::FindVar]; [None] is [nullptr]. *)
Definition FindVar (b : BlockDesc) (name : string) : option VarDesc :=
  vars_ b !! name.

Definition HasVar (b : BlockDesc) (name : string) : bool :=
  bool_decide (is_Some (vars_ b !! name)).

(** [BlockDesc::RenameVar].  The new variable is a copy of the old one under
    the new name; it is put under the new name before the old name is erased.
    The pointer returned is the one put into the map. *)
Definition RenameVar (old_name new_name : string) (b : BlockDesc)
  : option VarDesc * BlockDesc :=
  if negb (HasVar b old_name) then (None, b)
  else
    let b := set_need_update true b in
    let '(var, b) := Var old_name b in
    let new_var := SetName new_name var in
    let b := set_vars (<[new_name := new_var]> (vars_ b)) b in
    let b := set_ops (map (Rename old_name new_name) (ops_ b)) b in
    let b := set_vars (delete old_name (vars_ b)) b in
    (Some new_var, b).

(** [ParentBlock] and [ForwardBlock]: the index, an [int32], is converted to
    [size_t]. *)
Definition ParentBlock (prog : ProgramDesc) (b : BlockDesc) : option nat :=
  MutableBlock prog (Int.to_uint64 (parent_idx (desc_ b))).

Definition ForwardBlock (prog : ProgramDesc) (b : BlockDesc) : option nat :=
  MutableBlock prog (Int.to_uint64 (forward_block_idx (desc_ b))).

(** [frontier.push(p)] under [if (p != nullptr)]. *)
Definition push (p : option nat) (frontier : list nat) : list nat :=
  match p with
  | Some block => frontier ++ [block]
  | None => frontier
  end.

(** The loop of [FindVarRecursive]: breadth first through the forward and
    the parent blocks.  A variable is returned with the block it is found
    in.  Where the loop is cut by its fuel the result is [None]. *)
Fixpoint FindVarRecursive_loop (fuel : nat) (prog : ProgramDesc) (name : string)
    (frontier : list nat) (visited : gset nat)
  : option (ended (option (nat * VarDesc))) :=
  match fuel with
  | O => None
  | S fuel' =>
      match frontier with
      | [] => Some (Returns None)
      | cur :: frontier =>
          if decide (cur ∈ visited)
          then FindVarRecursive_loop fuel' prog name frontier visited
          else
            match blocks_ prog !! cur with
            | None => Some UndefinedBehaviour
            | Some b =>
                match FindVar b name with
                | Some var => Some (Returns (Some (cur, var)))
                | None =>
                    let frontier := push (ForwardBlock prog b) frontier in
                    let frontier := push (ParentBlock prog b) frontier in
                    FindVarRecursive_loop fuel' prog name frontier ({[cur]} ∪ visited)
                end
            end
      end
  end.

(** Every block is taken from the frontier at most once unvisited and puts
    at most two blocks there. *)
Definition search_fuel (prog : ProgramDesc) : nat :=
  (2 * length (blocks_ prog) + 2)%nat.

(** [BlockDesc::FindVarRecursive], called on the block at position [this]. *)
Definition FindVarRecursive (prog : ProgramDesc) (this : nat) (name : string)
  : option (ended (option (nat * VarDesc))) :=
  if String.eqb name kEmptyVarName then Some (Returns None)
  else FindVarRecursive_loop (search_fuel prog) prog name [this] ∅.

Definition set_block (this : nat) (b : BlockDesc) (prog : ProgramDesc) : ProgramDesc :=
  {| blocks_ := <[this := b]> (blocks_ prog); MutableBlock := MutableBlock prog |}.

(** [BlockDesc::FindRecursiveOrCreateVar]: the variable with the block it is
    in, and the program after the call. *)
Definition FindRecursiveOrCreateVar (prog : ProgramDesc) (this : nat) (name_bytes : string)
  : option (ended ((nat * VarDesc) * ProgramDesc)) :=
  match FindVarRecursive prog this name_bytes with
  | None => None
  | Some (Returns (Some res)) => Some (Returns (res, prog))
  | Some (Returns None) =>
      match blocks_ prog !! this with
      | None => Some UndefinedBehaviour
      | Some b =>
          let '(var, b') := Var name_bytes b in
          Some (Returns ((this, var), set_block this b' prog))
      end
  | Some (Throws what) => Some (Throws what)
  | Some UndefinedBehaviour => Some UndefinedBehaviour
  end.

Definition HasVarRecursive (prog : ProgramDesc) (this : nat) (name : string)
  : option (ended bool) :=
  match FindVarRecursive prog this name with
  | None => None
  | Some (Returns res) => Some (Returns (bool_decide (is_Some res)))
  | Some (Throws what) => Some (Throws what)
  | Some UndefinedBehaviour => Some UndefinedBehaviour
  end.

(** [BlockDesc::AllVars], in the order in which the map is gone through
    (which C++ leaves open). *)
Definition AllVars (b : BlockDesc) : list VarDesc := (map_to_list (vars_ b)).*2.

(** [AppendOp], [AppendAllocatedOp], [PrependOp]: the block after the call;
    the pointer returned is to the operator at the back, at the front. *)
Definition AppendOp (b : BlockDesc) : BlockDesc :=
  set_ops (ops_ b ++ [OpDesc_new]) (set_need_update true b).

Definition AppendAllocatedOp (op_desc : OpDesc) (b : BlockDesc) : BlockDesc :=
  set_ops (ops_ b ++ [op_desc]) (set_need_update true b).

Definition PrependOp (b : BlockDesc) : BlockDesc :=
  set_ops (OpDesc_new :: ops_ b) (set_need_update true b).

(** [InsertOp(index)]: [ops_.begin() + index] has to be an iterator of the
    deque. *)
Definition InsertOp (index : nat) (b : BlockDesc) : ended BlockDesc :=
  if bool_decide (index <= length (ops_ b))%nat then
    Returns (set_ops (take index (ops_ b) ++ OpDesc_new :: drop index (ops_ b))
               (set_need_update true b))
  else UndefinedBehaviour.

(** [RemoveOp(s, e)]: nothing is done when [s] or [e] is the size of the
    deque; otherwise the operators from [s] up to [e] are erased.
    [begin() + s] and [begin() + e] have to be iterators of the deque, in
    this order.  The loop over the range only logs. *)
Definition RemoveOp (s e : nat) (b : BlockDesc) : ended BlockDesc :=
  let size := length (ops_ b) in
  if bool_decide (size < s)%nat then UndefinedBehaviour
  else if bool_decide (s = size) then Returns b
  else if bool_decide (size < e)%nat then UndefinedBehaviour
  else if bool_decide (e = size) then Returns b
  else if bool_decide (s <= e)%nat then
    Returns (set_ops (take s (ops_ b) ++ drop e (ops_ b)) (set_need_update true b))
  else UndefinedBehaviour.

Definition AllOps (b : BlockDesc) : list OpDesc := ops_ b.

(** [SetForwardBlockID]: the enforce throws when the index is set
    already. *)
Definition SetForwardBlockID (forward_block_id : Z) (b : BlockDesc) : ended BlockDesc :=
  if negb (has_forward_block_idx (desc_ b)) then
    Returns (set_desc {| parent_idx := parent_idx (desc_ b);
                         forward_block_idx := forward_block_id;
                         has_forward_block_idx := true |} b)
  else Throws "Parent block ID has been set to %d. Cannot set to %d".

(** A block is linked to its forward block and to its parent block. *)
Definition link (prog : ProgramDesc) (i j : nat) : Prop :=
  exists b, blocks_ prog !! i = Some b
            /\ (ForwardBlock prog b = Some j \/ ParentBlock prog b = Some j).

(** The blocks that [FindVarRecursive] on block [i] can come to. *)
Definition reachable (prog : ProgramDesc) : nat -> nat -> Prop := rtc (link prog).

(** Every forward and parent block of a block of the program is a block of
    the program. *)
Definition is_block (prog : ProgramDesc) (p : option nat) : bool :=
  match p with
  | Some j => bool_decide (j < length (blocks_ prog))%nat
  | None => true
  end.

Definition linked (prog : ProgramDesc) : bool :=
  forallb (fun b => is_block prog (ForwardBlock prog b) && is_block prog (ParentBlock prog b))
    (blocks_ prog).

End BlockDesc.

End Block.

(** ** A concrete program

    Descriptors reduced to what the functions above touch: a variable is its
    name and a flag, an operator the names of its arguments.  The program has
    a root block, a block nested in it and the block of the gradients of the
    nested one, whose forward block the nested block is;
    [MutableBlock] is null for an index that is no position of a block. *)
Module BlockExample.

Record var := { var_name : string; persistable : bool }.

Definition descs : Descs :=
  {| VarDesc := var;
     OpDesc := list string;
     VarDesc_new := fun name => {| var_name := name; persistable := false |};
     SetName := fun name v => {| var_name := name; persistable := persistable v |};
     OpDesc_new := [];
     Rename := fun old_name new_name =>
                 map (fun a => if String.eqb a old_name then new_name else a);
     kEmptyVarName := "@EMPTY@" |}.

Definition block (parent forward : Z) (vars : list (string * bool)) (ops : list (list string))
  : @Block.BlockDesc descs :=
  @Block.Build_BlockDesc descs
    {| Block.parent_idx := parent; Block.forward_block_idx := forward;
       Block.has_forward_block_idx := negb (forward =? -1) |}
    false ops
    (list_to_map (map (fun v => (fst v, {| var_name := fst v; persistable := snd v |})) vars)).

Definition root := block (-1) (-1) [("w", true); ("x", true)]%string [["w"; "x"]]%string.
Definition nested := block 0 (-1) [("x", false)]%string [["x"; "w"]; ["x"]]%string.
Definition gradients := block 0 1 [("x@GRAD", false)]%string [].

Definition program : @Block.ProgramDesc descs :=
  @Block.Build_ProgramDesc descs [root; nested; gradients]
    (fun idx => if idx <? 3 then Some (Z.to_nat idx) else None).

End BlockExample.
Module IntFacts.
Import Int.

Lemma to_uint64_id z : 0 <= z < 2 ^ 64 -> to_uint64 z = z.
Proof. intros H. unfold to_uint64. apply Z.mod_small. exact H. Qed.

Lemma to_uint32_id z : 0 <= z < 2 ^ 32 -> to_uint32 z = z.
Proof. intros H. unfold to_uint32. apply Z.mod_small. exact H. Qed.

Lemma to_int32_id z : - 2 ^ 31 <= z < 2 ^ 31 -> to_int32 z = z.
Proof. intros H. unfold to_int32. rewrite Z.mod_small; lia. Qed.

Lemma to_int64_id z : - 2 ^ 63 <= z < 2 ^ 63 -> to_int64 z = z.
Proof. intros H. unfold to_int64. rewrite Z.mod_small; lia. Qed.

Lemma to_uint64_range z : 0 <= to_uint64 z < 2 ^ 64.
Proof. unfold to_uint64. apply Z.mod_pos_bound. lia. Qed.

(** A signed 64-bit value survives the trip through its unsigned image. *)
Lemma to_int64_to_uint64 z : - 2 ^ 63 <= z < 2 ^ 63 -> to_int64 (to_uint64 z) = z.
Proof.
  intros H. unfold to_int64, to_uint64.
  rewrite Zplus_mod_idemp_l. rewrite Z.mod_small; lia.
Qed.

Lemma to_int32_to_uint64 z : - 2 ^ 31 <= z < 2 ^ 31 -> to_int32 (to_uint64 z) = z.
Proof.
  intros H. unfold to_int32, to_uint64. destruct (Z.neg_nonneg_cases z) as [Hn|Hp].
  - replace (z mod 2 ^ 64) with (z + 2 ^ 64) by (apply (Z.mod_unique _ _ (-1)); lia).
    replace (z + 2 ^ 64 + 2 ^ 31) with (z + 2 ^ 31 + 2 ^ 32 * 2 ^ 32) by lia.
    rewrite Z_mod_plus_full. rewrite Z.mod_small; lia.
  - rewrite (Z.mod_small z) by lia. rewrite Z.mod_small; lia.
Qed.

End IntFacts.

Lemma byte_val_range b : 0 <= byte_val b < 256.
Proof.
  unfold byte_val. pose proof (Byte.to_N_bounded b) as H. lia.
Qed.

Lemma byte_val_of z : byte_val (byte_of z) = z mod 256.
Proof.
  unfold byte_val, byte_of.
  assert (Hr : 0 <= z mod 256 < 256) by (apply Z.mod_pos_bound; lia).
  destruct (Byte.of_N (Z.to_N (z mod 256))) as [b|] eqn:E.
  - apply Byte.to_of_N in E. rewrite E. lia.
  - apply Byte.of_N_None_iff in E. lia.
Qed.

Lemma byte_of_val b : byte_of (byte_val b) = b.
Proof.
  unfold byte_of, byte_val.
  pose proof (Byte.to_N_bounded b) as H.
  rewrite Z.mod_small by lia. rewrite N2Z.id. rewrite Byte.of_to_N. reflexivity.
Qed.


(** ** Facts about the stream *)

Module PbFacts.
Import Pb.

Lemma next_byte_concat bufs b bufs' :
  next_byte bufs = Some (b, bufs') -> concat bufs = b :: concat bufs'.
Proof.
  induction bufs as [|c bufs IH]; simpl; [discriminate|].
  destruct c as [|x c]; simpl.
  - exact IH.
  - intros [= -> <-]. reflexivity.
Qed.

Lemma next_byte_none bufs : next_byte bufs = None -> concat bufs = [].
Proof.
  induction bufs as [|c bufs IH]; simpl; [reflexivity|].
  destruct c as [|x c]; simpl; [exact IH | discriminate].
Qed.

Lemma next_byte_some bufs b tl :
  concat bufs = b :: tl ->
  exists bufs', next_byte bufs = Some (b, bufs') /\ concat bufs' = tl.
Proof.
  destruct (next_byte bufs) as [[x bufs']|] eqn:E.
  - apply next_byte_concat in E. rewrite E. intros [= -> <-]. eauto.
  - apply next_byte_none in E. rewrite E. discriminate.
Qed.

Lemma drop_bytes_concat n bufs : concat (drop_bytes n bufs) = drop n (concat bufs).
Proof.
  revert bufs. induction n as [|n IH]; intros bufs; simpl.
  - reflexivity.
  - destruct (next_byte bufs) as [[b bufs']|] eqn:E.
    + rewrite IH. apply next_byte_concat in E. rewrite E. reflexivity.
    + apply next_byte_none in E. rewrite E. reflexivity.
Qed.

Lemma drop_bytes_nil n : drop_bytes n [] = [].
Proof. destruct n; reflexivity. Qed.

Lemma drop_bytes_add n m bufs :
  drop_bytes (n + m) bufs = drop_bytes m (drop_bytes n bufs).
Proof.
  revert bufs. induction n as [|n IH]; intros bufs; simpl.
  - reflexivity.
  - destruct (next_byte bufs) as [[b bufs']|].
    + apply IH.
    + rewrite drop_bytes_nil. reflexivity.
Qed.

Lemma rest_advance n s : rest (advance n s) = drop n (rest s).
Proof. unfold rest, advance. simpl. apply drop_bytes_concat. Qed.

Lemma advance_advance n m s : advance m (advance n s) = advance (n + m) s.
Proof.
  unfold advance. simpl. rewrite drop_bytes_add. f_equal. lia.
Qed.

Lemma advance_0 s : advance 0 s = s.
Proof. destruct s. unfold advance. simpl. f_equal. lia. Qed.

Lemma length_rest_advance n s :
  length (rest (advance n s)) = (length (rest s) - n)%nat.
Proof. rewrite rest_advance. apply length_drop. Qed.

Lemma holds_nil s : position s <= current_limit s -> holds s [].
Proof. intros H. split; [exists (rest s); reflexivity | simpl; lia]. Qed.

Lemma holds_app s a b :
  holds s (a ++ b) <-> holds s a /\ holds (advance (length a) s) b.
Proof.
  unfold holds. rewrite rest_advance. rewrite length_app. simpl. split.
  - intros [[tl E] L]. rewrite E. repeat split.
    + exists (b ++ tl). rewrite <- app_assoc. reflexivity.
    + lia.
    + exists tl. rewrite <- app_assoc. rewrite drop_app_length. reflexivity.
    + lia.
  - intros [[[tl E] L] [[tl' E'] L']]. split; [|lia].
    exists tl'. rewrite E in E'. rewrite drop_app_length in E'.
    rewrite E, E', <- app_assoc. reflexivity.
Qed.

Lemma holds_length s bs : holds s bs -> (length bs <= length (rest s))%nat.
Proof. intros [[tl E] _]. rewrite E, length_app. lia. Qed.

Lemma holds_available s bs : holds s bs -> Z.of_nat (length bs) <= available s.
Proof.
  intros H. pose proof (holds_length _ _ H). destruct H as [_ L].
  unfold available. lia.
Qed.

Lemma read_byte_holds s b :
  holds s [b] -> read_byte s = Some (b, advance 1 s).
Proof.
  intros [[tl E] L]. simpl in L. unfold read_byte.
  destruct (Z.ltb_spec (position s) (current_limit s)); [|lia].
  destruct (next_byte_some _ _ _ E) as (bufs' & -> & _). reflexivity.
Qed.

Lemma read_byte_inv s b s' :
  read_byte s = Some (b, s') ->
  s' = advance 1 s /\ position s < current_limit s /\ exists tl, rest s = b :: tl.
Proof.
  unfold read_byte.
  destruct (Z.ltb_spec (position s) (current_limit s)); [|discriminate].
  destruct (next_byte (buffers s)) as [[x bufs']|] eqn:E; [|discriminate].
  intros [= -> <-]. repeat split; [assumption|].
  apply next_byte_concat in E. eauto.
Qed.

Lemma read_byte_none s :
  read_byte s = None -> rest s = [] \/ current_limit s <= position s.
Proof.
  unfold read_byte.
  destruct (Z.ltb_spec (position s) (current_limit s)); [|auto].
  destruct (next_byte (buffers s)) as [[x bufs']|] eqn:E; [discriminate|].
  intros _. left. apply next_byte_none. exact E.
Qed.

Lemma read_byte_at_end s : rest s = [] -> read_byte s = None.
Proof.
  intros E. destruct (read_byte s) as [[b s']|] eqn:R; [|reflexivity].
  apply read_byte_inv in R. destruct R as (_ & _ & tl & E'). congruence.
Qed.

Lemma read_byte_at_limit s : current_limit s <= position s -> read_byte s = None.
Proof.
  intros L. unfold read_byte.
  destruct (Z.ltb_spec (position s) (current_limit s)); [lia|reflexivity].
Qed.

End PbFacts.

(** ** Varints *)

Module VarintFacts.
Import Pb PbFacts.

(** The two bit tests of the varint loop, on a byte. *)
Lemma continuation_bit b :
  (Z.land (byte_val b) 128 =? 0) = (byte_val b <? 128).
Proof. destruct b; reflexivity. Qed.

Lemma payload_bits b : Z.land (byte_val b) 127 = byte_val b mod 128.
Proof. destruct b; reflexivity. Qed.

Lemma land_low_high a b k : 0 <= k -> 0 <= a < 2 ^ k -> Z.land a (b * 2 ^ k) = 0.
Proof.
  intros Hk Ha. apply Z.bits_inj'. intros n Hn.
  rewrite Z.land_spec, Z.bits_0. destruct (Z.lt_ge_cases n k).
  - rewrite Z.mul_pow2_bits_low by lia. apply andb_false_r.
  - destruct (Z.eq_dec a 0) as [->|].
    + rewrite Z.bits_0. reflexivity.
    + rewrite Z.bits_above_log2; [reflexivity | lia |].
      apply Z.log2_lt_pow2; [lia|].
      eapply Z.lt_le_trans; [apply Ha|]. apply Z.pow_le_mono_r; lia.
Qed.

Lemma lor_shiftl_add a b k :
  0 <= k -> 0 <= a < 2 ^ k -> 0 <= b -> Z.lor a (Z.shiftl b k) = a + b * 2 ^ k.
Proof.
  intros Hk Ha Hb. rewrite Z.shiftl_mul_pow2 by lia.
  pose proof (land_low_high a b k Hk Ha) as E.
  rewrite <- Z.lxor_lor by exact E. symmetry. apply Z.add_nocarry_lxor. exact E.
Qed.

Lemma length_varint_loop n v : (1 <= length (Wire.varint_loop n v) <= S n)%nat.
Proof.
  revert v. induction n as [|n IH]; intros v; simpl; [lia|].
  destruct (v <? 128); simpl; [lia|]. specialize (IH (v / 128)). lia.
Qed.

Lemma length_varint v : (1 <= length (Wire.varint v) <= 10)%nat.
Proof. apply length_varint_loop. Qed.

(** Reading back what [varint_loop] wrote. *)
Lemma ReadVarint64_loop_varint n : forall count shift acc v s,
  (n < count)%nat -> 0 <= shift -> 0 <= acc < 2 ^ shift -> 0 <= v < 2 ^ (7 * Z.of_nat (S n)) ->
  holds s (Wire.varint_loop n v) ->
  ReadVarint64_loop count shift acc s
  = Some (Int.to_uint64 (acc + v * 2 ^ shift), advance (length (Wire.varint_loop n v)) s).
Proof.
  induction n as [|n IH]; intros count shift acc v s Hc Hs Ha Hv H.
  - destruct count as [|count]; [lia|]. simpl in *.
    rewrite (read_byte_holds _ _ H).
    assert (E : byte_val (byte_of v) = v)
      by (rewrite byte_val_of; apply Z.mod_small; change (2 ^ 7) with 128 in Hv; lia).
    rewrite continuation_bit, payload_bits, E.
    change (2 ^ 7) with 128 in Hv.
    destruct (Z.ltb_spec v 128); [|lia].
    rewrite Z.mod_small by lia. rewrite lor_shiftl_add by lia. reflexivity.
  - destruct count as [|count]; [lia|].
    cbn [Wire.varint_loop] in *. destruct (Z.ltb_spec v 128) as [Hlt|Hge].
    + cbn [ReadVarint64_loop length]. rewrite (read_byte_holds _ _ H).
      assert (E : byte_val (byte_of v) = v)
        by (rewrite byte_val_of; apply Z.mod_small; lia).
      rewrite continuation_bit, payload_bits, E.
      destruct (Z.ltb_spec v 128); [|lia].
      rewrite Z.mod_small by lia. rewrite lor_shiftl_add by lia. reflexivity.
    + change (?x :: ?l) with ([x] ++ l) in H. apply holds_app in H. destruct H as [H1 H2].
      cbn [ReadVarint64_loop]. rewrite (read_byte_holds _ _ H1).
      pose proof (Z.mod_pos_bound v 128 ltac:(lia)) as Hm.
      assert (E : byte_val (byte_of (v mod 128 + 128)) = v mod 128 + 128)
        by (rewrite byte_val_of; apply Z.mod_small; lia).
      rewrite continuation_bit, payload_bits, E.
      destruct (Z.ltb_spec (v mod 128 + 128) 128); [lia|].
      replace ((v mod 128 + 128) mod 128) with (v mod 128)
        by (apply (Z.mod_unique _ _ 1); lia).
      rewrite lor_shiftl_add by lia.
      simpl in H2.
      assert (Hp : 2 ^ (shift + 7) = 2 ^ shift * 128)
        by (rewrite Z.pow_add_r by lia; reflexivity).
      rewrite (IH count (shift + 7) (acc + v mod 128 * 2 ^ shift) (v / 128) (advance 1 s)).
      * rewrite advance_advance. f_equal. f_equal.
        rewrite Hp. f_equal. pose proof (Z.div_mod v 128 ltac:(lia)). nia.
      * lia.
      * lia.
      * rewrite Hp. nia.
      * split; [apply Z.div_pos; lia|].
        apply Z.div_lt_upper_bound; [lia|].
        replace (7 * Z.of_nat (S (S n))) with (7 + 7 * Z.of_nat (S n)) in Hv by lia.
        rewrite Z.pow_add_r in Hv by lia. change (2 ^ 7) with 128 in Hv. lia.
      * exact H2.
Qed.

(** [ReadVarint64] reads back a varint, as the unsigned 64-bit image of the
    value that was written. *)
Lemma ReadVarint64_varint v s :
  holds s (Wire.varint v) ->
  ReadVarint64 s = Some (Int.to_uint64 v, advance (length (Wire.varint v)) s).
Proof.
  intros H. unfold ReadVarint64, Wire.varint in *.
  rewrite (ReadVarint64_loop_varint 9 kMaxVarintBytes 0 0 (Int.to_uint64 v) s).
  - rewrite Z.pow_0_r, Z.mul_1_r, Z.add_0_l.
    rewrite (IntFacts.to_uint64_id (Int.to_uint64 v)) by apply IntFacts.to_uint64_range.
    reflexivity.
  - unfold kMaxVarintBytes. lia.
  - lia.
  - simpl. lia.
  - pose proof (IntFacts.to_uint64_range v).
    change (2 ^ (7 * Z.of_nat 10)) with (2 ^ 70). change (2 ^ 64) with 18446744073709551616 in *.
    change (2 ^ 70) with 1180591620717411303424. lia.
  - exact H.
Qed.

(** A value below 128 is one byte. *)
Lemma varint_one_byte v : 0 <= v < 128 -> Wire.varint v = [byte_of v].
Proof.
  intros H. unfold Wire.varint. rewrite IntFacts.to_uint64_id by lia.
  simpl. destruct (Z.ltb_spec v 128); [reflexivity|lia].
Qed.

End VarintFacts.

(** ** Every loop of the decoder comes to an end

    A turn of a loop that goes on has consumed at least one byte of the
    source, so the fuel a loop is started with, one more than the bytes the
    source holds, is never used up. *)

Module Progress.
Import PbFacts.

Local Abbreviation left_in s := (length (Pb.rest s)) (only parsing).

Lemma read_byte_less s b s' :
  Pb.read_byte s = Some (b, s') -> (left_in s' < left_in s)%nat.
Proof.
  intros H. apply read_byte_inv in H. destruct H as (-> & _ & tl & E).
  rewrite length_rest_advance, E. simpl. lia.
Qed.

Lemma ReadVarint64_loop_less count : forall shift acc s v s',
  Pb.ReadVarint64_loop count shift acc s = Some (v, s') -> (left_in s' < left_in s)%nat.
Proof.
  induction count as [|count IH]; intros shift acc s v s'; simpl; [discriminate|].
  destruct (Pb.read_byte s) as [[b s1]|] eqn:R; [|discriminate].
  apply read_byte_less in R.
  destruct (Z.land (byte_val b) 128 =? 0).
  - intros [= _ <-]. exact R.
  - intros H. apply IH in H. lia.
Qed.

Lemma ReadVarint64_less s v s' :
  Pb.ReadVarint64 s = Some (v, s') -> (left_in s' < left_in s)%nat.
Proof. apply ReadVarint64_loop_less. Qed.

Lemma ReadVarint32_less s v s' :
  Pb.ReadVarint32 s = Some (v, s') -> (left_in s' < left_in s)%nat.
Proof.
  unfold Pb.ReadVarint32. destruct (Pb.ReadVarint64 s) as [[x s1]|] eqn:R; [|discriminate].
  intros [= _ <-]. eapply ReadVarint64_less, R.
Qed.

Lemma Pb_ReadVarintSizeAsInt_less s v s' :
  Pb.ReadVarintSizeAsInt s = Some (v, s') -> (left_in s' < left_in s)%nat.
Proof.
  unfold Pb.ReadVarintSizeAsInt.
  destruct (Pb.ReadVarint64 s) as [[x s1]|] eqn:R; [|discriminate].
  destruct (x <=? Int.INT_MAX); [|discriminate].
  intros [= _ <-]. eapply ReadVarint64_less, R.
Qed.

Lemma ReadVarintSizeAsInt_less s v s' :
  ReadVarintSizeAsInt s = Some (v, s') -> (left_in s' < left_in s)%nat.
Proof.
  unfold ReadVarintSizeAsInt.
  destruct (Pb.ReadVarint64 s) as [[x s1]|] eqn:R; [|discriminate].
  destruct (x <=? _); [|discriminate].
  intros [= _ <-]. eapply ReadVarint64_less, R.
Qed.

Lemma ReadString_le size s str s' :
  Pb.ReadString size s = Some (str, s') -> (left_in s' <= left_in s)%nat.
Proof.
  unfold Pb.ReadString. destruct (size <? 0); [discriminate|].
  destruct (Pb.available s <? size); [discriminate|].
  intros [= _ <-]. rewrite length_rest_advance. lia.
Qed.

Lemma ReadTagWithCutoff_le cutoff s p s' :
  Pb.ReadTagWithCutoff cutoff s = (p, s') -> (left_in s' <= left_in s)%nat.
Proof.
  unfold Pb.ReadTagWithCutoff. destruct (Pb.read_byte s) as [[b s1]|].
  - destruct (Pb.ReadVarint64 s) as [[v s2]|] eqn:R.
    + intros [= _ <-]. apply ReadVarint64_less in R. lia.
    + intros [= _ <-]. lia.
  - intros [= _ <-]. unfold Pb.rest. simpl. lia.
Qed.

Lemma ReadTagWithCutoff_less cutoff s t s' :
  Pb.ReadTagWithCutoff cutoff s = ((t, true), s') -> (left_in s' < left_in s)%nat.
Proof.
  unfold Pb.ReadTagWithCutoff. destruct (Pb.read_byte s) as [[b s1]|].
  - destruct (Pb.ReadVarint64 s) as [[v s2]|] eqn:R.
    + intros [= _ _ <-]. apply ReadVarint64_less in R. lia.
    + discriminate.
  - discriminate.
Qed.

Lemma skip_empty_concat bufs : concat (Pb.skip_empty bufs) = concat bufs.
Proof.
  induction bufs as [|c bufs IH]; [reflexivity|].
  destruct c; simpl; [exact IH | reflexivity].
Qed.

Lemma skip_empty_head bufs c bufs' : Pb.skip_empty bufs = c :: bufs' -> c <> [].
Proof.
  induction bufs as [|x bufs IH]; simpl; [discriminate|].
  destruct x; [exact IH|]. intros [= <- _]. discriminate.
Qed.

(** The buffer that [Pb.GetDirectBufferPointer] returns is not empty and is
    the start of what the source still holds. *)
Lemma GetDirectBufferPointer_some s data :
  Pb.GetDirectBufferPointer s = Some data ->
  (1 <= length data)%nat /\ exists tl, Pb.rest s = data ++ tl.
Proof.
  unfold Pb.GetDirectBufferPointer.
  destruct (Z.ltb_spec (Pb.position s) (Pb.current_limit s)) as [L|]; [|discriminate].
  destruct (Pb.skip_empty (Pb.buffers s)) as [|c bufs'] eqn:E; [discriminate|].
  intros [= <-]. pose proof (skip_empty_head _ _ _ E) as Hc.
  assert (R : Pb.rest s = c ++ concat bufs').
  { unfold Pb.rest. rewrite <- skip_empty_concat, E. reflexivity. }
  split.
  - rewrite length_take. destruct c; [congruence|]. simpl length. lia.
  - exists (drop (Z.to_nat (Z.min (Z.of_nat (length c)) (Pb.current_limit s - Pb.position s))) c
            ++ concat bufs').
    rewrite R, app_assoc, take_drop. reflexivity.
Qed.

Lemma Skip_length s data tl :
  Pb.rest s = data ++ tl -> left_in (Pb.Skip (Z.of_nat (length data)) s) = length tl.
Proof.
  intros E. unfold Pb.Skip. rewrite Nat2Z.id, length_rest_advance, E, length_app. lia.
Qed.

Lemma ReadRaw_gpu_loop_total fuel : forall size p input ctx,
  (left_in input < fuel)%nat ->
  exists ok p' input' ctx',
    ReadRaw_gpu_loop fuel size (p, input, ctx) = Some (ok, (p', input', ctx'))
    /\ (left_in input' <= left_in input)%nat.
Proof.
  induction fuel as [|fuel IH]; intros size p input ctx Hf; [lia|].
  cbn [ReadRaw_gpu_loop]. destruct (0 <? size); [|eauto 10].
  destruct (Pb.GetDirectBufferPointer input) as [data|] eqn:G; [|eauto 10].
  destruct (GetDirectBufferPointer_some _ _ G) as (Hd & tl & E).
  pose proof (Skip_length _ _ _ E) as HS. rewrite E, length_app in Hf.
  destruct (IH (size - Z.of_nat (length data)) (p ++ data)
              (Pb.Skip (Z.of_nat (length data)) input) (Copy_async data ctx))
    as (ok & p' & input' & ctx' & -> & Hle); [lia|].
  exists ok, p', input', ctx'. split; [reflexivity|]. rewrite E, length_app. lia.
Qed.

Lemma ReadRaw_cpu_loop_total fuel : forall size p input ctx,
  (left_in input < fuel)%nat ->
  exists ok p' input',
    ReadRaw_cpu_loop fuel size (p, input, ctx) = Some (ok, (p', input', ctx))
    /\ (left_in input' <= left_in input)%nat.
Proof.
  induction fuel as [|fuel IH]; intros size p input ctx Hf; [lia|].
  cbn [ReadRaw_cpu_loop]. destruct (0 <? size); [|eauto 10].
  destruct (Pb.GetDirectBufferPointer input) as [data|] eqn:G; [|eauto 10].
  destruct (GetDirectBufferPointer_some _ _ G) as (Hd & tl & E).
  pose proof (Skip_length _ _ _ E) as HS. rewrite E, length_app in Hf.
  destruct (IH (size - Z.of_nat (length data)) (p ++ data)
              (Pb.Skip (Z.of_nat (length data)) input) ctx)
    as (ok & p' & input' & -> & Hle); [lia|].
  exists ok, p', input'. split; [reflexivity|]. rewrite E, length_app. lia.
Qed.

Lemma read_packed_total fuel : forall i len input out,
  (left_in input < fuel)%nat ->
  exists ok out' input',
    read_packed fuel i len input out = Some (ok, out', input')
    /\ (left_in input' <= left_in input)%nat.
Proof.
  induction fuel as [|fuel IH]; intros i len input out Hf; [lia|].
  cbn [read_packed]. destruct (i <? len); [|eauto 10].
  destruct (Pb.ReadVarint64 input) as [[v input1]|] eqn:R; [|eauto 10].
  apply ReadVarint64_less in R.
  destruct (IH (i + 1) len input1 (out ++ [Int.to_int64 v]))
    as (ok & out' & input' & -> & Hle); [lia|].
  exists ok, out', input'. split; [reflexivity|lia].
Qed.

Section WithProto.

Variable pb : Proto.
Variable fw : Framework.

Lemma ParseLodData_loop_total fuel : forall input lod_data,
  (left_in input < fuel)%nat ->
  exists ok lod_data' input',
    ParseLodData_loop pb fuel input lod_data = Some (ok, lod_data', input')
    /\ (left_in input' <= left_in input)%nat.
Proof.
  induction fuel as [|fuel IH]; intros input lod_data Hf; [lia|].
  cbn [ParseLodData_loop].
  destruct (Pb.ReadTagWithCutoff 127 input) as [[t ok] input1] eqn:T.
  pose proof (ReadTagWithCutoff_le _ _ _ _ T) as Hle.
  destruct ok; cbn [negb]; [|eauto 10].
  apply ReadTagWithCutoff_less in T.
  destruct (_ =? kLodDataFieldNumber pb); [|eauto 10].
  destruct (_ =? WIRETYPE_VARINT).
  { destruct (Pb.ReadVarint64 input1) as [[v input2]|] eqn:R; [|eauto 10].
    apply ReadVarint64_less in R.
    destruct (IH input2 (lod_data ++ [Int.to_int64 v]))
      as (ok & l' & input' & -> & Hle'); [lia|].
    exists ok, l', input'. split; [reflexivity|lia]. }
  destruct (_ =? WIRETYPE_LENGTH_DELIMITED); [|eauto 10].
  destruct (Pb.ReadVarintSizeAsInt input1) as [[len input2]|] eqn:R; [|eauto 10].
  apply Pb_ReadVarintSizeAsInt_less in R.
  destruct (read_packed_total (loop_fuel input2) 0 len input2 lod_data)
    as (ok & l' & input3 & -> & Hle3); [unfold loop_fuel; lia|].
  destruct ok.
  - destruct (IH input3 l') as (ok & l'' & input' & -> & Hle'); [lia|].
    exists ok, l'', input'. split; [reflexivity|lia].
  - exists false, l', input3. split; [reflexivity|lia].
Qed.

Lemma ParseLodData_total input lod_data :
  exists ok lod_data' input',
    ParseLodData pb input lod_data = Some (ok, lod_data', input')
    /\ (left_in input' <= left_in input)%nat.
Proof. apply ParseLodData_loop_total. unfold loop_fuel. lia. Qed.

Lemma ReadRaw_total input ctx place size :
  (exists ok p input' ctx',
      ReadRaw fw input ctx place size = Some (RawReturn ok (p, input', ctx'))
      /\ (left_in input' <= left_in input)%nat)
  \/ exists what, ReadRaw fw input ctx place size = Some (RawThrow what).
Proof.
  unfold ReadRaw. destruct (is_gpu_place place).
  - destruct (PADDLE_WITH_CUDA fw); [|right; eauto].
    destruct (ReadRaw_gpu_loop_total (loop_fuel input) size [] input ctx)
      as (ok & p & input' & ctx' & -> & Hle); [unfold loop_fuel; lia|].
    left. destruct ok; eauto 10.
  - destruct (ReadRaw_cpu_loop_total (loop_fuel input) size [] input ctx)
      as (ok & p & input' & -> & Hle); [unfold loop_fuel; lia|].
    left. eauto 10.
Qed.

Lemma CopyLodTensorData_total r input dims len :
  copy_ends input (CopyLodTensorData fw r input dims len).
Proof.
  unfold CopyLodTensorData.
  destruct (scope_ r !! varname (meta_ r)); [|exact I].
  destruct (copy_lod _ _ _ _); [|exact I].
  destruct (ToTypeIndex fw _); [|exact I].
  destruct (mutable_data_ok fw _ _); [|exact I].
  destruct (ReadRaw_total input (dev_ctx_ r) (GetPlace (dev_ctx_ r)) len)
    as [(ok & p & input' & ctx' & -> & Hle)|[what ->]]; [|exact I].
  destruct (fits p _); [exact Hle|exact I].
Qed.

Lemma CopySelectRowsTensorData_total r input dims len :
  copy_ends input (CopySelectRowsTensorData fw r input dims len).
Proof.
  unfold CopySelectRowsTensorData.
  destruct (scope_ r !! varname (meta_ r)); [|exact I].
  destruct (ToTypeIndex fw _); [|exact I].
  destruct (mutable_data_ok fw _ _); [|exact I].
  destruct (ReadRaw_total input (dev_ctx_ r) (GetPlace (dev_ctx_ r)) len)
    as [(ok & p & input' & ctx' & -> & Hle)|[what ->]]; [|exact I].
  destruct (fits p _); [exact Hle|exact I].
Qed.

Lemma CopySelectRowsData_total r input len :
  copy_ends input (CopySelectRowsData fw r input len).
Proof.
  unfold CopySelectRowsData.
  destruct (scope_ r !! varname (meta_ r)); [|exact I].
  destruct (ReadRaw_total input (dev_ctx_ r) CPUPlace len)
    as [(ok & p & input' & ctx' & -> & Hle)|[what ->]]; [|exact I].
  destruct (fits p _); [exact Hle|exact I].
Qed.

Lemma after_copy_ends tag input0 input c :
  (left_in input < left_in input0)%nat ->
  copy_ends input c -> turn_ends input0 (after_copy tag c).
Proof.
  intros Hlt. destruct c as [[ok r' input'|o r']|]; simpl; [|auto|auto].
  destruct ok; simpl; [lia|auto].
Qed.

Lemma Parse_turn_ends r input : turn_ends input (Parse_turn pb fw r input).
Proof.
  unfold Parse_turn.
  destruct (Pb.ReadTagWithCutoff 127 input) as [[t ok] input1] eqn:T.
  destruct ok; cbn [negb].
  2:{ destruct (negb _); exact I. }
  apply ReadTagWithCutoff_less in T.
  repeat match goal with
         | |- turn_ends _ (if ?c then _ else _) => destruct c
         | |- turn_ends _ (Some (Stop _ _)) => exact I
         end.
  - destruct (Pb.ReadVarint32 input1) as [[len input2]|] eqn:R; [|exact I].
    apply ReadVarint32_less in R.
    destruct (Pb.ReadString _ input2) as [[str input3]|] eqn:S; [|exact I].
    apply ReadString_le in S. simpl. lia.
  - destruct (Pb.ReadVarint64 input1) as [[v input2]|] eqn:R; [|exact I].
    apply ReadVarint64_less in R. simpl. lia.
  - destruct (Pb.ReadVarint64 input1) as [[v input2]|] eqn:R; [|exact I].
    apply ReadVarint64_less in R. simpl. lia.
  - destruct (Pb.ReadVarint64 input1) as [[v input2]|] eqn:R; [|exact I].
    apply ReadVarint64_less in R. simpl. lia.
  - destruct (Pb.ReadVarintSizeAsInt input1) as [[len input2]|] eqn:R; [|exact I].
    apply Pb_ReadVarintSizeAsInt_less in R.
    destruct (read_packed_total (loop_fuel input2) 0 len input2 (dims (meta_ r)))
      as (ok & ds & input3 & -> & Hle); [unfold loop_fuel; lia|].
    destruct ok; simpl; [lia|exact I].
  - destruct (Pb.ReadVarint64 input1) as [[v input2]|] eqn:R; [|exact I].
    apply ReadVarint64_less in R. simpl. lia.
  - destruct (ReadVarintSizeAsInt input1) as [[len input2]|] eqn:R; [|exact I].
    apply ReadVarintSizeAsInt_less in R.
    destruct (Pb.IncrementRecursionDepthAndPushLimit len input2) as [[old budget] input3] eqn:P.
    assert (E3 : Pb.rest input3 = Pb.rest input2).
    { unfold Pb.IncrementRecursionDepthAndPushLimit, Pb.PushLimit in P.
      injection P as _ _ <-. reflexivity. }
    destruct (budget <? 0); [exact I|].
    destruct (ParseLodData_total input3 []) as (ok & l & input4 & -> & Hle).
    destruct ok; [|exact I].
    unfold Pb.DecrementRecursionDepthAndPopLimit.
    destruct (negb _); [exact I|].
    rewrite E3 in Hle.
    destruct (_ =? 0); simpl; unfold Pb.rest in *; simpl; lia.
  - destruct (ReadVarintSizeAsInt input1) as [[len input2]|] eqn:R; [|exact I].
    apply ReadVarintSizeAsInt_less in R.
    destruct (GetDims fw _); [|exact I].
    destruct (_ =? LOD_TENSOR pb).
    + apply (after_copy_ends _ _ input2); [lia|]. apply CopyLodTensorData_total.
    + destruct (_ =? SELECTED_ROWS pb); [|exact I].
      apply (after_copy_ends _ _ input2); [lia|]. apply CopySelectRowsTensorData_total.
  - destruct (ReadVarintSizeAsInt input1) as [[len input2]|] eqn:R; [|exact I].
    apply ReadVarintSizeAsInt_less in R.
    apply (after_copy_ends _ _ input2); [lia|]. apply CopySelectRowsData_total.
Qed.

Lemma Parse_loop_total fuel : forall r input,
  (left_in input < fuel)%nat -> exists res, Parse_loop pb fw fuel r input = Some res.
Proof.
  induction fuel as [|fuel IH]; intros r input Hf; [lia|].
  cbn [Parse_loop]. pose proof (Parse_turn_ends r input) as H.
  destruct (Parse_turn pb fw r input) as [[r' input'|o r']|]; simpl in H.
  - apply IH. lia.
  - eauto.
  - contradiction.
Qed.

(** [Parse] always ends: with a return code, a throw, or undefined
    behaviour. *)
Lemma Parse_total r source : exists res, Parse pb fw r source = Some res.
Proof. apply Parse_loop_total. unfold loop_fuel. lia. Qed.

(** When the decoder arrives at the head of its loop and the next turn ends
    [Parse], that is how [Parse] ends. *)
Lemma Parse_loop_head r input r1 input1 :
  loop_head pb fw r input r1 input1 ->
  (left_in input1 <= left_in input)%nat /\
  forall o r2 fuel,
    Parse_turn pb fw r1 input1 = Some (Stop o r2) ->
    (left_in input < fuel)%nat ->
    Parse_loop pb fw fuel r input = Some (o, r2).
Proof.
  induction 1 as [r input|r input r1 input1 r2 input2 T H [IHle IH]].
  - split; [lia|]. intros o r2 fuel T Hf.
    destruct fuel; [lia|]. cbn [Parse_loop]. rewrite T. reflexivity.
  - pose proof (Parse_turn_ends r input) as P. rewrite T in P. simpl in P.
    split; [lia|]. intros o r3 fuel T2 Hf.
    destruct fuel; [lia|]. cbn [Parse_loop]. rewrite T. apply IH; [exact T2|lia].
Qed.

Lemma Parse_head r source r1 input1 o r2 :
  loop_head pb fw r (Pb.open source) r1 input1 ->
  Parse_turn pb fw r1 input1 = Some (Stop o r2) ->
  Parse pb fw r source = Some (o, r2).
Proof.
  intros H T. unfold Parse.
  apply (proj2 (Parse_loop_head _ _ _ _ H)); [exact T|]. unfold loop_fuel. lia.
Qed.

Lemma loop_head_trans r input r1 input1 r2 input2 :
  loop_head pb fw r input r1 input1 ->
  loop_head pb fw r1 input1 r2 input2 ->
  loop_head pb fw r input r2 input2.
Proof.
  induction 1; intros H2; [exact H2|]. eapply head_turn; eauto.
Qed.

End WithProto.

End Progress.

(** ** The decoder on the fields of a message *)

Module Fields.
Import PbFacts VarintFacts.

Lemma sane_open source : Pb.sane (Pb.open source).
Proof. unfold Pb.sane, Pb.bounded, Pb.open, Int.INT_MAX. simpl. repeat split; lia. Qed.

Lemma bounded_advance n s : Pb.bounded s -> Pb.bounded (Pb.advance n s).
Proof. unfold Pb.bounded, Pb.advance. simpl. lia. Qed.

Lemma sane_advance n s : Pb.sane s -> Pb.sane (Pb.advance n s).
Proof.
  intros (H1 & H2 & H3). split; [apply bounded_advance, H1|]. split; assumption.
Qed.

Lemma sane_bounded s : Pb.sane s -> Pb.bounded s.
Proof. intros [H _]. exact H. Qed.

(** The numbering of the message, unpacked into the context. *)
Ltac unpack_proto H :=
  unfold proto_ok, field_numbers, small_field in H; cbn [forallb distinct] in H;
  rewrite ?andb_true_iff, ?negb_true_iff, ?Z.eqb_neq, ?Z.leb_le, ?Z.ltb_lt in H;
  repeat match goal with H' : _ /\ _ |- _ => destruct H' end.

(** Which [case] of the [switch] a field number selects: the tests of the
    chain are settled one by one, each from the numbering alone. *)
Lemma distinct_lookup l : distinct l = true ->
  forall (i j : nat) a b, l !! i = Some a -> l !! j = Some b -> i <> j -> (a =? b) = false.
Proof.
  assert (Hall : forall x (l : list Z) j b,
             forallb (fun y => negb (x =? y)) l = true -> l !! j = Some b -> (x =? b) = false).
  { intros x l0. induction l0 as [|y l0 IH]; intros j b Hf Hj; [destruct j; discriminate|].
    cbn [forallb] in Hf. apply andb_true_iff in Hf. destruct Hf as [Hy Hl].
    destruct j as [|j]; simpl in Hj.
    - injection Hj as <-. apply negb_true_iff. exact Hy.
    - eapply IH; eassumption. }
  induction l as [|x l IH]; intros Hd i j a b Hi Hj Hne; [destruct i; discriminate|].
  cbn [distinct] in Hd. apply andb_true_iff in Hd. destruct Hd as [Hx Hl].
  destruct i as [|i], j as [|j]; simpl in Hi, Hj.
  - congruence.
  - injection Hi as <-. eapply Hall; eassumption.
  - injection Hj as <-. rewrite Z.eqb_sym. eapply Hall; eassumption.
  - apply (IH Hl i j); auto.
Qed.

Lemma proto_distinct pb : proto_ok pb = true -> distinct (field_numbers pb) = true.
Proof.
  unfold proto_ok. rewrite !andb_true_iff. tauto.
Qed.

Ltac field_index a :=
  lazymatch a with
  | kVarnameFieldNumber _ => constr:(0%nat)
  | kTypeFieldNumber _ => constr:(1%nat)
  | kDataTypeFieldNumber _ => constr:(2%nat)
  | kDimsFieldNumber _ => constr:(3%nat)
  | kLodLevelFieldNumber _ => constr:(4%nat)
  | kLodFieldNumber _ => constr:(5%nat)
  | kSerializedFieldNumber _ => constr:(6%nat)
  | kRowsFieldNumber _ => constr:(7%nat)
  end.

Ltac distinct_fields Hd a b :=
  let i := field_index a in
  let j := field_index b in
  apply (distinct_lookup _ Hd i j); [reflexivity | reflexivity | discriminate].

(** [Hd] is a proof that the field numbers are distinct. *)
Ltac dispatch_distinct Hd :=
  repeat match goal with
         | |- context [?a =? ?b] =>
             first [ rewrite (Z.eqb_refl a)
                   | let E := fresh "E" in
                     assert (E : (a =? b) = false)
                       by first [ reflexivity | distinct_fields Hd a b ];
                     rewrite E; clear E ]
         end.

Ltac dispatch Hpb := dispatch_distinct (proto_distinct _ Hpb).

(** The tag of a field is one byte. *)
Lemma tag_bounds f wt :
  small_field f = true -> 0 <= wt < 8 ->
  let t := Z.lor (Z.shiftl f 3) wt in
  8 <= t < 128 /\ GetTagFieldNumber t = f /\ GetTagWireType t = wt.
Proof.
  unfold small_field. rewrite andb_true_iff, Z.leb_le, Z.leb_le. intros [H1 H2] Hw.
  assert (Hf : f = 1 \/ f = 2 \/ f = 3 \/ f = 4 \/ f = 5 \/ f = 6 \/ f = 7 \/ f = 8
               \/ f = 9 \/ f = 10 \/ f = 11 \/ f = 12 \/ f = 13 \/ f = 14 \/ f = 15) by lia.
  assert (Hwt : wt = 0 \/ wt = 1 \/ wt = 2 \/ wt = 3 \/ wt = 4 \/ wt = 5 \/ wt = 6 \/ wt = 7)
    by lia.
  repeat (destruct Hf as [->|Hf]); try subst f;
    repeat (destruct Hwt as [->|Hwt]); try subst wt; cbv; repeat split; congruence.
Qed.

Lemma length_tag f wt :
  small_field f = true -> 0 <= wt < 8 -> length (Wire.tag f wt) = 1%nat.
Proof.
  intros Hf Hw. destruct (tag_bounds f wt Hf Hw) as (Hb & _).
  unfold Wire.tag. rewrite varint_one_byte by lia. reflexivity.
Qed.

Lemma ReadTagWithCutoff_tag f wt s :
  small_field f = true -> 0 <= wt < 8 ->
  Pb.holds s (Wire.tag f wt) ->
  exists t, Pb.ReadTagWithCutoff 127 s = ((t, true), Pb.advance 1 s)
            /\ GetTagFieldNumber t = f /\ GetTagWireType t = wt.
Proof.
  intros Hf Hw H. destruct (tag_bounds f wt Hf Hw) as (Hb & Hn & Ht).
  exists (Z.lor (Z.shiftl f 3) wt). split; [|auto].
  unfold Pb.ReadTagWithCutoff, Wire.tag in *.
  rewrite (ReadVarint64_varint _ _ H).
  rewrite varint_one_byte in * by lia.
  rewrite (read_byte_holds _ _ H).
  rewrite IntFacts.to_uint64_id by lia.
  rewrite IntFacts.to_uint32_id by lia.
  destruct (Z.leb_spec 1 (Z.lor (Z.shiftl f 3) wt)); [|lia].
  destruct (Z.leb_spec (Z.lor (Z.shiftl f 3) wt) 127); [|lia].
  reflexivity.
Qed.

(** At the end of the source, and at the limit, there is no tag. *)
Lemma ReadTagWithCutoff_end s :
  Pb.rest s = [] \/ Pb.current_limit s <= Pb.position s ->
  Pb.ReadTagWithCutoff 127 s = ((0, false), Pb.with_message_end s).
Proof.
  intros H. unfold Pb.ReadTagWithCutoff.
  destruct H as [H|H];
    [rewrite (read_byte_at_end _ H) | rewrite (read_byte_at_limit _ H)]; reflexivity.
Qed.


Lemma small_field_number pb f :
  proto_ok pb = true -> small_field (Wire.field_number pb f) = true.
Proof.
  intros Hpb. unfold proto_ok in Hpb. cbn [forallb field_numbers] in Hpb.
  repeat rewrite andb_true_iff in Hpb.
  destruct f; cbn [Wire.field_number]; tauto.
Qed.

Lemma wire_type_bounds f : 0 <= Wire.wire_type f < 8.
Proof. destruct f; cbv; split; congruence. Qed.

(** Reading the tag of an encoded field. *)
Lemma read_field_tag pb f s :
  proto_ok pb = true ->
  Pb.holds s (Wire.encode_field pb f) ->
  exists t, Pb.ReadTagWithCutoff 127 s = ((t, true), Pb.advance 1 s)
            /\ GetTagFieldNumber t = Wire.field_number pb f
            /\ GetTagWireType t = Wire.wire_type f
            /\ Pb.holds (Pb.advance 1 s) (Wire.encode_value pb f).
Proof.
  intros Hpb H. unfold Wire.encode_field in H. apply holds_app in H.
  destruct H as [H1 H2].
  pose proof (small_field_number pb f Hpb) as Hs.
  pose proof (wire_type_bounds f) as Hw.
  rewrite length_tag in H2 by assumption.
  destruct (ReadTagWithCutoff_tag _ _ _ Hs Hw H1) as (t & T & Hn & Ht).
  exists t. auto.
Qed.

Lemma length_encode_field pb f :
  proto_ok pb = true ->
  length (Wire.encode_field pb f) = S (length (Wire.encode_value pb f)).
Proof.
  intros Hpb. unfold Wire.encode_field. rewrite length_app, length_tag; [reflexivity| |].
  - apply small_field_number, Hpb.
  - apply wire_type_bounds.
Qed.

Lemma holds_INT_MAX s bs :
  Pb.bounded s -> Pb.holds s bs -> Z.of_nat (length bs) <= Int.INT_MAX.
Proof. intros (Hp & Hl) [_ H]. lia. Qed.

Lemma stream_eq (a b : Pb.CodedInputStream) :
  Pb.buffers a = Pb.buffers b -> Pb.position a = Pb.position b ->
  Pb.current_limit a = Pb.current_limit b ->
  Pb.legitimate_message_end a = Pb.legitimate_message_end b ->
  Pb.recursion_budget a = Pb.recursion_budget b -> a = b.
Proof. destruct a, b. simpl. intros. subst. reflexivity. Qed.

Ltac range H :=
  unfold Wire.int32, Wire.int64, Wire.one_byte in H;
  rewrite andb_true_iff, ?Z.leb_le, ?Z.ltb_lt in H.

(** The turn of [Parse] on a field  whose value is one varint: the field is
    consumed and [meta_] updated. *)
Section Scalar.

Variable pb : Proto.
Variable fw : Framework.
Variable r : VariableResponse.
Variable s : Pb.CodedInputStream.

Let next (f : Wire.field) : option turn :=
  Some (Next (set_meta (Wire.describe f (meta_ r)) r)
             (Pb.advance (length (Wire.encode_field pb f)) s)).

Lemma turn_scalar f :
  match f with
  | Wire.Type_ _ | Wire.DataType _ | Wire.Dim _ | Wire.LodLevel _ => True
  | _ => False
  end ->
  proto_ok pb = true -> Wire.in_range f = true ->
  Pb.holds s (Wire.encode_field pb f) ->
  Parse_turn pb fw r s = next f.
Proof.
  intros Hf Hpb Hv H. subst next. cbv beta.
  rewrite length_encode_field by assumption.
  destruct (read_field_tag _ _ _ Hpb H) as (t & T & Hn & Ht & H2).
  unfold Parse_turn. rewrite T, Hn, Ht. clear T Hn Ht t H.
  destruct f as [|v|v|v| |v| | |]; try contradiction;
    cbn [negb Wire.field_number Wire.wire_type Wire.encode_value Wire.describe
         Wire.in_range] in *;
    rewrite (ReadVarint64_varint _ _ H2);
    unfold WIRETYPE_VARINT, WIRETYPE_LENGTH_DELIMITED; dispatch Hpb;
    cbn [negb]; rewrite advance_advance; range Hv.
  - rewrite IntFacts.to_int32_to_uint64 by lia. reflexivity.
  - rewrite IntFacts.to_int32_to_uint64 by lia. reflexivity.
  - rewrite IntFacts.to_int64_to_uint64 by lia. reflexivity.
  - rewrite IntFacts.to_int64_to_uint64 by lia. reflexivity.
Qed.

End Scalar.


Lemma holds_length_delimited s body :
  Pb.bounded s -> Pb.holds s (Wire.length_delimited body) ->
  let n := length (Wire.varint (Z.of_nat (length body))) in
  Pb.ReadVarint64 s = Some (Z.of_nat (length body), Pb.advance n s)
  /\ Pb.holds (Pb.advance n s) body
  /\ 0 <= Z.of_nat (length body) <= Int.INT_MAX.
Proof.
  intros Hs H. pose proof (holds_INT_MAX _ _ Hs H) as Hmax.
  unfold Wire.length_delimited in *. apply holds_app in H. destruct H as [H1 H2].
  rewrite length_app in Hmax. cbv zeta.
  rewrite (ReadVarint64_varint _ _ H1).
  rewrite IntFacts.to_uint64_id by (unfold Int.INT_MAX in Hmax; lia).
  split; [reflexivity|]. split; [exact H2|lia].
Qed.

Lemma turn_Varname pb fw r s str :
  proto_ok pb = true -> Pb.sane s ->
  Pb.holds s (Wire.encode_field pb (Wire.Varname str)) ->
  Parse_turn pb fw r s
  = Some (Next (set_meta (set_varname str (meta_ r)) r)
               (Pb.advance (length (Wire.encode_field pb (Wire.Varname str))) s)).
Proof.
  intros Hpb Hs H. rewrite length_encode_field by assumption.
  destruct (read_field_tag _ _ _ Hpb H) as (t & T & Hn & Ht & H2).
  unfold Parse_turn. rewrite T, Hn, Ht. clear T Hn Ht t H.
  cbn [negb Wire.field_number Wire.wire_type Wire.encode_value] in *.
  destruct (holds_length_delimited _ _ (bounded_advance 1 _ (sane_bounded _ Hs)) H2) as (R & H3 & Hl).
  unfold Pb.ReadVarint32. rewrite R.
  unfold Int.INT_MAX in Hl.
  rewrite IntFacts.to_uint32_id by lia. rewrite IntFacts.to_int32_id by lia.
  unfold Pb.ReadString.
  destruct (Z.ltb_spec (Z.of_nat (length (list_byte_of_string str))) 0); [lia|].
  pose proof (holds_available _ _ H3) as Ha.
  destruct (Z.ltb_spec (Pb.available (Pb.advance
     (length (Wire.varint (Z.of_nat (length (list_byte_of_string str))))) (Pb.advance 1 s)))
     (Z.of_nat (length (list_byte_of_string str)))); [lia|].
  rewrite Nat2Z.id. destruct H3 as [[tl E] _]. rewrite E, take_app_length.
  rewrite string_of_list_byte_of_string.
  unfold WIRETYPE_VARINT, WIRETYPE_LENGTH_DELIMITED. dispatch Hpb. cbn [negb].
  rewrite !advance_advance. unfold Wire.length_delimited. rewrite length_app.
  do 3 f_equal; lia.
Qed.

(** A packed block whose values fit one byte each: the loop reads them all. *)
Lemma length_packed_body vs :
  forallb Wire.one_byte vs = true -> length (concat (map Wire.varint vs)) = length vs.
Proof.
  induction vs as [|v vs IH]; simpl; [reflexivity|].
  rewrite andb_true_iff. intros [Hv Hvs]. range Hv.
  rewrite varint_one_byte by lia. simpl. rewrite IH by assumption. reflexivity.
Qed.

Lemma read_packed_one_byte vs : forall fuel i len s out,
  forallb Wire.one_byte vs = true ->
  Pb.holds s (concat (map Wire.varint vs)) ->
  len = i + Z.of_nat (length vs) -> (length vs < fuel)%nat ->
  read_packed fuel i len s out = Some (true, out ++ vs, Pb.advance (length vs) s).
Proof.
  induction vs as [|v vs IH]; intros fuel i len s out Hv H Hl Hf.
  - destruct fuel; [simpl in Hf; lia|]. cbn [read_packed].
    simpl in Hl. destruct (Z.ltb_spec i len); [lia|].
    rewrite app_nil_r, advance_0. reflexivity.
  - destruct fuel; [simpl in Hf; lia|]. cbn [read_packed].
    cbn [length] in *. destruct (Z.ltb_spec i len); [|lia].
    cbn [forallb] in Hv. apply andb_true_iff in Hv. destruct Hv as [Hv Hvs].
    cbn [map concat] in H. apply holds_app in H. destruct H as [H1 H2].
    rewrite (ReadVarint64_varint _ _ H1). range Hv.
    rewrite varint_one_byte in * by lia. cbn [length] in *.
    rewrite IntFacts.to_int64_to_uint64 by lia.
    rewrite (IH fuel (i + 1) len (Pb.advance 1 s) (out ++ [v])); try assumption; try lia.
    rewrite advance_advance, <- app_assoc. reflexivity.
Qed.

Lemma Pb_ReadVarintSizeAsInt_length s body :
  Pb.bounded s -> Pb.holds s (Wire.length_delimited body) ->
  let n := length (Wire.varint (Z.of_nat (length body))) in
  Pb.ReadVarintSizeAsInt s = Some (Z.of_nat (length body), Pb.advance n s)
  /\ Pb.holds (Pb.advance n s) body.
Proof.
  intros Hs H. destruct (holds_length_delimited _ _ Hs H) as (R & H2 & Hl).
  cbv zeta. unfold Pb.ReadVarintSizeAsInt. rewrite R.
  destruct (Z.leb_spec (Z.of_nat (length body)) Int.INT_MAX); [|lia]. auto.
Qed.

Lemma ReadVarintSizeAsInt_length s body :
  Pb.bounded s -> Pb.holds s (Wire.length_delimited body) ->
  let n := length (Wire.varint (Z.of_nat (length body))) in
  ReadVarintSizeAsInt s = Some (Z.of_nat (length body), Pb.advance n s)
  /\ Pb.holds (Pb.advance n s) body.
Proof.
  intros Hs H. destruct (holds_length_delimited _ _ Hs H) as (R & H2 & Hl).
  cbv zeta. unfold ReadVarintSizeAsInt. rewrite R.
  change (Int.to_uint64 Int.INT_MAX) with Int.INT_MAX.
  destruct (Z.leb_spec (Z.of_nat (length body)) Int.INT_MAX); [|lia].
  unfold Int.INT_MAX in Hl. rewrite IntFacts.to_int32_id by lia. auto.
Qed.

Lemma turn_DimsPacked pb fw r s vs :
  proto_ok pb = true -> Pb.sane s -> forallb Wire.one_byte vs = true ->
  Pb.holds s (Wire.encode_field pb (Wire.DimsPacked vs)) ->
  Parse_turn pb fw r s
  = Some (Next (set_meta (set_dims (dims (meta_ r) ++ vs) (meta_ r)) r)
               (Pb.advance (length (Wire.encode_field pb (Wire.DimsPacked vs))) s)).
Proof.
  intros Hpb Hs Hv H. rewrite length_encode_field by assumption.
  destruct (read_field_tag _ _ _ Hpb H) as (t & T & Hn & Ht & H2).
  unfold Parse_turn. rewrite T, Hn, Ht. clear T Hn Ht t H.
  cbn [negb Wire.field_number Wire.wire_type Wire.encode_value] in *.
  unfold Wire.packed in *.
  destruct (Pb_ReadVarintSizeAsInt_length _ _ (bounded_advance 1 _ (sane_bounded _ Hs)) H2) as (R & H3).
  rewrite R. pose proof (length_packed_body vs Hv) as Hl.
  rewrite (read_packed_one_byte vs _ 0 _ _ (dims (meta_ r)) Hv H3).
  - unfold WIRETYPE_VARINT, WIRETYPE_LENGTH_DELIMITED. dispatch Hpb.
    rewrite !advance_advance. unfold Wire.length_delimited. rewrite length_app.
    do 3 f_equal; lia.
  - lia.
  - unfold loop_fuel. pose proof (holds_length _ _ H3). lia.
Qed.



(** [ParseLodData] on the entries of a level, the limit being at their end:
    every value is pushed back, and the tag that is not there any more ends
    the sub-message legitimately. *)
Lemma small_lod_data pb : proto_ok pb = true -> small_field (kLodDataFieldNumber pb) = true.
Proof.
  intros Hpb. unfold proto_ok in Hpb. cbn [forallb] in Hpb.
  repeat rewrite andb_true_iff in Hpb. tauto.
Qed.

Lemma wire_type_ok wt :
  wt = WIRETYPE_VARINT \/ wt = WIRETYPE_LENGTH_DELIMITED -> 0 <= wt < 8.
Proof. intros [->| ->]; cbv; split; congruence. Qed.

Lemma ParseLodData_loop_entries pb es : forall fuel s out,
  proto_ok pb = true -> forallb Wire.entry_in_range es = true ->
  Pb.bounded s ->
  Pb.holds s (Wire.encode_entries pb es) ->
  Pb.position s + Z.of_nat (length (Wire.encode_entries pb es)) = Pb.current_limit s ->
  (length (Wire.encode_entries pb es) < fuel)%nat ->
  ParseLodData_loop pb fuel s out
  = Some (true, out ++ Wire.level es,
          Pb.with_message_end (Pb.advance (length (Wire.encode_entries pb es)) s)).
Proof.
  induction es as [|e es IH]; intros fuel s out Hpb Hv Hb H Hl Hf.
  - destruct fuel; [simpl in Hf; lia|]. cbn [ParseLodData_loop].
    simpl in Hl. rewrite ReadTagWithCutoff_end by (right; lia).
    cbn [negb]. change (GetTagFieldNumber 0 =? 0) with true.
    unfold Wire.level, Wire.encode_entries. cbn [map concat length].
    rewrite app_nil_r, advance_0. reflexivity.
  - destruct fuel; [simpl in Hf; lia|]. cbn [ParseLodData_loop].
    unfold Wire.encode_entries, Wire.level in *. cbn [map concat forallb] in *.
    apply andb_true_iff in Hv. destruct Hv as [Hv Hvs].
    rewrite length_app in *. apply holds_app in H. destruct H as [H1 H2].
    pose proof (small_lod_data pb Hpb) as Hsmall.
    destruct e as [v|vs]; cbn [Wire.encode_entry Wire.entry_in_range Wire.entry_values] in *.
    + apply holds_app in H1. destruct H1 as [Ht Hval].
      pose proof (wire_type_ok WIRETYPE_VARINT ltac:(auto)) as Hw.
      destruct (ReadTagWithCutoff_tag _ _ _ Hsmall Hw Ht) as (t & T & Hn & Hwt).
      rewrite T, Hn, Hwt. cbn [negb]. rewrite !Z.eqb_refl.
      rewrite length_app, length_tag in * by assumption.
      rewrite (ReadVarint64_varint _ _ Hval).
      range Hv. rewrite IntFacts.to_int64_to_uint64 by lia.
      rewrite advance_advance in *.
      rewrite IH; try assumption.
      * rewrite advance_advance, <- app_assoc. reflexivity.
      * apply bounded_advance, Hb.
      * cbn [Pb.position Pb.current_limit Pb.advance]. lia.
      * lia.
    + apply holds_app in H1. destruct H1 as [Ht Hval].
      pose proof (wire_type_ok WIRETYPE_LENGTH_DELIMITED ltac:(auto)) as Hw.
      destruct (ReadTagWithCutoff_tag _ _ _ Hsmall Hw Ht) as (t & T & Hn & Hwt).
      rewrite T, Hn, Hwt. cbn [negb]. rewrite Z.eqb_refl.
      change (WIRETYPE_LENGTH_DELIMITED =? WIRETYPE_VARINT) with false.
      rewrite Z.eqb_refl. cbv iota.
      rewrite length_app, length_tag in * by assumption.
      unfold Wire.packed in *.
      destruct (Pb_ReadVarintSizeAsInt_length _ _ (bounded_advance 1 _ Hb) Hval) as (R & H3).
      rewrite R. pose proof (length_packed_body vs Hv) as Hlen.
      rewrite (read_packed_one_byte vs _ 0 _ _ out Hv H3);
        [| lia | unfold loop_fuel; pose proof (holds_length _ _ H3); lia].
      unfold Wire.length_delimited in *. rewrite length_app in *.
      rewrite !advance_advance in *. rewrite Hlen in *.
      rewrite IH; try assumption.
      * rewrite advance_advance, <- app_assoc. do 3 f_equal; lia.
      * apply bounded_advance, Hb.
      * cbn [Pb.position Pb.current_limit Pb.advance]. lia.
      * lia.
Qed.


(** The turn of [Parse] on a [lod] field: the limit is pushed to the end of
    the sub-message, [ParseLodData] reads it to that end, and the level is
    added unless it is empty. *)
Lemma turn_Lod pb fw r s es :
  proto_ok pb = true -> Pb.sane s -> forallb Wire.entry_in_range es = true ->
  Pb.holds s (Wire.encode_field pb (Wire.Lod es)) ->
  Parse_turn pb fw r s
  = Some (Next (if Z.of_nat (length (Wire.level es)) =? 0 then r
                else set_meta (add_lod (Wire.level es) (meta_ r)) r)
               (Pb.advance (length (Wire.encode_field pb (Wire.Lod es))) s)).
Proof.
  intros Hpb Hs Hv H. rewrite length_encode_field by assumption.
  destruct (read_field_tag _ _ _ Hpb H) as (t & T & Hn & Ht & H2).
  unfold Parse_turn. rewrite T, Hn, Ht. clear T Hn Ht t H.
  cbn [negb Wire.field_number Wire.wire_type Wire.encode_value] in *.
  pose proof (bounded_advance 1 _ (sane_bounded _ Hs)) as Hb1.
  destruct (ReadVarintSizeAsInt_length _ _ Hb1 H2) as (R & H3).
  rewrite R. clear R.
  unfold WIRETYPE_VARINT, WIRETYPE_LENGTH_DELIMITED. dispatch Hpb. cbn [negb].
  set (body := Wire.encode_entries pb es) in *.
  set (n := length (Wire.varint (Z.of_nat (length body)))) in *.
  rewrite advance_advance in *.
  set (s2 := Pb.advance (1 + n) s) in *.
  assert (Hb2 : Pb.bounded s2) by (apply bounded_advance, sane_bounded, Hs).
  pose proof (holds_INT_MAX _ _ Hb2 H3) as Hmax.
  destruct Hs as (Hb & Hlegit & Hbudget).
  unfold Pb.IncrementRecursionDepthAndPushLimit, Pb.PushLimit.
  destruct H3 as [Htl Hlim]. destruct Hb2 as [Hp2 Hl2].
  destruct (Z.leb_spec 0 (Z.of_nat (length body))); [|lia].
  destruct (Z.leb_spec (Z.of_nat (length body)) (Int.INT_MAX - Pb.position s2)); [|lia].
  cbn [andb]. rewrite Z.min_l by lia.
  cbn [Pb.buffers Pb.position Pb.current_limit Pb.legitimate_message_end Pb.recursion_budget].
  match goal with |- context [ParseLodData pb ?x] => set (s3 := x) end.
  destruct (Z.ltb_spec (Pb.recursion_budget s2 - 1) 0);
    [subst s2; cbn [Pb.recursion_budget Pb.advance] in *; lia|].
  unfold ParseLodData.
  rewrite (ParseLodData_loop_entries pb es (loop_fuel s3) s3 [] Hpb Hv).
  - unfold Pb.DecrementRecursionDepthAndPopLimit.
    cbn [Pb.legitimate_message_end Pb.with_message_end negb app].
    match goal with |- (if _ then Some (Next _ ?a) else Some (Next _ ?a)) = Some (Next _ ?b) =>
      replace a with b end.
    + destruct (_ =? 0); reflexivity.
    + apply stream_eq; subst s3 s2; unfold Wire.length_delimited; fold n;
        cbn [Pb.buffers Pb.position Pb.current_limit Pb.legitimate_message_end
             Pb.recursion_budget Pb.with_message_end Pb.advance];
        rewrite ?length_app; fold body; fold n.
      * rewrite <- drop_bytes_add. f_equal; lia.
      * lia.
      * reflexivity.
      * exact Hlegit.
      * lia.
  - subst s3. split; cbn [Pb.position Pb.current_limit]; lia.
  - subst s3. split; [exact Htl|]. cbn [Pb.position Pb.current_limit]. fold body. lia.
  - subst s3. cbn [Pb.position Pb.current_limit]. reflexivity.
  - subst s3. unfold loop_fuel. destruct Htl as [tl E].
    change (Pb.rest {| Pb.buffers := Pb.buffers s2; Pb.position := _; Pb.current_limit := _;
                       Pb.legitimate_message_end := _; Pb.recursion_budget := _ |})
      with (Pb.rest s2).
    rewrite E, length_app. fold body. lia.
Qed.

Lemma set_meta_meta r : set_meta (meta_ r) r = r.
Proof. destruct r. reflexivity. Qed.

(** The turn of [Parse] on any metadata field. *)
Lemma turn_header pb fw r s f :
  proto_ok pb = true -> Pb.sane s ->
  Wire.is_header f = true -> Wire.in_range f = true ->
  Pb.holds s (Wire.encode_field pb f) ->
  Parse_turn pb fw r s
  = Some (Next (set_meta (Wire.accumulate f (meta_ r)) r)
               (Pb.advance (length (Wire.encode_field pb f)) s)).
Proof.
  intros Hpb Hs Hh Hv H. unfold Wire.accumulate.
  destruct f; try discriminate; cbn [Wire.no_empty_level].
  - apply turn_Varname; assumption.
  - apply (turn_scalar pb fw r s (Wire.Type_ v)); auto.
  - apply (turn_scalar pb fw r s (Wire.DataType v)); auto.
  - apply (turn_scalar pb fw r s (Wire.Dim v)); auto.
  - apply turn_DimsPacked; assumption.
  - apply (turn_scalar pb fw r s (Wire.LodLevel v)); auto.
  - rewrite (turn_Lod pb fw r s es Hpb Hs Hv H). cbn [Wire.describe].
    destruct (_ =? 0); cbn [negb]; [rewrite set_meta_meta|]; reflexivity.
Qed.

Lemma length_encode_cons pb f fs :
  length (Wire.encode pb (f :: fs))
  = (length (Wire.encode_field pb f) + length (Wire.encode pb fs))%nat.
Proof. unfold Wire.encode. cbn [map concat]. apply length_app. Qed.

(** The decoder on a run of metadata fields: it arrives at the head of its
    loop behind them with the metadata they accumulate. *)
Lemma run_header pb fw hs : forall r s,
  proto_ok pb = true -> Pb.sane s ->
  forallb Wire.is_header hs = true -> forallb Wire.in_range hs = true ->
  Pb.holds s (Wire.encode pb hs) ->
  loop_head pb fw r s
    (set_meta (Wire.accumulate_all hs (meta_ r)) r)
    (Pb.advance (length (Wire.encode pb hs)) s).
Proof.
  induction hs as [|f hs IH]; intros r s Hpb Hs Hh Hv H.
  - cbn. rewrite set_meta_meta, advance_0. constructor.
  - cbn [forallb] in Hh, Hv. apply andb_true_iff in Hh, Hv.
    destruct Hh as [Hf Hh], Hv as [Hvf Hv].
    rewrite length_encode_cons. unfold Wire.encode in H. cbn [map concat] in H.
    apply holds_app in H. destruct H as [H1 H2].
    eapply head_turn; [apply turn_header; eassumption|].
    rewrite <- advance_advance.
    apply (IH (set_meta (Wire.accumulate f (meta_ r)) r)); try assumption.
    apply sane_advance, Hs.
Qed.

End Fields.

(** ** The decoder on a payload *)

Module Payload.
Import PbFacts VarintFacts Fields.

Lemma GetDirectBufferPointer_within s data :
  Pb.GetDirectBufferPointer s = Some data ->
  Pb.position s + Z.of_nat (length data) <= Pb.current_limit s.
Proof.
  unfold Pb.GetDirectBufferPointer.
  destruct (Z.ltb_spec (Pb.position s) (Pb.current_limit s)) as [L|]; [|discriminate].
  destruct (Pb.skip_empty (Pb.buffers s)) as [|c bufs']; [discriminate|].
  intros [= <-]. rewrite length_take. lia.
Qed.

Lemma GetDirectBufferPointer_none s :
  Pb.GetDirectBufferPointer s = None ->
  Pb.rest s = [] \/ Pb.current_limit s <= Pb.position s.
Proof.
  unfold Pb.GetDirectBufferPointer.
  destruct (Z.ltb_spec (Pb.position s) (Pb.current_limit s)) as [L|]; [|auto].
  destruct (Pb.skip_empty (Pb.buffers s)) as [|c bufs'] eqn:E; [|discriminate].
  intros _. left. unfold Pb.rest. rewrite <- Progress.skip_empty_concat, E. reflexivity.
Qed.

(** The host loop of [ReadRaw] when the payload is all that the source still
    holds: every buffer is copied, and exactly [size] bytes are. *)
Lemma ReadRaw_cpu_loop_exact fuel : forall payload p s ctx,
  Pb.rest s = payload ->
  Pb.position s + Z.of_nat (length payload) <= Pb.current_limit s ->
  (length payload < fuel)%nat ->
  ReadRaw_cpu_loop fuel (Z.of_nat (length payload)) (p, s, ctx)
  = Some (true, (p ++ payload, Pb.advance (length payload) s, ctx)).
Proof.
  induction fuel as [|fuel IH]; intros payload p s ctx E L Hf; [lia|].
  cbn [ReadRaw_cpu_loop]. destruct (Z.ltb_spec 0 (Z.of_nat (length payload))) as [Hpos|Hz].
  - destruct (Pb.GetDirectBufferPointer s) as [data|] eqn:G.
    + destruct (Progress.GetDirectBufferPointer_some _ _ G) as (Hd & tl & E').
      assert (Ep : payload = data ++ tl) by congruence.
      rewrite Ep, length_app in *.
      replace (Z.of_nat (length data + length tl) - Z.of_nat (length data))
        with (Z.of_nat (length tl)) by lia.
      unfold Pb.Skip. rewrite Nat2Z.id. rewrite IH.
      * rewrite advance_advance, <- app_assoc. reflexivity.
      * rewrite rest_advance, E'. apply drop_app_length.
      * cbn [Pb.position Pb.current_limit Pb.advance]. lia.
      * lia.
    + apply GetDirectBufferPointer_none in G. destruct G as [G|G]; [|lia].
      rewrite G in E. subst payload. simpl in Hpos. lia.
  - destruct payload; [|simpl in Hz; lia].
    rewrite app_nil_r, advance_0. reflexivity.
Qed.

(** The device loop on the same stream: the same bytes, each copy being a
    transfer issued on the stream of the context. *)
Lemma ReadRaw_gpu_loop_exact fuel : forall payload p s ctx,
  Pb.rest s = payload ->
  Pb.position s + Z.of_nat (length payload) <= Pb.current_limit s ->
  (length payload < fuel)%nat ->
  exists fl,
    ReadRaw_gpu_loop fuel (Z.of_nat (length payload)) (p, s, ctx)
    = Some (true, (p ++ payload, Pb.advance (length payload) s,
                   {| GetPlace := GetPlace ctx; in_flight := fl |})).
Proof.
  induction fuel as [|fuel IH]; intros payload p s ctx E L Hf; [lia|].
  cbn [ReadRaw_gpu_loop]. destruct (Z.ltb_spec 0 (Z.of_nat (length payload))) as [Hpos|Hz].
  - destruct (Pb.GetDirectBufferPointer s) as [data|] eqn:G.
    + destruct (Progress.GetDirectBufferPointer_some _ _ G) as (Hd & tl & E').
      assert (Ep : payload = data ++ tl) by congruence.
      rewrite Ep, length_app in *.
      replace (Z.of_nat (length data + length tl) - Z.of_nat (length data))
        with (Z.of_nat (length tl)) by lia.
      unfold Pb.Skip. rewrite Nat2Z.id.
      destruct (IH tl (p ++ data) (Pb.advance (length data) s) (Copy_async data ctx))
        as [fl Hfl].
      * rewrite rest_advance, E'. apply drop_app_length.
      * cbn [Pb.position Pb.current_limit Pb.advance]. lia.
      * lia.
      * exists fl. rewrite Hfl, advance_advance, <- app_assoc. reflexivity.
    + apply GetDirectBufferPointer_none in G. destruct G as [G|G]; [|lia].
      rewrite G in E. subst payload. simpl in Hpos. lia.
  - destruct payload; [|simpl in Hz; lia].
    exists (in_flight ctx). rewrite app_nil_r, advance_0. destruct ctx; reflexivity.
Qed.

(** When the source holds fewer bytes than [size], the loops give up. *)
Lemma ReadRaw_cpu_loop_short fuel : forall size p s ctx,
  Z.of_nat (length (Pb.rest s)) < size -> (length (Pb.rest s) < fuel)%nat ->
  exists st, ReadRaw_cpu_loop fuel size (p, s, ctx) = Some (false, st).
Proof.
  induction fuel as [|fuel IH]; intros size p s ctx Hs Hf; [lia|].
  cbn [ReadRaw_cpu_loop]. destruct (Z.ltb_spec 0 size); [|lia].
  destruct (Pb.GetDirectBufferPointer s) as [data|] eqn:G; [|eauto].
  destruct (Progress.GetDirectBufferPointer_some _ _ G) as (Hd & tl & E').
  pose proof (Progress.Skip_length _ _ _ E') as HS. rewrite E', length_app in *.
  apply IH; lia.
Qed.

Lemma ReadRaw_gpu_loop_short fuel : forall size p s ctx,
  Z.of_nat (length (Pb.rest s)) < size -> (length (Pb.rest s) < fuel)%nat ->
  exists st, ReadRaw_gpu_loop fuel size (p, s, ctx) = Some (false, st).
Proof.
  induction fuel as [|fuel IH]; intros size p s ctx Hs Hf; [lia|].
  cbn [ReadRaw_gpu_loop]. destruct (Z.ltb_spec 0 size); [|lia].
  destruct (Pb.GetDirectBufferPointer s) as [data|] eqn:G; [|eauto].
  destruct (Progress.GetDirectBufferPointer_some _ _ G) as (Hd & tl & E').
  pose proof (Progress.Skip_length _ _ _ E') as HS. rewrite E', length_app in *.
  apply IH; lia.
Qed.

(** [ReadRaw] on a payload that is all the source still holds. *)
Lemma Skip_advance (data : list byte) s :
  Pb.Skip (Z.of_nat (length data)) s = Pb.advance (length data) s.
Proof. unfold Pb.Skip. rewrite Nat2Z.id. reflexivity. Qed.

(** What a copy loop of [ReadRaw] has written is what it has consumed. *)
Lemma ReadRaw_cpu_loop_bytes fuel : forall size p s ctx ok p' s' ctx',
  ReadRaw_cpu_loop fuel size (p, s, ctx) = Some (ok, (p', s', ctx')) ->
  exists q, p' = p ++ q /\ Pb.rest s = q ++ Pb.rest s'
            /\ s' = Pb.advance (length q) s
            /\ (if ok then size <= Z.of_nat (length q) else Z.of_nat (length q) < size)
            /\ (size <= 0 -> q = []).
Proof.
  induction fuel as [|fuel IH]; intros size p s ctx ok p' s' ctx'; cbn [ReadRaw_cpu_loop];
    destruct (Z.ltb_spec 0 size) as [L|L]; try discriminate.
  1,3: intros [= <- <- <- <-]; exists []; rewrite app_nil_r, advance_0; cbn;
       repeat split; auto; lia.
  destruct (Pb.GetDirectBufferPointer s) as [data|] eqn:G.
  - destruct (Progress.GetDirectBufferPointer_some _ _ G) as [Hd [tl Htl]].
    rewrite Skip_advance. intros H.
    destruct (IH _ _ _ _ _ _ _ _ H) as (q & -> & Hr & -> & Hok & _).
    exists (data ++ q). rewrite rest_advance, Htl, drop_app_length in Hr.
    rewrite advance_advance, length_app, <- app_assoc, Htl, Hr, <- app_assoc.
    repeat split; auto; [rewrite advance_advance; reflexivity| |lia].
    destruct ok; lia.
  - intros [= <- <- <- <-]. exists []. rewrite app_nil_r, advance_0. cbn.
    repeat split; auto; lia.
Qed.

Lemma ReadRaw_gpu_loop_bytes fuel : forall size p s ctx ok p' s' ctx',
  ReadRaw_gpu_loop fuel size (p, s, ctx) = Some (ok, (p', s', ctx')) ->
  exists q, p' = p ++ q /\ Pb.rest s = q ++ Pb.rest s'
            /\ s' = Pb.advance (length q) s
            /\ (if ok then size <= Z.of_nat (length q) else Z.of_nat (length q) < size)
            /\ (size <= 0 -> q = []).
Proof.
  induction fuel as [|fuel IH]; intros size p s ctx ok p' s' ctx'; cbn [ReadRaw_gpu_loop];
    destruct (Z.ltb_spec 0 size) as [L|L]; try discriminate.
  1,3: intros [= <- <- <- <-]; exists []; rewrite app_nil_r, advance_0; cbn;
       repeat split; auto; lia.
  destruct (Pb.GetDirectBufferPointer s) as [data|] eqn:G.
  - destruct (Progress.GetDirectBufferPointer_some _ _ G) as [Hd [tl Htl]].
    rewrite Skip_advance. intros H.
    destruct (IH _ _ _ _ _ _ _ _ H) as (q & -> & Hr & -> & Hok & _).
    exists (data ++ q). rewrite rest_advance, Htl, drop_app_length in Hr.
    rewrite advance_advance, length_app, <- app_assoc, Htl, Hr, <- app_assoc.
    repeat split; auto; [rewrite advance_advance; reflexivity| |lia].
    destruct ok; lia.
  - intros [= <- <- <- <-]. exists []. rewrite app_nil_r, advance_0. cbn.
    repeat split; auto; lia.
Qed.

(** What [ReadRaw] has written is what it has consumed; it returns true
    exactly when that is at least [size] bytes. *)
Lemma ReadRaw_bytes fw input ctx place size ok p input' ctx' :
  ReadRaw fw input ctx place size = Some (RawReturn ok (p, input', ctx')) ->
  Pb.rest input = p ++ Pb.rest input'
  /\ input' = Pb.advance (length p) input
  /\ (ok = true <-> size <= Z.of_nat (length p))
  /\ (size <= 0 -> p = []).
Proof.
  unfold ReadRaw. intros H.
  assert (exists c, (ReadRaw_cpu_loop (loop_fuel input) size ([], input, ctx) = Some (ok, (p, input', c))
                     \/ ReadRaw_gpu_loop (loop_fuel input) size ([], input, ctx) = Some (ok, (p, input', c)))) as [c Hc].
  { destruct (is_gpu_place place).
    - destruct (PADDLE_WITH_CUDA fw); [|discriminate].
      destruct (ReadRaw_gpu_loop _ _ _) as [[[] [[p1 i1] c1]]|]; try discriminate;
        injection H as <- <- <- <-; eauto.
    - destruct (ReadRaw_cpu_loop _ _ _) as [[ok1 [[p1 i1] c1]]|]; try discriminate.
      injection H as <- <- <- <-; eauto. }
  assert (exists q, p = [] ++ q /\ Pb.rest input = q ++ Pb.rest input'
            /\ input' = Pb.advance (length q) input
            /\ (if ok then size <= Z.of_nat (length q) else Z.of_nat (length q) < size)
            /\ (size <= 0 -> q = [])) as (q & -> & Hr & Ha & Hok & Hz).
  { destruct Hc as [Hc|Hc]; [eapply ReadRaw_cpu_loop_bytes|eapply ReadRaw_gpu_loop_bytes]; eauto. }
  cbn [app]. repeat split; auto.
  - intros ->. exact Hok.
  - destruct ok; [reflexivity|lia].
Qed.

Lemma ReadRaw_exact fw s ctx place payload :
  Pb.rest s = payload ->
  Pb.position s + Z.of_nat (length payload) <= Pb.current_limit s ->
  (is_gpu_place place = true -> PADDLE_WITH_CUDA fw = true) ->
  exists ctx',
    ReadRaw fw s ctx place (Z.of_nat (length payload))
    = Some (RawReturn true (payload, Pb.advance (length payload) s, ctx'))
    /\ GetPlace ctx' = GetPlace ctx
    /\ (in_flight ctx = [] -> in_flight ctx' = []).
Proof.
  intros E L Hg. unfold ReadRaw. destruct (is_gpu_place place).
  - rewrite Hg by reflexivity.
    destruct (ReadRaw_gpu_loop_exact (loop_fuel s) payload [] s ctx E L) as [fl ->];
      [unfold loop_fuel; rewrite E; lia|].
    eexists. split; [reflexivity|]. split; reflexivity.
  - rewrite (ReadRaw_cpu_loop_exact (loop_fuel s) payload [] s ctx E L)
      by (unfold loop_fuel; rewrite E; lia).
    exists ctx. auto.
Qed.

(** [ReadRaw] on a payload that the source does not hold to its end. *)
Lemma ReadRaw_short fw s ctx place size :
  Z.of_nat (length (Pb.rest s)) < size ->
  (exists st, ReadRaw fw s ctx place size = Some (RawReturn false st))
  \/ (exists what, ReadRaw fw s ctx place size = Some (RawThrow what)).
Proof.
  intros Hs. unfold ReadRaw. destruct (is_gpu_place place).
  - destruct (PADDLE_WITH_CUDA fw); [|right; eauto].
    destruct (ReadRaw_gpu_loop_short (loop_fuel s) size [] s ctx Hs) as [st ->];
      [unfold loop_fuel; lia|]. left. eauto.
  - destruct (ReadRaw_cpu_loop_short (loop_fuel s) size [] s ctx Hs) as [st ->];
      [unfold loop_fuel; lia|]. left. eauto.
Qed.

Lemma copy_lod_some n : forall i m out,
  (i + n <= length (lod m))%nat -> exists l, copy_lod n i m out = Some l.
Proof.
  induction n as [|n IH]; intros i m out H; cbn [copy_lod]; [eauto|].
  destruct (lookup_lt_is_Some_2 (lod m) i ltac:(lia)) as [l ->].
  apply IH. lia.
Qed.

Lemma proto_kinds pb :
  proto_ok pb = true -> (LOD_TENSOR pb =? SELECTED_ROWS pb) = false.
Proof.
  unfold proto_ok. rewrite !andb_true_iff, negb_true_iff. tauto.
Qed.

Lemma turn_end pb fw r s :
  Pb.rest s = [] -> Parse_turn pb fw r s = Some (Stop (Returned 0) r).
Proof.
  intros E. unfold Parse_turn. rewrite ReadTagWithCutoff_end by auto. reflexivity.
Qed.

Lemma turn_Serialized_last pb fw r s payload var d ti :
  proto_ok pb = true -> Pb.sane s ->
  Pb.rest s = Wire.encode_field pb (Wire.Serialized payload) ->
  Pb.position s + Z.of_nat (length (Pb.rest s)) <= Pb.current_limit s ->
  meta_info_got pb (meta_ r) = true ->
  GetDims fw (dims (meta_ r)) = Some d ->
  scope_ r !! varname (meta_ r) = Some var ->
  ToTypeIndex fw (data_type (meta_ r)) = Some ti ->
  mutable_data_ok fw d ti = true ->
  Z.of_nat (length payload) <= memory_size fw d ti ->
  (type (meta_ r) = LOD_TENSOR pb ->
   (Z.to_nat (lod_level (meta_ r)) <= length (lod (meta_ r)))%nat) ->
  (is_gpu_place (GetPlace (dev_ctx_ r)) = true -> PADDLE_WITH_CUDA fw = true) ->
  exists r',
    Parse_turn pb fw r s = Some (Next r' (Pb.advance (length (Pb.rest s)) s))
    /\ meta_ r' = meta_ r
    /\ destination r'
       = Some {| dims_ := d; place_ := GetPlace (dev_ctx_ r); type_ := Some ti;
                 data_ := payload |}
    /\ (in_flight (dev_ctx_ r) = [] -> in_flight (dev_ctx_ r') = []).
Proof.
  intros Hpb Hs E L Hmeta Hd Hvar Hti Hmd Hroom Hlod Hgpu.
  assert (Hfits : fits payload (memory_size fw d ti) = true)
    by (apply Z.leb_le; exact Hroom).
  assert (H : Pb.holds s (Wire.encode_field pb (Wire.Serialized payload))).
  { split; [exists []; rewrite app_nil_r; exact E | rewrite <- E; exact L]. }
  rewrite E. rewrite length_encode_field by assumption.
  destruct (read_field_tag _ _ _ Hpb H) as (t & T & Hn & Ht & H2).
  unfold Parse_turn. rewrite T, Hn, Ht. clear T Hn Ht t.
  cbn [negb Wire.field_number Wire.wire_type Wire.encode_value] in *.
  pose proof (bounded_advance 1 _ (sane_bounded _ Hs)) as Hb1.
  destruct (ReadVarintSizeAsInt_length _ _ Hb1 H2) as (R & H3).
  rewrite R, Hmeta, Hd. clear R.
  unfold WIRETYPE_VARINT, WIRETYPE_LENGTH_DELIMITED. dispatch Hpb. cbn [negb].
  rewrite advance_advance in *.
  set (n := length (Wire.varint (Z.of_nat (length payload)))) in *.
  set (s2 := Pb.advance (1 + n) s) in *.
  assert (E2 : Pb.rest s2 = payload).
  { subst s2. rewrite rest_advance, E. unfold Wire.encode_field, Wire.encode_value.
    unfold Wire.length_delimited. rewrite app_assoc.
    replace (1 + n)%nat with (length (Wire.tag (Wire.field_number pb (Wire.Serialized payload))
                                 (Wire.wire_type (Wire.Serialized payload))
                               ++ Wire.varint (Z.of_nat (length payload)))).
    - apply drop_app_length.
    - rewrite length_app, length_tag; [reflexivity|apply small_field_number, Hpb|
        apply wire_type_bounds]. }
  assert (L2 : Pb.position s2 + Z.of_nat (length payload) <= Pb.current_limit s2)
    by (destruct H3; assumption).
  destruct (ReadRaw_exact fw s2 (dev_ctx_ r) (GetPlace (dev_ctx_ r)) payload E2 L2 Hgpu)
    as (ctx' & RR & Hplace & Hfl).
  assert (Eadv : Pb.advance (length payload) s2
                 = Pb.advance (S (length (Wire.encode_value pb (Wire.Serialized payload)))) s).
  { subst s2. rewrite advance_advance. f_equal. cbn [Wire.encode_value].
    unfold Wire.length_delimited. rewrite length_app. fold n. lia. }
  unfold meta_info_got in Hmeta. apply andb_true_iff in Hmeta. destruct Hmeta as [Hkind Hname].
  apply orb_true_iff in Hkind.
  destruct (Z.eqb_spec (type (meta_ r)) (LOD_TENSOR pb)) as [Hk|Hk].
  - destruct (copy_lod_some (Z.to_nat (lod_level (meta_ r))) 0 (meta_ r) [] (Hlod Hk)) as [l Hl].
    unfold CopyLodTensorData. rewrite Hvar, Hl, Hti, Hmd, RR, Hfits. cbn [after_copy].
    eexists. split; [rewrite Eadv; reflexivity|].
    split; [reflexivity|]. split; [|exact Hfl].
    unfold destination. cbn [scope_ meta_ set_dev_ctx store].
    rewrite lookup_insert_eq. reflexivity.
  - destruct Hkind as [Hk'|Hk']; [|discriminate].
    rewrite Hk'.
    unfold CopySelectRowsTensorData. rewrite Hvar, Hti, Hmd, RR, Hfits. cbn [after_copy].
    eexists. split; [rewrite Eadv; reflexivity|].
    split; [reflexivity|]. split; [|exact Hfl].
    unfold destination. cbn [scope_ meta_ set_dev_ctx store].
    rewrite lookup_insert_eq. reflexivity.
Qed.

Lemma encode_app pb fs gs : Wire.encode pb (fs ++ gs) = Wire.encode pb fs ++ Wire.encode pb gs.
Proof. unfold Wire.encode. rewrite map_app, concat_app. reflexivity. Qed.

Lemma encode_single pb f : Wire.encode pb [f] = Wire.encode_field pb f.
Proof. unfold Wire.encode. cbn. apply app_nil_r. Qed.

Lemma accumulate_all_describe hs : forall m,
  forallb Wire.no_empty_level hs = true ->
  Wire.accumulate_all hs m = Wire.describe_all hs m.
Proof.
  induction hs as [|f hs IH]; intros m H; [reflexivity|].
  cbn [forallb] in H. apply andb_true_iff in H. destruct H as [Hf H].
  unfold Wire.accumulate_all, Wire.describe_all in *. cbn [fold_left].
  unfold Wire.accumulate at 2. rewrite Hf. apply IH, H.
Qed.

Lemma meta_info_got_iff pb m :
  meta_info_got pb m = true
  <-> (type m = SELECTED_ROWS pb \/ type m = LOD_TENSOR pb) /\ varname m <> EmptyString.
Proof.
  unfold meta_info_got. rewrite andb_true_iff, orb_true_iff, negb_true_iff.
  rewrite !Z.eqb_eq, String.eqb_neq. reflexivity.
Qed.

Lemma rest_open source : Pb.rest (Pb.open source) = concat source.
Proof. reflexivity. Qed.

(** A message made of metadata fields and one payload field at its end. *)
Lemma Parse_header_payload pb fw r source hs payload var d ti :
  proto_ok pb = true ->
  forallb Wire.is_header hs = true -> forallb Wire.in_range hs = true ->
  concat source = Wire.encode pb (hs ++ [Wire.Serialized payload]) ->
  Z.of_nat (length (concat source)) <= Int.INT_MAX ->
  let m := Wire.accumulate_all hs (meta_ r) in
  meta_info_got pb m = true ->
  GetDims fw (dims m) = Some d ->
  scope_ r !! varname m = Some var ->
  ToTypeIndex fw (data_type m) = Some ti ->
  mutable_data_ok fw d ti = true ->
  Z.of_nat (length payload) <= memory_size fw d ti ->
  (type m = LOD_TENSOR pb -> lod_level m <= Z.of_nat (length (lod m))) ->
  (is_gpu_place (GetPlace (dev_ctx_ r)) = true -> PADDLE_WITH_CUDA fw = true) ->
  exists r',
    Parse pb fw r source = Some (Returned 0, r')
    /\ meta_ r' = m
    /\ destination r'
       = Some {| dims_ := d; place_ := GetPlace (dev_ctx_ r); type_ := Some ti;
                 data_ := payload |}
    /\ (in_flight (dev_ctx_ r) = [] -> in_flight (dev_ctx_ r') = []).
Proof.
  intros Hpb Hh Hv Hsrc Hmax m Hmeta Hd Hvar Hti Hmd Hroom Hlod Hgpu.
  set (s0 := Pb.open source).
  assert (Hs0 : Pb.sane s0) by apply sane_open.
  rewrite encode_app, encode_single in Hsrc.
  assert (H0 : Pb.holds s0 (Wire.encode pb hs)).
  { split; [exists (Wire.encode_field pb (Wire.Serialized payload)); exact Hsrc|].
    rewrite Hsrc, length_app in Hmax. subst s0. cbn [Pb.position Pb.current_limit Pb.open]. lia. }
  pose proof (run_header pb fw hs r s0 Hpb Hs0 Hh Hv H0) as Hrun. fold m in Hrun.
  set (r1 := set_meta m r) in *.
  set (s1 := Pb.advance (length (Wire.encode pb hs)) s0) in *.
  assert (E1 : Pb.rest s1 = Wire.encode_field pb (Wire.Serialized payload)).
  { subst s1. rewrite rest_advance. subst s0. rewrite rest_open, Hsrc. apply drop_app_length. }
  assert (L1 : Pb.position s1 + Z.of_nat (length (Pb.rest s1)) <= Pb.current_limit s1).
  { rewrite E1. subst s1 s0. cbn [Pb.position Pb.current_limit Pb.advance Pb.open].
    rewrite Hsrc, length_app in Hmax. lia. }
  destruct (turn_Serialized_last pb fw r1 s1 payload var d ti Hpb
              (sane_advance _ _ Hs0) E1 L1 Hmeta Hd Hvar Hti Hmd Hroom)
    as (r2 & T & Hm2 & Hdest & Hfl).
  { intros Hk. specialize (Hlod Hk). subst r1. cbn [meta_ set_meta]. lia. }
  { exact Hgpu. }
  exists r2. split; [|auto].
  eapply Progress.Parse_head.
  - eapply Progress.loop_head_trans; [exact Hrun|].
    eapply head_turn; [exact T|]. constructor.
  - apply turn_end. rewrite rest_advance. apply drop_all.
Qed.

(** [CopySelectRowsData] on a stream that ends with the bytes of the rows:
    they are copied on the host to the start of the rows of the variable,
    when these have room for them. *)
Lemma CopySelectRowsData_exact fw r input payload var :
  scope_ r !! varname (meta_ r) = Some var ->
  Pb.rest input = payload ->
  Pb.position input + Z.of_nat (length payload) <= Pb.current_limit input ->
  CopySelectRowsData fw r input (Z.of_nat (length payload))
  = Some (if fits payload (Z.of_nat (length (rows_data_ (GetMutable_SelectedRows var))))
          then CopyReturn true
                 (store (varname (meta_ r))
                    (HoldsSelectedRows (write_rows payload (GetMutable_SelectedRows var))) r)
                 (Pb.advance (length payload) input)
          else CopyStop BufferOverrun
                 (store (varname (meta_ r))
                    (HoldsSelectedRows (GetMutable_SelectedRows var)) r)).
Proof.
  intros Hvar Hrest Hlim. unfold CopySelectRowsData. rewrite Hvar.
  unfold ReadRaw. cbn [is_gpu_place].
  rewrite (ReadRaw_cpu_loop_exact (loop_fuel input) payload [] input (dev_ctx_ r) Hrest Hlim)
    by (unfold loop_fuel; rewrite Hrest; lia).
  cbn [app]. destruct (fits payload _); reflexivity.
Qed.

Lemma turn_Rows_last pb fw r s payload var :
  proto_ok pb = true -> Pb.sane s ->
  Pb.rest s = Wire.encode_field pb (Wire.Rows payload) ->
  Pb.position s + Z.of_nat (length (Pb.rest s)) <= Pb.current_limit s ->
  meta_info_got pb (meta_ r) = true ->
  scope_ r !! varname (meta_ r) = Some var ->
  Parse_turn pb fw r s
  = Some (if fits payload (Z.of_nat (length (rows_data_ (GetMutable_SelectedRows var))))
          then Next (store (varname (meta_ r))
                       (HoldsSelectedRows (write_rows payload (GetMutable_SelectedRows var))) r)
                    (Pb.advance (length (Pb.rest s)) s)
          else Stop BufferOverrun
                 (store (varname (meta_ r))
                    (HoldsSelectedRows (GetMutable_SelectedRows var)) r)).
Proof.
  intros Hpb Hs E L Hmeta Hvar.
  assert (H : Pb.holds s (Wire.encode_field pb (Wire.Rows payload))).
  { split; [exists []; rewrite app_nil_r; exact E | rewrite <- E; exact L]. }
  rewrite E. rewrite length_encode_field by assumption.
  destruct (read_field_tag _ _ _ Hpb H) as (t & T & Hn & Ht & H2).
  unfold Parse_turn. rewrite T, Hn, Ht. clear T Hn Ht t.
  cbn [negb Wire.field_number Wire.wire_type Wire.encode_value] in *.
  pose proof (bounded_advance 1 _ (sane_bounded _ Hs)) as Hb1.
  destruct (ReadVarintSizeAsInt_length _ _ Hb1 H2) as (R & H3).
  rewrite R, Hmeta. clear R.
  unfold WIRETYPE_VARINT, WIRETYPE_LENGTH_DELIMITED. dispatch Hpb. cbn [negb].
  rewrite advance_advance in *.
  set (n := length (Wire.varint (Z.of_nat (length payload)))) in *.
  set (s2 := Pb.advance (1 + n) s) in *.
  assert (E2 : Pb.rest s2 = payload).
  { subst s2. rewrite rest_advance, E. unfold Wire.encode_field, Wire.encode_value.
    unfold Wire.length_delimited. rewrite app_assoc.
    replace (1 + n)%nat with (length (Wire.tag (Wire.field_number pb (Wire.Rows payload))
                                 (Wire.wire_type (Wire.Rows payload))
                               ++ Wire.varint (Z.of_nat (length payload)))).
    - apply drop_app_length.
    - rewrite length_app, length_tag; [reflexivity|apply small_field_number, Hpb|
        apply wire_type_bounds]. }
  assert (L2 : Pb.position s2 + Z.of_nat (length payload) <= Pb.current_limit s2)
    by (destruct H3; assumption).
  rewrite (CopySelectRowsData_exact fw r s2 payload var Hvar E2 L2).
  destruct (fits payload _); cbn [after_copy]; [|reflexivity].
  do 2 f_equal. subst s2. rewrite advance_advance. f_equal. cbn [Wire.encode_value].
  unfold Wire.length_delimited. rewrite length_app. fold n. lia.
Qed.

(** A message made of metadata fields and the [rows] field at its end. *)
Lemma Parse_header_rows pb fw r source hs payload var :
  proto_ok pb = true ->
  forallb Wire.is_header hs = true -> forallb Wire.in_range hs = true ->
  concat source = Wire.encode pb (hs ++ [Wire.Rows payload]) ->
  Z.of_nat (length (concat source)) <= Int.INT_MAX ->
  let m := Wire.accumulate_all hs (meta_ r) in
  meta_info_got pb m = true ->
  scope_ r !! varname m = Some var ->
  Parse pb fw r source
  = Some (if fits payload (Z.of_nat (length (rows_data_ (GetMutable_SelectedRows var))))
          then (Returned 0,
                store (varname m)
                  (HoldsSelectedRows (write_rows payload (GetMutable_SelectedRows var)))
                  (set_meta m r))
          else (BufferOverrun,
                store (varname m) (HoldsSelectedRows (GetMutable_SelectedRows var))
                  (set_meta m r))).
Proof.
  intros Hpb Hh Hv Hsrc Hmax m Hmeta Hvar.
  set (s0 := Pb.open source).
  assert (Hs0 : Pb.sane s0) by apply sane_open.
  rewrite encode_app, encode_single in Hsrc.
  assert (H0 : Pb.holds s0 (Wire.encode pb hs)).
  { split; [exists (Wire.encode_field pb (Wire.Rows payload)); exact Hsrc|].
    rewrite Hsrc, length_app in Hmax. subst s0. cbn [Pb.position Pb.current_limit Pb.open]. lia. }
  pose proof (run_header pb fw hs r s0 Hpb Hs0 Hh Hv H0) as Hrun. fold m in Hrun.
  set (r1 := set_meta m r) in *.
  set (s1 := Pb.advance (length (Wire.encode pb hs)) s0) in *.
  assert (E1 : Pb.rest s1 = Wire.encode_field pb (Wire.Rows payload)).
  { subst s1. rewrite rest_advance. subst s0. rewrite rest_open, Hsrc. apply drop_app_length. }
  assert (L1 : Pb.position s1 + Z.of_nat (length (Pb.rest s1)) <= Pb.current_limit s1).
  { rewrite E1. subst s1 s0. cbn [Pb.position Pb.current_limit Pb.advance Pb.open].
    rewrite Hsrc, length_app in Hmax. lia. }
  pose proof (turn_Rows_last pb fw r1 s1 payload var Hpb (sane_advance _ _ Hs0) E1 L1 Hmeta Hvar)
    as T.
  destruct (fits payload _).
  - eapply Progress.Parse_head.
    + eapply Progress.loop_head_trans; [exact Hrun|].
      eapply head_turn; [exact T|]. constructor.
    + apply turn_end. rewrite rest_advance. apply drop_all.
  - eapply Progress.Parse_head; [exact Hrun|exact T].
Qed.


Lemma Parse_turns_head pb fw k : forall r s r1 s1,
  Parse_turns pb fw k r s = Some (r1, s1) -> loop_head pb fw r s r1 s1.
Proof.
  induction k as [|k IH]; intros r s r1 s1; cbn [Parse_turns].
  - intros [= <- <-]. constructor.
  - destruct (Parse_turn pb fw r s) as [[r' s'|]|] eqn:T; try discriminate.
    intros H. eapply head_turn; eauto.
Qed.

End Payload.

(** ** What every turn of the decoder keeps *)

Module Invariants.
Import PbFacts VarintFacts Fields Payload.

Lemma In_field_numbers pb n :
  In n (field_numbers pb) ->
  n = kVarnameFieldNumber pb \/ n = kTypeFieldNumber pb \/ n = kDataTypeFieldNumber pb
  \/ n = kDimsFieldNumber pb \/ n = kLodLevelFieldNumber pb \/ n = kLodFieldNumber pb
  \/ n = kSerializedFieldNumber pb \/ n = kRowsFieldNumber pb.
Proof. unfold field_numbers. simpl. intuition congruence. Qed.

Lemma ReadVarint64_too_long s v s' :
  Pb.ReadVarint64 s = Some (v, s') -> Int.INT_MAX < v ->
  ReadVarintSizeAsInt s = None /\ Pb.ReadVarintSizeAsInt s = None.
Proof.
  intros R Hv. unfold ReadVarintSizeAsInt, Pb.ReadVarintSizeAsInt. rewrite R.
  change (Int.to_uint64 Int.INT_MAX) with Int.INT_MAX.
  destruct (Z.leb_spec v Int.INT_MAX); [lia|]. auto.
Qed.

Lemma lod_accumulate f m :
  lod (Wire.accumulate f m) = lod m ++ List.filter has_value (Wire.levels [f]).
Proof.
  unfold Wire.accumulate, Wire.levels.
  destruct f; cbn; rewrite ?app_nil_r; try reflexivity.
  unfold has_value. destruct (_ =? 0); cbn; rewrite ?app_nil_r; reflexivity.
Qed.

Lemma levels_cons f fs : Wire.levels (f :: fs) = Wire.levels [f] ++ Wire.levels fs.
Proof. unfold Wire.levels. cbn. rewrite app_nil_r. reflexivity. Qed.

Lemma lod_accumulate_all hs : forall m,
  lod (Wire.accumulate_all hs m) = lod m ++ List.filter has_value (Wire.levels hs).
Proof.
  induction hs as [|f hs IH]; intros m.
  - cbn. rewrite app_nil_r. reflexivity.
  - unfold Wire.accumulate_all in *. cbn [fold_left]. rewrite IH, lod_accumulate.
    rewrite (levels_cons f hs), List.filter_app, app_assoc. reflexivity.
Qed.

Lemma Parse_header_only pb fw r source hs :
  proto_ok pb = true ->
  forallb Wire.is_header hs = true -> forallb Wire.in_range hs = true ->
  concat source = Wire.encode pb hs ->
  Z.of_nat (length (concat source)) <= Int.INT_MAX ->
  Parse pb fw r source
  = Some (Returned 0, set_meta (Wire.accumulate_all hs (meta_ r)) r).
Proof.
  intros Hpb Hh Hv Hsrc Hmax.
  set (s0 := Pb.open source).
  assert (H0 : Pb.holds s0 (Wire.encode pb hs)).
  { split; [exists []; rewrite app_nil_r; exact Hsrc|].
    rewrite Hsrc in Hmax. subst s0. cbn [Pb.position Pb.current_limit Pb.open]. lia. }
  eapply Progress.Parse_head.
  - apply (run_header pb fw hs r s0 Hpb (sane_open source) Hh Hv H0).
  - apply turn_end. rewrite rest_advance. subst s0. rewrite rest_open, Hsrc. apply drop_all.
Qed.

(** [ReadRaw] to a device that returns true has waited for its transfers;
    [ReadRaw] to the host leaves the context alone. *)
Lemma ReadRaw_synchronized fw input ctx place size ok p input' ctx' :
  ReadRaw fw input ctx place size = Some (RawReturn ok (p, input', ctx')) ->
  (is_gpu_place place = true -> ok = true -> in_flight ctx' = [])
  /\ (is_gpu_place place = false -> ctx' = ctx).
Proof.
  unfold ReadRaw. destruct (is_gpu_place place).
  - destruct (PADDLE_WITH_CUDA fw); [|discriminate].
    destruct (ReadRaw_gpu_loop _ _ _) as [[[] [[p1 i1] c1]]|]; try discriminate.
    + intros [= <- <- <- <-]. split; [reflexivity|discriminate].
    + intros [= <- <- <- <-]. split; [discriminate|discriminate].
  - destruct (Progress.ReadRaw_cpu_loop_total (loop_fuel input) size [] input ctx)
      as (ok1 & p1 & i1 & -> & _); [unfold loop_fuel; lia|].
    intros [= <- <- <- <-]. split; [discriminate|reflexivity].
Qed.

Lemma ReadRaw_settled fw input ctx place size ok p input' ctx' :
  ReadRaw fw input ctx place size = Some (RawReturn ok (p, input', ctx')) ->
  in_flight ctx = [] -> ok = true \/ is_gpu_place place = false -> in_flight ctx' = [].
Proof.
  intros R Hq H. destruct (ReadRaw_synchronized _ _ _ _ _ _ _ _ _ R) as [Hg Hc].
  destruct (is_gpu_place place) eqn:E.
  - destruct H as [H|H]; [auto|discriminate].
  - rewrite Hc; auto.
Qed.

Lemma CopyLodTensorData_settled fw r input dims len :
  quiet r -> copy_settled false (CopyLodTensorData fw r input dims len).
Proof.
  intros Hq. unfold CopyLodTensorData.
  destruct (scope_ r !! varname (meta_ r)); [|cbn; discriminate].
  destruct (copy_lod _ _ _ _); [|cbn; discriminate].
  destruct (ToTypeIndex fw _); [|cbn; discriminate].
  destruct (mutable_data_ok fw _ _); [|cbn; discriminate].
  destruct (ReadRaw fw input _ _ len) as [[ok [[p i] c]|]|] eqn:R; cbn; try discriminate; [|exact I].
  destruct (fits p _); cbn; [|discriminate].
  intros [->|H]; [|discriminate]. eapply ReadRaw_settled; eauto.
Qed.

Lemma CopySelectRowsTensorData_settled fw r input dims len :
  quiet r -> copy_settled false (CopySelectRowsTensorData fw r input dims len).
Proof.
  intros Hq. unfold CopySelectRowsTensorData.
  destruct (scope_ r !! varname (meta_ r)); [|cbn; discriminate].
  destruct (ToTypeIndex fw _); [|cbn; discriminate].
  destruct (mutable_data_ok fw _ _); [|cbn; discriminate].
  destruct (ReadRaw fw input _ _ len) as [[ok [[p i] c]|]|] eqn:R; cbn; try discriminate; [|exact I].
  destruct (fits p _); cbn; [|discriminate].
  intros [->|H]; [|discriminate]. eapply ReadRaw_settled; eauto.
Qed.

Lemma CopySelectRowsData_settled fw r input len :
  quiet r -> copy_settled true (CopySelectRowsData fw r input len).
Proof.
  intros Hq. unfold CopySelectRowsData.
  destruct (scope_ r !! varname (meta_ r)); [|cbn; discriminate].
  destruct (ReadRaw fw input _ _ len) as [[ok [[p i] c]|]|] eqn:R; cbn; try discriminate; [|exact I].
  destruct (fits p _); cbn; [|discriminate].
  intros _. eapply ReadRaw_settled; eauto.
Qed.

Lemma after_copy_settled always tag c :
  (always = true \/ tag <> 0) -> copy_settled always c -> turn_settled (after_copy tag c).
Proof.
  intros Ht. destruct c as [[ok r' input'|o r']|]; cbn; [|intros H E; destruct (H _ E)|auto].
  destruct ok; cbn; [auto|]. intros H [= E]. destruct Ht as [->|Ht]; [auto|contradiction].
Qed.

Lemma Parse_turn_settled pb fw r input :
  kSerializedFieldNumber pb <> 0 -> quiet r -> turn_settled (Parse_turn pb fw r input).
Proof.
  intros Hser Hq. unfold Parse_turn.
  destruct (Pb.ReadTagWithCutoff 127 input) as [[t ok] input1].
  destruct ok; cbn [negb].
  2:{ destruct (negb _); cbn; auto. }
  repeat match goal with
         | |- turn_settled (if ?c then _ else _) => destruct c eqn:?
         | |- turn_settled (Some (Stop _ _)) => cbn; auto
         | |- turn_settled (Some (Next _ _)) => exact Hq
         | |- turn_settled (match ?x with Some _ => _ | None => _ end) =>
             lazymatch x with
             | after_copy _ _ => fail
             | _ => destruct x as [[? ?]|]
             end
         | |- turn_settled (let '(_, _) := ?x in _) => destruct x as [[? ?] ?]
         end.
  - destruct p as [[] ds]; cbn; auto.
  - exact I.
  - destruct p as [[] l]; [|cbn; auto].
    unfold Pb.DecrementRecursionDepthAndPopLimit.
    cbv beta iota. destruct (Pb.legitimate_message_end _); cbn [negb]; [|cbn; auto].
    destruct (Z.of_nat _ =? 0); exact Hq.
  - exact I.
  - assert (Htag : GetTagFieldNumber t <> 0).
    { match goal with
      | H : (GetTagFieldNumber t =? kSerializedFieldNumber pb) = true |- _ =>
          apply Z.eqb_eq in H; rewrite H; exact Hser
      end. }
    destruct (GetDims fw _); [|cbn; discriminate].
    destruct (_ =? LOD_TENSOR pb).
    + apply (after_copy_settled false); [auto|]. apply CopyLodTensorData_settled, Hq.
    + destruct (_ =? SELECTED_ROWS pb); [|cbn; auto].
      apply (after_copy_settled false); [auto|]. apply CopySelectRowsTensorData_settled, Hq.
  - apply (after_copy_settled true); [auto|]. apply CopySelectRowsData_settled, Hq.
Qed.

Lemma Parse_loop_settled pb fw fuel : forall r input o r',
  kSerializedFieldNumber pb <> 0 -> quiet r ->
  Parse_loop pb fw fuel r input = Some (o, r') -> o = Returned 0 -> quiet r'.
Proof.
  induction fuel as [|fuel IH]; intros r input o r' Hser Hq; cbn [Parse_loop]; [discriminate|].
  pose proof (Parse_turn_settled pb fw r input Hser Hq) as H.
  destruct (Parse_turn pb fw r input) as [[r1 input1|o1 r1]|]; cbn in H; [|intros [= <- <-]; exact H|discriminate].
  apply IH; assumption.
Qed.

(** A varint that is cut short cannot be read. *)
Lemma continuation_set v :
  0 <= v -> (Z.land (byte_val (byte_of (v mod 128 + 128))) 128 =? 0) = false.
Proof.
  intros Hv. rewrite continuation_bit, byte_val_of.
  pose proof (Z.mod_pos_bound v 128 ltac:(lia)).
  rewrite Z.mod_small by lia. apply Z.ltb_ge. lia.
Qed.

Lemma ReadVarint64_loop_cut n : forall v pre tl count shift acc s,
  0 <= v ->
  Wire.varint_loop n v = pre ++ tl -> tl <> [] -> Pb.rest s = pre ->
  Pb.ReadVarint64_loop count shift acc s = None.
Proof.
  induction n as [|n IH]; intros v pre tl count shift acc s Hv E Htl Hr;
    (destruct count as [|count]; [reflexivity|]); cbn [Pb.ReadVarint64_loop];
    destruct (Pb.read_byte s) as [[b s']|] eqn:R; try reflexivity;
    apply read_byte_inv in R; destruct R as (-> & _ & tl' & Hb);
    subst pre; rewrite Hb in E; cbn [Wire.varint_loop app] in E.
  - injection E as _ E. symmetry in E. apply app_eq_nil in E. tauto.
  - destruct (v <? 128).
    + injection E as _ E. symmetry in E. apply app_eq_nil in E. tauto.
    + injection E as <- E. rewrite continuation_set by assumption.
      apply (IH (v / 128) tl' tl); try assumption.
      * apply Z.div_pos; lia.
      * rewrite rest_advance, Hb. reflexivity.
Qed.

Lemma ReadVarint64_cut v pre tl s :
  Wire.varint v = pre ++ tl -> tl <> [] -> Pb.rest s = pre -> Pb.ReadVarint64 s = None.
Proof.
  intros E Htl Hr. unfold Pb.ReadVarint64.
  apply (ReadVarint64_loop_cut 9 (Int.to_uint64 v) pre tl); try assumption.
  apply IntFacts.to_uint64_range.
Qed.

(** Where a cut falls in two joined pieces. *)
Lemma cut_app (a b pre tl : list byte) :
  a ++ b = pre ++ tl -> tl <> [] ->
  (exists tl', a = pre ++ tl' /\ tl' <> [])
  \/ (exists pre', pre = a ++ pre' /\ b = pre' ++ tl).
Proof.
  revert pre. induction a as [|x a IH]; intros pre E Htl.
  - right. exists pre. auto.
  - destruct pre as [|y pre].
    + left. exists (x :: a). split; [reflexivity|discriminate].
    + cbn in E. injection E as -> E.
      destruct (IH pre E Htl) as [(tl' & -> & H)|(pre' & -> & H)].
      * left. exists tl'. auto.
      * right. exists pre'. auto.
Qed.

(** A packed loop that is to read more values than the source holds bytes
    gives up. *)
Lemma read_packed_short fuel : forall i len s out,
  Z.of_nat (length (Pb.rest s)) < len - i -> (length (Pb.rest s) < fuel)%nat ->
  exists out' s', read_packed fuel i len s out = Some (false, out', s').
Proof.
  induction fuel as [|fuel IH]; intros i len s out Hs Hf; [lia|].
  cbn [read_packed]. destruct (Z.ltb_spec i len); [|lia].
  destruct (Pb.ReadVarint64 s) as [[v s']|] eqn:R; [|eauto].
  apply Progress.ReadVarint64_less in R. apply IH; lia.
Qed.

Lemma ReadRaw_short_false fw s ctx place size :
  Z.of_nat (length (Pb.rest s)) < size ->
  (is_gpu_place place = true -> PADDLE_WITH_CUDA fw = true) ->
  exists st, ReadRaw fw s ctx place size = Some (RawReturn false st).
Proof.
  intros Hs Hg. destruct (ReadRaw_short fw s ctx place size Hs) as [H|[what H]]; [exact H|].
  unfold ReadRaw in H. destruct (is_gpu_place place).
  - rewrite Hg in H by reflexivity.
    destruct (ReadRaw_gpu_loop _ _ _) as [[[] [[? ?] ?]]|]; discriminate.
  - destruct (ReadRaw_cpu_loop _ _ _) as [[? ?]|]; discriminate.
Qed.

Lemma rest_cut_tag pb f s vpart :
  proto_ok pb = true ->
  Pb.rest s = Wire.tag (Wire.field_number pb f) (Wire.wire_type f) ++ vpart ->
  Pb.position s + Z.of_nat (length (Pb.rest s)) <= Pb.current_limit s ->
  exists t, Pb.ReadTagWithCutoff 127 s = ((t, true), Pb.advance 1 s)
            /\ GetTagFieldNumber t = Wire.field_number pb f
            /\ GetTagWireType t = Wire.wire_type f
            /\ Pb.rest (Pb.advance 1 s) = vpart
            /\ Pb.position (Pb.advance 1 s) + Z.of_nat (length vpart)
               <= Pb.current_limit (Pb.advance 1 s).
Proof.
  intros Hpb E L.
  pose proof (small_field_number pb f Hpb) as Hs.
  pose proof (wire_type_bounds f) as Hw.
  pose proof (length_tag _ _ Hs Hw) as Hl.
  assert (H : Pb.holds s (Wire.tag (Wire.field_number pb f) (Wire.wire_type f))).
  { split; [eauto|]. rewrite E, length_app in L. lia. }
  destruct (ReadTagWithCutoff_tag _ _ _ Hs Hw H) as (t & T & Hn & Ht).
  exists t. repeat split; try assumption.
  - rewrite rest_advance, E, <- Hl. apply drop_app_length.
  - rewrite E, length_app, Hl in L. cbn [Pb.position Pb.current_limit Pb.advance]. lia.
Qed.

(** Reading the length prefix of a value that is cut behind it. *)
Lemma read_length_cut s body pre tl :
  Pb.bounded s ->
  Pb.rest s = Wire.varint (Z.of_nat (length body)) ++ pre ->
  Pb.position s + Z.of_nat (length (Pb.rest s)) <= Pb.current_limit s ->
  body = pre ++ tl -> tl <> [] ->
  Z.of_nat (length body) <= Int.INT_MAX ->
  exists s', Pb.ReadVarint64 s = Some (Z.of_nat (length body), s')
             /\ Z.of_nat (length (Pb.rest s')) < Z.of_nat (length body)
             /\ Pb.available s' < Z.of_nat (length body).
Proof.
  intros Hb E L Eb Htl Hmax.
  assert (H : Pb.holds s (Wire.varint (Z.of_nat (length body)))).
  { split; [eauto|]. rewrite E, length_app in L. lia. }
  rewrite (ReadVarint64_varint _ _ H).
  rewrite IntFacts.to_uint64_id by (unfold Int.INT_MAX in Hmax; lia).
  eexists. split; [reflexivity|].
  assert (Hr : Z.of_nat (length (Pb.rest (Pb.advance
                 (length (Wire.varint (Z.of_nat (length body)))) s)))
               < Z.of_nat (length body)).
  { rewrite rest_advance, E, drop_app_length. subst body. rewrite length_app.
    destruct tl; [congruence|]. cbn [length]. lia. }
  split; [exact Hr|]. unfold Pb.available. lia.
Qed.

Lemma turn_cut_value pb fw r s f vpart tl :
  proto_ok pb = true -> Pb.sane s ->
  Pb.rest s = Wire.tag (Wire.field_number pb f) (Wire.wire_type f) ++ vpart ->
  Pb.position s + Z.of_nat (length (Pb.rest s)) <= Pb.current_limit s ->
  Wire.enforced_value pb f = vpart ++ tl -> tl <> [] ->
  Z.of_nat (length (Wire.encode_value pb f)) <= Int.INT_MAX ->
  can_receive pb fw r (meta_ r) f ->
  exists r', Parse_turn pb fw r s = Some (Stop (Returned (Wire.field_number pb f)) r').
Proof.
  intros Hpb Hs E L Ev Htl Hmax Hcan.
  destruct (rest_cut_tag pb f s vpart Hpb E L) as (t & T & Hn & Ht & E1 & L1).
  pose proof (bounded_advance 1 _ (sane_bounded _ Hs)) as Hb1.
  unfold Parse_turn. rewrite T, Hn, Ht. clear T Hn Ht t.
  set (s1 := Pb.advance 1 s) in *.
  assert (Hscalar : forall v, Wire.varint v = vpart ++ tl -> Pb.ReadVarint64 s1 = None)
    by (intros v Hv; apply (ReadVarint64_cut v vpart tl); assumption).
  assert (Hdelim : forall body,
             Wire.length_delimited body = vpart ++ tl ->
             Z.of_nat (length (Wire.length_delimited body)) <= Int.INT_MAX ->
             Pb.ReadVarint64 s1 = None
             \/ exists s2, Pb.ReadVarint64 s1 = Some (Z.of_nat (length body), s2)
                           /\ Z.of_nat (length (Pb.rest s2)) < Z.of_nat (length body)
                           /\ Pb.available s2 < Z.of_nat (length body)
                           /\ Z.of_nat (length body) <= Int.INT_MAX).
  { intros body Hv Hm. unfold Wire.length_delimited in Hv, Hm. rewrite length_app in Hm.
    destruct (cut_app _ _ _ _ Hv Htl) as [(tl' & Hv' & Htl')|(pre' & Hp & Hbody)].
    - left. apply (ReadVarint64_cut (Z.of_nat (length body)) vpart tl'); assumption.
    - right. destruct (read_length_cut s1 body pre' tl Hb1) as (s2 & R & Hr & Ha);
        try assumption; try lia.
      + rewrite E1. exact Hp.
      + rewrite E1. exact L1.
      + exists s2. repeat split; try assumption. lia. }
  destruct f; cbn [negb Wire.field_number Wire.wire_type Wire.encode_value
                   Wire.enforced_value Wire.is_header] in *;
    unfold WIRETYPE_VARINT, WIRETYPE_LENGTH_DELIMITED; dispatch Hpb; cbn [negb].
  - (* varname *)
    unfold Pb.ReadVarint32.
    destruct (Hdelim _ Ev Hmax) as [-> | (s2 & -> & Hr & Ha & Hm)]; [eauto|].
    unfold Int.INT_MAX in Hm.
    rewrite IntFacts.to_uint32_id by lia. rewrite IntFacts.to_int32_id by lia.
    unfold Pb.ReadString.
    destruct (Z.ltb_spec (Z.of_nat (length (list_byte_of_string s0))) 0); [eauto|].
    destruct (Z.ltb_spec (Pb.available s2) (Z.of_nat (length (list_byte_of_string s0))));
      [eauto|lia].
  - rewrite (Hscalar _ Ev). eauto.
  - rewrite (Hscalar _ Ev). eauto.
  - rewrite (Hscalar _ Ev). eauto.
  - (* packed dims *)
    unfold Pb.ReadVarintSizeAsInt, Wire.packed in *.
    destruct (Hdelim _ Ev Hmax) as [-> | (s2 & -> & Hr & Ha & Hm)]; [eauto|].
    destruct (Z.leb_spec (Z.of_nat (length (concat (map Wire.varint vs)))) Int.INT_MAX); [|lia].
    destruct (read_packed_short (loop_fuel s2) 0
                (Z.of_nat (length (concat (map Wire.varint vs)))) s2 (dims (meta_ r)))
      as (out' & s' & ->); [lia|unfold loop_fuel; lia|]. eauto.
  - rewrite (Hscalar _ Ev). eauto.
  - (* lod *)
    unfold ReadVarintSizeAsInt. rewrite (Hscalar _ Ev). eauto.
  - (* serialized *)
    destruct Hcan as (Hname & Hkind & [var Hvar] & (d & ti & Hd & Hti & Hmd & Hroom) & Hlod & Hgpu).
    assert (Hmeta : meta_info_got pb (meta_ r) = true) by (apply meta_info_got_iff; tauto).
    rewrite Hmeta. cbn [negb]. unfold ReadVarintSizeAsInt.
    destruct (Hdelim _ Ev Hmax) as [-> | (s2 & -> & Hr & Ha & Hm)]; [eauto|].
    change (Int.to_uint64 Int.INT_MAX) with Int.INT_MAX.
    destruct (Z.leb_spec (Z.of_nat (length payload)) Int.INT_MAX); [|lia].
    unfold Int.INT_MAX in Hm. rewrite IntFacts.to_int32_id by lia. rewrite Hd.
    destruct (ReadRaw_short_false fw s2 (dev_ctx_ r) (GetPlace (dev_ctx_ r))
                (Z.of_nat (length payload)) Hr Hgpu) as [[[p i] c] RR].
    assert (Hfits : fits p (memory_size fw d ti) = true).
    { apply Z.leb_le. destruct (ReadRaw_bytes _ _ _ _ _ _ _ _ _ RR) as (Hp & _).
      apply (f_equal (@length byte)) in Hp. rewrite length_app in Hp. lia. }
    destruct (Z.eqb_spec (type (meta_ r)) (LOD_TENSOR pb)) as [Hk|Hk].
    + destruct (copy_lod_some (Z.to_nat (lod_level (meta_ r))) 0 (meta_ r) []) as [l Hl];
        [specialize (Hlod Hk); lia|].
      unfold CopyLodTensorData. rewrite Hvar, Hl, Hti, Hmd, RR, Hfits. cbn [after_copy]. eauto.
    + destruct Hkind as [Hk'|Hk']; [contradiction|]. rewrite Hk', Z.eqb_refl.
      unfold CopySelectRowsTensorData. rewrite Hvar, Hti, Hmd, RR, Hfits. cbn [after_copy]. eauto.
  - (* rows *)
    destruct Hcan as (Hname & Hkind & (var & Hvar & Hroom)).
    assert (Hmeta : meta_info_got pb (meta_ r) = true) by (apply meta_info_got_iff; tauto).
    rewrite Hmeta. cbn [negb]. unfold ReadVarintSizeAsInt.
    destruct (Hdelim _ Ev Hmax) as [-> | (s2 & -> & Hr & Ha & Hm)]; [eauto|].
    change (Int.to_uint64 Int.INT_MAX) with Int.INT_MAX.
    destruct (Z.leb_spec (Z.of_nat (length payload)) Int.INT_MAX); [|lia].
    unfold Int.INT_MAX in Hm. rewrite IntFacts.to_int32_id by lia.
    destruct (ReadRaw_short_false fw s2 (dev_ctx_ r) CPUPlace
                (Z.of_nat (length payload)) Hr) as [[[p i] c] RR]; [discriminate|].
    assert (Hfits : fits p (Z.of_nat (length (rows_data_ (GetMutable_SelectedRows var)))) = true).
    { apply Z.leb_le. destruct (ReadRaw_bytes _ _ _ _ _ _ _ _ _ RR) as (Hp & _).
      apply (f_equal (@length byte)) in Hp. rewrite length_app in Hp. lia. }
    unfold CopySelectRowsData. rewrite Hvar, RR, Hfits. cbn [after_copy]. eauto.
Qed.

(** One entry of a level, with more of the sub-message behind it. *)
Lemma ParseLodData_loop_step pb e fuel s out :
  proto_ok pb = true -> Wire.entry_in_range e = true -> Pb.bounded s ->
  Pb.holds s (Wire.encode_entry pb e) ->
  ParseLodData_loop pb (S fuel) s out
  = ParseLodData_loop pb fuel (Pb.advance (length (Wire.encode_entry pb e)) s)
      (out ++ Wire.entry_values e).
Proof.
  intros Hpb Hv Hb H1. cbn [ParseLodData_loop].
  pose proof (small_lod_data pb Hpb) as Hsmall.
  destruct e as [v|vs]; cbn [Wire.encode_entry Wire.entry_in_range Wire.entry_values] in *.
  - apply holds_app in H1. destruct H1 as [Ht Hval].
    pose proof (wire_type_ok WIRETYPE_VARINT ltac:(auto)) as Hw.
    destruct (ReadTagWithCutoff_tag _ _ _ Hsmall Hw Ht) as (t & T & Hn & Hwt).
    rewrite T, Hn, Hwt. cbn [negb]. rewrite !Z.eqb_refl.
    rewrite length_app, length_tag in * by assumption.
    rewrite (ReadVarint64_varint _ _ Hval).
    range Hv. rewrite IntFacts.to_int64_to_uint64 by lia.
    rewrite advance_advance. reflexivity.
  - apply holds_app in H1. destruct H1 as [Ht Hval].
    pose proof (wire_type_ok WIRETYPE_LENGTH_DELIMITED ltac:(auto)) as Hw.
    destruct (ReadTagWithCutoff_tag _ _ _ Hsmall Hw Ht) as (t & T & Hn & Hwt).
    rewrite T, Hn, Hwt. cbn [negb]. rewrite Z.eqb_refl.
    change (WIRETYPE_LENGTH_DELIMITED =? WIRETYPE_VARINT) with false.
    rewrite Z.eqb_refl. cbv iota.
    rewrite length_app, length_tag in * by assumption.
    unfold Wire.packed in *.
    destruct (Pb_ReadVarintSizeAsInt_length _ _ (bounded_advance 1 _ Hb) Hval) as (R & H3).
    rewrite R. pose proof (length_packed_body vs Hv) as Hlen.
    rewrite (read_packed_one_byte vs _ 0 _ _ out Hv H3);
      [| lia | unfold loop_fuel; pose proof (holds_length _ _ H3); lia].
    unfold Wire.length_delimited. rewrite length_app.
    rewrite !advance_advance. rewrite Hlen. do 2 f_equal; lia.
Qed.

Lemma length_encode_entries_cons pb e es :
  length (Wire.encode_entries pb (e :: es))
  = (length (Wire.encode_entry pb e) + length (Wire.encode_entries pb es))%nat.
Proof. unfold Wire.encode_entries. cbn [map concat]. apply length_app. Qed.

(** A level that is cut inside an entry: [ParseLodData] reads the entries in
    front of the cut and returns false in the entry that is cut. *)
Lemma ParseLodData_loop_cut pb es1 e epart : forall fuel s out,
  proto_ok pb = true -> forallb Wire.entry_in_range es1 = true -> Pb.bounded s ->
  Pb.rest s = Wire.encode_entries pb es1
              ++ Wire.tag (kLodDataFieldNumber pb) (Wire.entry_wire_type e) ++ epart ->
  Pb.position s + Z.of_nat (length (Pb.rest s)) <= Pb.current_limit s ->
  Wire.inside_entry e epart ->
  Z.of_nat (length (Wire.encode_entry pb e)) <= Int.INT_MAX ->
  (length (Pb.rest s) < fuel)%nat ->
  exists out' s', ParseLodData_loop pb fuel s out = Some (false, out', s').
Proof.
  induction es1 as [|e0 es1 IH]; intros fuel s out Hpb Hv Hb E L Hin Hmax Hf.
  - destruct fuel; [lia|]. cbn [ParseLodData_loop].
    cbn [Wire.encode_entries map concat app] in E.
    pose proof (small_lod_data pb Hpb) as Hsmall.
    assert (Hw : 0 <= Wire.entry_wire_type e < 8)
      by (apply wire_type_ok; destruct e; auto).
    pose proof (length_tag _ _ Hsmall Hw) as Hlt.
    assert (Ht : Pb.holds s (Wire.tag (kLodDataFieldNumber pb) (Wire.entry_wire_type e))).
    { split; [eauto|]. rewrite E, length_app in L. lia. }
    destruct (ReadTagWithCutoff_tag _ _ _ Hsmall Hw Ht) as (t & T & Hn & Hwt).
    rewrite T, Hn, Hwt. cbn [negb]. rewrite Z.eqb_refl.
    assert (E1 : Pb.rest (Pb.advance 1 s) = epart).
    { rewrite rest_advance, E, <- Hlt. apply drop_app_length. }
    assert (L1 : Pb.position (Pb.advance 1 s) + Z.of_nat (length epart)
                 <= Pb.current_limit (Pb.advance 1 s)).
    { rewrite E, length_app, Hlt in L. cbn [Pb.position Pb.current_limit Pb.advance]. lia. }
    destruct e as [v|vs]; cbn [Wire.entry_wire_type Wire.inside_entry Wire.encode_entry] in *.
    + rewrite Z.eqb_refl. destruct Hin as (tl & Htl & Hvar).
      rewrite (ReadVarint64_cut v epart tl _ Hvar Htl E1). eauto.
    + change (WIRETYPE_LENGTH_DELIMITED =? WIRETYPE_VARINT) with false.
      rewrite Z.eqb_refl. cbv iota.
      destruct Hin as (part & tl & Htl & Hblock & ->).
      set (block := concat (map Wire.varint vs)) in *.
      assert (Hlb : Z.of_nat (length block) <= Int.INT_MAX).
      { unfold Wire.packed, Wire.length_delimited in Hmax. fold block in Hmax.
        rewrite !length_app in Hmax. lia. }
      assert (Hh : Pb.holds (Pb.advance 1 s) (Wire.varint (Z.of_nat (length block)))).
      { split; [rewrite E1; eauto|]. rewrite length_app in L1. lia. }
      unfold Pb.ReadVarintSizeAsInt. rewrite (ReadVarint64_varint _ _ Hh).
      rewrite IntFacts.to_uint64_id by (unfold Int.INT_MAX in Hlb; lia).
      destruct (Z.leb_spec (Z.of_nat (length block)) Int.INT_MAX); [|lia].
      rewrite advance_advance.
      match goal with |- context [read_packed _ _ _ ?x _] => set (s2 := x) end.
      assert (E2 : Pb.rest s2 = part).
      { subst s2. rewrite <- advance_advance, rest_advance, E1. apply drop_app_length. }
      destruct (read_packed_short (loop_fuel s2) 0 (Z.of_nat (length block)) s2 out)
        as (out' & s' & ->).
      * rewrite E2, Hblock, length_app. destruct tl; [congruence|]. cbn [length]. lia.
      * unfold loop_fuel. lia.
      * eauto.
  - destruct fuel; [lia|].
    cbn [forallb] in Hv. apply andb_true_iff in Hv. destruct Hv as [Hv0 Hv].
    unfold Wire.encode_entries in E. cbn [map concat] in E. rewrite <- app_assoc in E.
    fold (Wire.encode_entries pb es1) in E.
    assert (H0 : Pb.holds s (Wire.encode_entry pb e0)).
    { split; [eauto|]. rewrite E, length_app in L. lia. }
    rewrite (ParseLodData_loop_step pb e0 fuel s out Hpb Hv0 Hb H0).
    apply IH; try assumption.
    + apply bounded_advance, Hb.
    + rewrite rest_advance, E. apply drop_app_length.
    + rewrite rest_advance, E, drop_app_length.
      rewrite E, length_app in L. cbn [Pb.position Pb.current_limit Pb.advance]. lia.
    + rewrite rest_advance, E, drop_app_length. rewrite E, length_app in Hf.
      assert (1 <= length (Wire.encode_entry pb e0))%nat; [|lia].
      destruct e0; cbn [Wire.encode_entry]; rewrite length_app;
        pose proof (small_lod_data pb Hpb) as Hsmall;
        rewrite length_tag by (try assumption; apply wire_type_ok; auto); lia.
Qed.

Lemma length_entry_in_entries pb es1 e es2 :
  (length (Wire.encode_entry pb e)
   <= length (Wire.encode_entries pb (es1 ++ e :: es2)))%nat.
Proof.
  unfold Wire.encode_entries. rewrite map_app, concat_app. cbn [map concat].
  rewrite !length_app. lia.
Qed.

(** The turn of [Parse] on a [lod] field that is cut inside an entry of its
    body. *)
Lemma turn_cut_entry pb fw r s es es1 e es2 epart :
  proto_ok pb = true -> Pb.sane s ->
  es = es1 ++ e :: es2 -> forallb Wire.entry_in_range es1 = true ->
  Wire.inside_entry e epart ->
  Pb.rest s = Wire.tag (kLodFieldNumber pb) WIRETYPE_LENGTH_DELIMITED
              ++ Wire.varint (Z.of_nat (length (Wire.encode_entries pb es)))
              ++ Wire.encode_entries pb es1
              ++ Wire.tag (kLodDataFieldNumber pb) (Wire.entry_wire_type e) ++ epart ->
  Pb.position s + Z.of_nat (length (Pb.rest s)) <= Pb.current_limit s ->
  Z.of_nat (length (Wire.encode_value pb (Wire.Lod es))) <= Int.INT_MAX ->
  Parse_turn pb fw r s = Some (Stop (Returned (kLodFieldNumber pb)) r).
Proof.
  intros Hpb Hs Hes Hv Hin E L Hmax.
  set (body := Wire.encode_entries pb es) in *.
  set (cutbody := Wire.encode_entries pb es1
                  ++ Wire.tag (kLodDataFieldNumber pb) (Wire.entry_wire_type e) ++ epart) in *.
  destruct (rest_cut_tag pb (Wire.Lod es) s
              (Wire.varint (Z.of_nat (length body)) ++ cutbody) Hpb E L)
    as (t & T & Hn & Ht & E1 & L1).
  pose proof (bounded_advance 1 _ (sane_bounded _ Hs)) as Hb1.
  unfold Parse_turn. rewrite T, Hn, Ht. clear T Hn Ht t.
  cbn [Wire.field_number Wire.wire_type].
  unfold WIRETYPE_VARINT, WIRETYPE_LENGTH_DELIMITED. dispatch Hpb. cbn [negb].
  fold WIRETYPE_LENGTH_DELIMITED in *.
  set (s1 := Pb.advance 1 s) in *.
  cbn [Wire.encode_value] in Hmax. unfold Wire.length_delimited in Hmax.
  fold body in Hmax. rewrite length_app in Hmax.
  assert (Hh : Pb.holds s1 (Wire.varint (Z.of_nat (length body)))).
  { split; [rewrite E1; eauto|]. rewrite length_app in L1. lia. }
  unfold ReadVarintSizeAsInt. rewrite (ReadVarint64_varint _ _ Hh).
  rewrite IntFacts.to_uint64_id by (unfold Int.INT_MAX in Hmax; lia).
  change (Int.to_uint64 Int.INT_MAX) with Int.INT_MAX.
  destruct (Z.leb_spec (Z.of_nat (length body)) Int.INT_MAX); [|lia].
  rewrite IntFacts.to_int32_id by (unfold Int.INT_MAX in Hmax; lia).
  set (n := length (Wire.varint (Z.of_nat (length body)))) in *.
  set (s2 := Pb.advance n s1) in *.
  assert (E2 : Pb.rest s2 = cutbody).
  { subst s2. rewrite rest_advance, E1. apply drop_app_length. }
  assert (Hb2 : Pb.bounded s2) by (apply bounded_advance, Hb1).
  assert (L2 : Pb.position s2 + Z.of_nat (length cutbody) <= Pb.current_limit s2).
  { rewrite length_app in L1. subst s2. cbn [Pb.position Pb.current_limit Pb.advance] in *.
    fold n in L1. lia. }
  destruct Hs as (Hb & Hlegit & Hbudget).
  unfold Pb.IncrementRecursionDepthAndPushLimit, Pb.PushLimit.
  cbn [Pb.buffers Pb.position Pb.current_limit Pb.legitimate_message_end Pb.recursion_budget].
  match goal with |- context [ParseLodData pb ?x] => set (s3 := x) end.
  destruct (Z.ltb_spec (Pb.recursion_budget s2 - 1) 0);
    [subst s2 s1; cbn [Pb.recursion_budget Pb.advance] in *; lia|].
  assert (Hcut : (length cutbody < length body)%nat).
  { subst cutbody body. rewrite Hes. unfold Wire.encode_entries.
    rewrite map_app, concat_app. cbn [map concat]. rewrite !length_app.
    assert (length (Wire.tag (kLodDataFieldNumber pb) (Wire.entry_wire_type e) ++ epart)
            < length (Wire.encode_entry pb e))%nat; [|rewrite length_app in *; lia].
    destruct e as [v|vs]; cbn [Wire.encode_entry Wire.entry_wire_type Wire.inside_entry] in *.
    - destruct Hin as (tl & Htl & ->). rewrite !length_app.
      destruct tl; [congruence|]. cbn [length]. lia.
    - destruct Hin as (part & tl & Htl & Hblock & ->).
      unfold Wire.packed, Wire.length_delimited. rewrite Hblock, !length_app.
      destruct tl; [congruence|]. cbn [length]. lia. }
  assert (Hb3 : Pb.bounded s3).
  { subst s3. destruct Hb2 as [Hp Hl]. split; cbn [Pb.position Pb.current_limit]; [exact Hp|].
    destruct (_ && _); lia. }
  assert (E3 : Pb.rest s3 = cutbody) by exact E2.
  assert (L3 : Pb.position s3 + Z.of_nat (length (Pb.rest s3)) <= Pb.current_limit s3).
  { rewrite E3. subst s3. cbn [Pb.position Pb.current_limit]. destruct Hb2 as [Hp Hl].
    destruct (Z.leb_spec 0 (Z.of_nat (length body)));
      destruct (Z.leb_spec (Z.of_nat (length body)) (Int.INT_MAX - Pb.position s2));
      cbn [andb]; lia. }
  unfold ParseLodData.
  destruct (ParseLodData_loop_cut pb es1 e epart (loop_fuel s3) s3 [] Hpb Hv Hb3 E3 L3 Hin)
    as (out' & s' & ->).
  - pose proof (length_entry_in_entries pb es1 e es2) as Hle. rewrite <- Hes in Hle.
    fold body in Hle. lia.
  - unfold loop_fuel. lia.
  - reflexivity.
Qed.

(** The turn of [Parse] on a field that is cut inside. *)
Lemma turn_cut pb fw r s f vpart :
  proto_ok pb = true -> Pb.sane s ->
  Pb.rest s = Wire.tag (Wire.field_number pb f) (Wire.wire_type f) ++ vpart ->
  Pb.position s + Z.of_nat (length (Pb.rest s)) <= Pb.current_limit s ->
  Wire.cut_inside pb f vpart ->
  Z.of_nat (length (Wire.encode_value pb f)) <= Int.INT_MAX ->
  can_receive pb fw r (meta_ r) f ->
  exists r', Parse_turn pb fw r s = Some (Stop (Returned (Wire.field_number pb f)) r').
Proof.
  intros Hpb Hs E L [(tl & Htl & Ev)|Hcut] Hmax Hcan.
  - eapply turn_cut_value; eauto.
  - destruct f; try contradiction.
    destruct Hcut as (es1 & e & es2 & epart & Hes & Hv & Hin & ->).
    exists r. cbn [Wire.field_number Wire.wire_type] in *.
    eapply turn_cut_entry; eauto.
Qed.

Lemma enforced_value_prefix pb f :
  exists more, Wire.encode_value pb f = Wire.enforced_value pb f ++ more.
Proof.
  destruct f; cbn [Wire.enforced_value]; try (exists []; rewrite app_nil_r; reflexivity).
  eexists. reflexivity.
Qed.

(** A cut inside a field leaves a part of the value of the field that is
    not the whole value. *)
Lemma cut_inside_prefix pb f vpart :
  Wire.cut_inside pb f vpart ->
  exists tl, tl <> [] /\ Wire.encode_value pb f = vpart ++ tl.
Proof.
  intros [(tl & Htl & Ev)|Hcut].
  - destruct (enforced_value_prefix pb f) as [more Hmore].
    exists (tl ++ more). split.
    + destruct tl; [congruence|discriminate].
    + rewrite Hmore, Ev, <- app_assoc. reflexivity.
  - destruct f; try contradiction.
    destruct Hcut as (es1 & e & es2 & epart & Hes & _ & Hin & ->).
    cbn [Wire.encode_value]. unfold Wire.length_delimited.
    assert (He : exists tl, tl <> []
                 /\ Wire.encode_entry pb e
                    = Wire.tag (kLodDataFieldNumber pb) (Wire.entry_wire_type e) ++ epart ++ tl).
    { destruct e as [v|vs]; cbn [Wire.encode_entry Wire.entry_wire_type Wire.inside_entry] in *.
      - destruct Hin as (tl & Htl & ->). eauto.
      - destruct Hin as (part & tl & Htl & Hblock & ->). exists tl. split; [exact Htl|].
        unfold Wire.packed, Wire.length_delimited. rewrite Hblock, <- !app_assoc. reflexivity. }
    destruct He as (tl & Htl & He).
    exists (tl ++ Wire.encode_entries pb es2). split.
    + destruct tl; [congruence|discriminate].
    + rewrite Hes at 2. unfold Wire.encode_entries at 2. rewrite map_app, concat_app.
      cbn [map concat]. rewrite He. fold (Wire.encode_entries pb es1).
      fold (Wire.encode_entries pb es2). rewrite <- !app_assoc. reflexivity.
Qed.

End Invariants.

(** * The properties of the decoder *)

Module Claims.
Import PbFacts VarintFacts Fields Payload Invariants.

(** C1, as amended.  Round trip: a metadata value [m] is laid out as
    metadata fields [hs], in any order and in either encoding of the
    dimensions and of the entries of a level, followed by the payload field
    as the last field; the message is at most [INT_MAX] bytes and is split
    into buffers in any way.  The field numbers are distinct and between 1
    and 15, the decoder starts with an empty [meta_], the values of the
    fields are in the range of their types, the values of a packed block are
    below 128 and every level has a value.  The name of [m] is not empty and
    is in the scope, its kind is one of the two, [GetDims], [ToTypeIndex]
    and [mutable_data] do not throw, the buffer that [mutable_data] makes has
    room for the payload, for a dense tensor [lod_level] is not above the
    number of levels, and a device place comes with a CUDA build.  Then
    [Parse] returns 0, [meta_] is [m] and the bytes copied to the
    destination are the payload. *)
Theorem round_trip pb fw r m source hs payload :
  proto_ok pb = true ->
  meta_ r = new_VariableMessage ->
  forallb Wire.is_header hs = true ->
  forallb Wire.in_range hs = true ->
  forallb Wire.no_empty_level hs = true ->
  Wire.describe_all hs new_VariableMessage = m ->
  concat source = Wire.encode pb (hs ++ [Wire.Serialized payload]) ->
  Z.of_nat (length (concat source)) <= Int.INT_MAX ->
  can_materialize pb fw r m (length payload) ->
  exists r',
    Parse pb fw r source = Some (Returned 0, r')
    /\ meta_ r' = m
    /\ data_ <$> destination r' = Some payload.
Proof.
  intros Hpb Hr Hh Hv Hne Hm Hsrc Hmax
    (Hname & Hkind & [var Hvar] & (d & ti & Hd & Hti & Hmd & Hroom) & Hlod & Hgpu).
  assert (Em : Wire.accumulate_all hs (meta_ r) = m)
    by (rewrite Hr, accumulate_all_describe; assumption).
  destruct (Parse_header_payload pb fw r source hs payload var d ti Hpb Hh Hv Hsrc Hmax)
    as (r' & HP & Hm' & Hdest & _); rewrite ?Em; try assumption.
  - apply meta_info_got_iff. tauto.
  - exists r'. rewrite Hdest. rewrite Em in Hm'. auto.
Qed.

Lemma round_trip_witness :
  exists r',
    Parse send_recv (Example.framework false) (Example.response CPUPlace)
      [Wire.encode send_recv (Example.header ++ [Wire.Serialized Example.payload])]
    = Some (Returned 0, r')
    /\ meta_ r' = Wire.describe_all Example.header new_VariableMessage
    /\ data_ <$> destination r' = Some Example.payload.
Proof.
  apply (round_trip send_recv (Example.framework false) (Example.response CPUPlace)
           (Wire.describe_all Example.header new_VariableMessage) _ Example.header).
  - reflexivity.
  - reflexivity.
  - reflexivity.
  - reflexivity.
  - reflexivity.
  - reflexivity.
  - vm_compute. reflexivity.
  - apply Z.leb_le. vm_compute. reflexivity.
  - split; [discriminate|]. split; [left; reflexivity|].
    split; [vm_compute; eauto|]. split.
    + exists [2; 3], 5. split; [reflexivity|]. split; [reflexivity|].
      split; [reflexivity|]. vm_compute. discriminate.
    + split; [intros _; vm_compute; discriminate|discriminate].
Defined.

(** C1 as stated fails: a metadata value whose offset table has one empty
    level is laid out field by field; [Parse] returns 0 and [meta_] has no
    level at all. *)
Lemma round_trip_empty_level :
  let m := Wire.describe_all Example.header_empty_level new_VariableMessage in
  let source :=
    [Wire.encode send_recv (Example.header_empty_level ++ [Wire.Serialized Example.payload])] in
  lod m = [[]]
  /\ exists m',
      Example.result (Parse send_recv (Example.framework false)
                        (Example.response CPUPlace) source)
      = Some (Returned 0, m')
      /\ lod m' = [] /\ m' <> m.
Proof.
  cbv zeta. split; [reflexivity|].
  eexists. split; [vm_compute; reflexivity|]. split; [reflexivity|discriminate].
Qed.


(** C2, as amended.  Truncation inside a field: a message starts with
    metadata fields [hs] and the tag of a next field [f], and is cut inside
    [f]; [vpart] is what is left of the value of [f].  The cut is behind the
    tag of [f] and before the end of its value, for a [lod] field before the
    end of its length, or in its body inside an entry: behind the tag of a
    single value and before its end, or behind the length of a packed block
    and before its end.  The field numbers are distinct and between 1 and
    15, the values of [hs] and of the entries in front of the cut are in the
    range of their types, those of packed blocks below 128, the message up
    to the end of [f] is at most [INT_MAX] bytes, and the part before the cut
    is split into buffers in any way.  For a payload field the materializer
    finds what it takes for granted, with room for the whole payload.  Then
    [Parse] returns the number of [f], which is not 0. *)
Theorem truncation_inside_field pb fw r source hs f vpart :
  proto_ok pb = true ->
  forallb Wire.is_header hs = true -> forallb Wire.in_range hs = true ->
  Z.of_nat (length (Wire.encode pb (hs ++ [f]))) <= Int.INT_MAX ->
  concat source
  = Wire.encode pb hs ++ Wire.tag (Wire.field_number pb f) (Wire.wire_type f) ++ vpart ->
  Wire.cut_inside pb f vpart ->
  can_receive pb fw r (Wire.accumulate_all hs (meta_ r)) f ->
  exists r',
    Parse pb fw r source = Some (Returned (Wire.field_number pb f), r')
    /\ Wire.field_number pb f <> 0.
Proof.
  intros Hpb Hh Hv Hmax Esrc Hcut Hcan.
  pose proof (small_field_number pb f Hpb) as Hsmall.
  pose proof (length_tag _ _ Hsmall (wire_type_bounds f)) as Hltag.
  destruct (cut_inside_prefix pb f vpart Hcut) as (tl & Htl & Ev).
  set (tagb := Wire.tag (Wire.field_number pb f) (Wire.wire_type f)) in *.
  rewrite encode_app, encode_single in Hmax. unfold Wire.encode_field in Hmax.
  fold tagb in Hmax. rewrite Ev, !length_app in Hmax.
  set (s0 := Pb.open source).
  assert (H0 : Pb.holds s0 (Wire.encode pb hs)).
  { split; [exists (tagb ++ vpart); exact Esrc|].
    subst s0. cbn [Pb.position Pb.current_limit Pb.open]. lia. }
  pose proof (run_header pb fw hs r s0 Hpb (sane_open source) Hh Hv H0) as Hrun.
  set (r1 := set_meta (Wire.accumulate_all hs (meta_ r)) r) in *.
  set (s1 := Pb.advance (length (Wire.encode pb hs)) s0) in *.
  assert (E1 : Pb.rest s1 = tagb ++ vpart).
  { subst s1 s0. rewrite rest_advance, rest_open, Esrc. apply drop_app_length. }
  assert (Hlim : Pb.position s1 + Z.of_nat (length (Pb.rest s1)) <= Pb.current_limit s1).
  { rewrite E1, length_app. subst s1 s0.
    cbn [Pb.position Pb.current_limit Pb.advance Pb.open]. lia. }
  assert (Hlen : Z.of_nat (length (Wire.encode_value pb f)) <= Int.INT_MAX)
    by (rewrite Ev, length_app; lia).
  destruct (turn_cut pb fw r1 s1 f vpart Hpb (sane_advance _ _ (sane_open source)) E1
              Hlim Hcut Hlen Hcan) as [r' T].
  exists r'. split.
  - eapply Progress.Parse_head; [exact Hrun|exact T].
  - unfold small_field in Hsmall. apply andb_true_iff in Hsmall. destruct Hsmall as [H1 _].
    apply Z.leb_le in H1. lia.
Qed.

Lemma truncation_inside_field_witness :
  exists r',
    Parse send_recv (Example.framework false) (Example.response CPUPlace)
      [Wire.encode send_recv [Wire.Varname "X"] ++ Example.bytes [50; 5; 8; 5; 8; 172]]
    = Some (Returned 6, r')
    /\ 6 <> 0.
Proof.
  apply (truncation_inside_field send_recv (Example.framework false)
           (Example.response CPUPlace) _ [Wire.Varname "X"]
           (Wire.Lod [Wire.LodValue 5; Wire.LodValue 300])
           (Example.bytes [5; 8; 5; 8; 172])).
  - reflexivity.
  - reflexivity.
  - reflexivity.
  - apply Z.leb_le. vm_compute. reflexivity.
  - vm_compute. reflexivity.
  - right. exists [Wire.LodValue 5], (Wire.LodValue 300), [], (Example.bytes [172]).
    split; [reflexivity|]. split; [reflexivity|]. split; [|vm_compute; reflexivity].
    exists (Example.bytes [2]). split; [discriminate|vm_compute; reflexivity].
  - exact I.
Defined.

(** C2 as stated fails: the message of [Example.header] and a payload, cut
    behind its second field, is read to its end and [Parse] returns 0; so it
    does for a [lod] field cut behind the first of its two entries, which
    leaves a level of one value. *)
Lemma truncation_at_field_boundary :
  let msg := Wire.encode send_recv (Example.header ++ [Wire.Serialized Example.payload]) in
  let level := Wire.encode send_recv [Wire.Lod [Wire.LodValue 5; Wire.LodValue 7]] in
  (take 5 msg <> msg
   /\ Example.result (Parse send_recv (Example.framework false)
                        (Example.response CPUPlace) [take 5 msg])
      = Some (Returned 0, set_varname "X" new_VariableMessage))
  /\ (take 4 level <> level
      /\ Example.result (Parse send_recv (Example.framework false)
                           (Example.response CPUPlace) [take 4 level])
         = Some (Returned 0, add_lod [5] new_VariableMessage)).
Proof.
  cbv zeta. split; (split; [vm_compute; discriminate | vm_compute; reflexivity]).
Qed.

(** C3.  The decoder at the inputs where the claim fails: the dimension 300
    is decoded from its own field, and so is the value 300 of a level; from a
    packed block the same value is not decoded alone, the loop takes the
    byte length 2 of the block for the number of its values and [Parse]
    returns the number of the field.  Behind a packed block the loop goes on
    into the next field: its tag 40 becomes a dimension. *)
Lemma packed_block_counts_bytes :
  let run msg :=
    Example.result (Parse send_recv (Example.framework false)
                      (Example.response CPUPlace) [Wire.encode send_recv msg]) in
  run [Wire.Dim 300] = Some (Returned 0, set_dims [300] new_VariableMessage)
  /\ run [Wire.DimsPacked [300]] = Some (Returned 4, set_dims [300] new_VariableMessage)
  /\ run [Wire.Lod [Wire.LodValue 300]] = Some (Returned 0, add_lod [300] new_VariableMessage)
  /\ run [Wire.Lod [Wire.LodPacked [300]]] = Some (Returned 6, new_VariableMessage)
  /\ run [Wire.DimsPacked [300; 1]; Wire.LodLevel 7]
     = Some (Returned (-1), set_dims [300; 1; 40] new_VariableMessage).
Proof. cbv zeta. repeat split; vm_compute; reflexivity. Qed.

(** C4.  The decoder at the input where the claim fails: a packed block
    with the one dimension 300, then the [serialized] field, and no name.
    The loop of the packed block takes the length 2 of the block for the
    number of its values and reads the tag 58 of the [serialized] field as a
    second dimension; the byte behind it is 0, the end of the message, and
    [Parse] returns 0.  With the dimension under its own tag the decoder
    comes to the [serialized] field and the enforce throws. *)
Lemma packed_dims_swallow_payload_tag :
  let run msg :=
    Example.result (Parse send_recv (Example.framework false)
                      (Example.response CPUPlace) [Wire.encode send_recv msg]) in
  Wire.encode send_recv [Wire.DimsPacked [300]; Wire.Serialized []]
  = Example.bytes [34; 2; 172; 2; 58; 0]
  /\ meta_info_got send_recv (set_dims [300] new_VariableMessage) = false
  /\ run [Wire.DimsPacked [300]; Wire.Serialized []]
     = Some (Returned 0, set_dims [300; 58] new_VariableMessage)
  /\ run [Wire.Dim 300; Wire.Serialized []]
     = Some (Threw "meta info should be got first!", set_dims [300] new_VariableMessage).
Proof. cbv zeta. repeat split; vm_compute; reflexivity. Qed.

(** X25.  The enforce on the metadata: when the decoder, after any number of
    turns on any source, reads the tag of the [serialized] or of the [rows]
    field while the name in [meta_] is empty or its type is none of the two
    known kinds, the enforce throws: that is how [Parse] ends, whatever the
    wire type and whatever follows.  The field numbers are distinct, as the
    labels of a [switch] are. *)
Theorem field_order pb fw r source k r1 s1 t s2 :
  distinct (field_numbers pb) = true ->
  Parse_turns pb fw k r (Pb.open source) = Some (r1, s1) ->
  Pb.ReadTagWithCutoff 127 s1 = ((t, true), s2) ->
  GetTagFieldNumber t = kSerializedFieldNumber pb
  \/ GetTagFieldNumber t = kRowsFieldNumber pb ->
  meta_info_got pb (meta_ r1) = false ->
  Parse pb fw r source = Some (Threw "meta info should be got first!", r1).
Proof.
  intros Hd Hk T Hf Hm. eapply Progress.Parse_head; [eapply Parse_turns_head, Hk|].
  unfold Parse_turn. rewrite T, Hm. cbn [negb].
  destruct Hf as [-> | ->]; dispatch_distinct Hd; reflexivity.
Qed.


Lemma field_order_witness :
  Parse send_recv (Example.framework false) (Example.response CPUPlace)
    [Wire.encode send_recv [Wire.Varname "X"; Wire.Type_ 7; Wire.Serialized Example.payload]]
  = Some (Threw "meta info should be got first!",
          set_meta (set_type 7 (set_varname "X" new_VariableMessage))
            (Example.response CPUPlace)).
Proof.
  apply (field_order send_recv (Example.framework false) (Example.response CPUPlace) _ 2 _
           (Pb.advance 5 (Pb.open [Wire.encode send_recv
              [Wire.Varname "X"; Wire.Type_ 7; Wire.Serialized Example.payload]]))
           58
           (Pb.advance 6 (Pb.open [Wire.encode send_recv
              [Wire.Varname "X"; Wire.Type_ 7; Wire.Serialized Example.payload]]))).
  - reflexivity.
  - vm_compute. reflexivity.
  - vm_compute. reflexivity.
  - left. reflexivity.
  - reflexivity.
Defined.

(** C5.  The decoder at the input where the claim fails: a [lod] field that
    declares two bytes, the first of which is a zero tag.  [ParseLodData]
    stops at the zero tag and returns true, the limit is popped with a byte of
    the sub-message unread, and [Parse] returns 0; the field behind it is not
    looked at.  A packed block that declares more values than the
    sub-message holds does make [Parse] return the number of the field. *)
Lemma lod_not_consumed_returns_0 :
  let run msg :=
    Example.result (Parse send_recv (Example.framework false)
                      (Example.response CPUPlace) [Example.bytes msg]) in
  run [50; 2; 0; 0] = Some (Returned 0, new_VariableMessage)
  /\ run [50; 2; 0; 0; 40; 1] = Some (Returned 0, new_VariableMessage)
  /\ run [50; 3; 10; 5; 1] = Some (Returned 6, new_VariableMessage).
Proof. cbv zeta. repeat split; vm_compute; reflexivity. Qed.

(** C6.  Device synchronization: a [ReadRaw] to a device place that returns
    true leaves no transfer unconfirmed on the stream of the context, and a
    [Parse] that starts with none unconfirmed and returns 0 ends with none
    unconfirmed.  The number of the [serialized] field is not 0, the code of
    success. *)
Theorem device_synchronized pb fw :
  kSerializedFieldNumber pb <> 0 ->
  (forall input ctx place size p input' ctx',
      is_gpu_place place = true ->
      ReadRaw fw input ctx place size = Some (RawReturn true (p, input', ctx')) ->
      in_flight ctx' = [])
  /\ (forall r source r',
        in_flight (dev_ctx_ r) = [] ->
        Parse pb fw r source = Some (Returned 0, r') ->
        in_flight (dev_ctx_ r') = []).
Proof.
  intros Hser. split.
  - intros input ctx place size p input' ctx' Hg R.
    apply (proj1 (ReadRaw_synchronized _ _ _ _ _ _ _ _ _ R)); auto.
  - intros r source r' Hq HP. eapply Parse_loop_settled; eauto.
Qed.



Lemma device_synchronized_witness :
  exists r',
    Parse send_recv (Example.framework true) (Example.response (CUDAPlace 0))
      [Wire.encode send_recv Example.dense;
       Wire.encode send_recv [Wire.Serialized Example.payload]]
    = Some (Returned 0, r')
    /\ in_flight (dev_ctx_ r') = [].
Proof.
  eexists. split; [vm_compute; reflexivity|].
  apply (proj2 (device_synchronized send_recv (Example.framework true)
                  ltac:(vm_compute; discriminate))
           (Example.response (CUDAPlace 0))
           [Wire.encode send_recv Example.dense;
            Wire.encode send_recv [Wire.Serialized Example.payload]]).
  - reflexivity.
  - vm_compute. reflexivity.
Defined.

(** C7, as amended.  Destination resolution: when the decoder reads the
    [serialized] or the [rows] field, well-formed so far (the metadata is
    there, the wire type is length-delimited, the length is read, the shape
    is made), and the name of [meta_] is not in the scope, [Parse] does not
    return: the null [Variable] pointer is dereferenced. *)
Theorem resolution_failure pb fw r source k r1 s1 t s2 len s3 :
  distinct (field_numbers pb) = true ->
  Parse_turns pb fw k r (Pb.open source) = Some (r1, s1) ->
  Pb.ReadTagWithCutoff 127 s1 = ((t, true), s2) ->
  (GetTagFieldNumber t = kSerializedFieldNumber pb
   /\ is_Some (GetDims fw (dims (meta_ r1))))
  \/ GetTagFieldNumber t = kRowsFieldNumber pb ->
  GetTagWireType t = WIRETYPE_LENGTH_DELIMITED ->
  meta_info_got pb (meta_ r1) = true ->
  ReadVarintSizeAsInt s2 = Some (len, s3) ->
  scope_ r1 !! varname (meta_ r1) = None ->
  Parse pb fw r source = Some (NullPointerDereference, r1).
Proof.
  intros Hd Hk T Hf Hw Hm Hlen Hvar.
  eapply Progress.Parse_head; [eapply Parse_turns_head, Hk|].
  unfold Parse_turn. rewrite T, Hm, Hw. cbn [negb].
  destruct Hf as [[-> [d Hdims]] | ->]; dispatch_distinct Hd; cbn [negb]; rewrite Hlen.
  - rewrite Hdims. unfold CopyLodTensorData, CopySelectRowsTensorData. rewrite Hvar.
    unfold meta_info_got in Hm. apply andb_true_iff in Hm. destruct Hm as [Hkind _].
    destruct (type (meta_ r1) =? LOD_TENSOR pb); [reflexivity|].
    rewrite orb_false_r in Hkind. rewrite Hkind. reflexivity.
  - unfold CopySelectRowsData. rewrite Hvar. reflexivity.
Qed.



Lemma resolution_failure_witness :
  Parse send_recv (Example.framework false) (Example.response CPUPlace)
    [Wire.encode send_recv [Wire.Varname "Y"; Wire.Rows Example.payload]]
  = Some (NullPointerDereference,
          set_meta (set_varname "Y" new_VariableMessage) (Example.response CPUPlace)).
Proof.
  apply (resolution_failure send_recv (Example.framework false) (Example.response CPUPlace)
           _ 1 _
           (Pb.advance 3 (Pb.open [Wire.encode send_recv
              [Wire.Varname "Y"; Wire.Rows Example.payload]]))
           66
           (Pb.advance 4 (Pb.open [Wire.encode send_recv
              [Wire.Varname "Y"; Wire.Rows Example.payload]]))
           4
           (Pb.advance 5 (Pb.open [Wire.encode send_recv
              [Wire.Varname "Y"; Wire.Rows Example.payload]]))).
  - reflexivity.
  - vm_compute. reflexivity.
  - vm_compute. reflexivity.
  - right. reflexivity.
  - reflexivity.
  - reflexivity.
  - vm_compute. reflexivity.
  - vm_compute. reflexivity.
Defined.

(** C7 as stated fails: the name [Y] is not in the scope, and [Parse] on a
    message with that name and a payload ends in the dereference of a null
    pointer, not in a return. *)
Lemma unresolved_name_is_dereferenced :
  let res :=
    Example.result (Parse send_recv (Example.framework false) (Example.response CPUPlace)
                      [Wire.encode send_recv
                         [Wire.Varname "Y"; Wire.Type_ 0; Wire.Serialized Example.payload]]) in
  scope_ (Example.response CPUPlace) !! "Y"%string = None
  /\ res = Some (NullPointerDereference, set_varname "Y" new_VariableMessage)
  /\ ~ exists code m, res = Some (Returned code, m).
Proof.
  cbv zeta. split; [vm_compute; reflexivity|].
  split; [vm_compute; reflexivity|].
  intros (code & m & H). vm_compute in H. discriminate H.
Qed.

(** C8, as amended.  Malformed field: when the decoder reads the tag of one
    of the eight fields with a wire type that is not one of the field, or
    with the wire type length-delimited and a length beyond [INT_MAX] for a
    field other than [varname], [Parse] returns the number of the field; for
    the [serialized] and the [rows] field, provided the metadata is there,
    for their enforce comes first. *)
Theorem malformed_field pb fw r source k r1 s1 t s2 :
  distinct (field_numbers pb) = true ->
  Parse_turns pb fw k r (Pb.open source) = Some (r1, s1) ->
  Pb.ReadTagWithCutoff 127 s1 = ((t, true), s2) ->
  In (GetTagFieldNumber t) (field_numbers pb) ->
  (GetTagFieldNumber t = kSerializedFieldNumber pb
   \/ GetTagFieldNumber t = kRowsFieldNumber pb -> meta_info_got pb (meta_ r1) = true) ->
  ~ In (GetTagWireType t) (wire_types pb (GetTagFieldNumber t))
  \/ (GetTagWireType t = WIRETYPE_LENGTH_DELIMITED
      /\ GetTagFieldNumber t <> kVarnameFieldNumber pb
      /\ exists v s3, Pb.ReadVarint64 s2 = Some (v, s3) /\ Int.INT_MAX < v) ->
  Parse pb fw r source = Some (Returned (GetTagFieldNumber t), r1).
Proof.
  intros Hd Hk T Hin Hm Hbad.
  eapply Progress.Parse_head; [eapply Parse_turns_head, Hk|].
  unfold Parse_turn. rewrite T. cbn [negb]. clear T Hk.
  set (wt := GetTagWireType t) in *.
  apply In_field_numbers in Hin.
  destruct Hbad as [Hwt | (Hwt & Hnv & v & s3 & R & Hv)].
  - revert Hwt. unfold wire_types.
    repeat (destruct Hin as [Hin|Hin]; [rewrite Hin in *; clear Hin|]); try rewrite Hin in *;
      dispatch_distinct Hd; cbn [orb In]; intros Hwt;
      try rewrite Hm by auto; cbn [negb];
      unfold WIRETYPE_VARINT, WIRETYPE_LENGTH_DELIMITED in *;
      repeat match goal with
             | |- context [wt =? ?c] =>
                 destruct (Z.eqb_spec wt c) as [e|_]; [exfalso; apply Hwt; rewrite e; auto|]
             end; cbn [negb]; reflexivity.
  - destruct (ReadVarint64_too_long _ _ _ R Hv) as [R1 R2].
    rewrite Hwt in *.
    repeat (destruct Hin as [Hin|Hin]; [rewrite Hin in *; clear Hin|]); try rewrite Hin in *;
      try congruence;
      dispatch_distinct Hd; try rewrite Hm by auto; cbn [negb];
      unfold WIRETYPE_VARINT, WIRETYPE_LENGTH_DELIMITED in *;
      cbn [Z.eqb Pos.eqb negb]; rewrite ?R1, ?R2; try reflexivity.
Qed.


Lemma malformed_field_witness :
  Parse send_recv (Example.framework false) (Example.response CPUPlace)
    [Example.bytes [34; 128; 128; 128; 128; 8]]
  = Some (Returned (GetTagFieldNumber 34), Example.response CPUPlace).
Proof.
  apply (malformed_field send_recv (Example.framework false) (Example.response CPUPlace)
           _ 0 _ (Pb.open [Example.bytes [34; 128; 128; 128; 128; 8]]) 34
           (Pb.advance 1 (Pb.open [Example.bytes [34; 128; 128; 128; 128; 8]]))).
  - reflexivity.
  - reflexivity.
  - vm_compute. reflexivity.
  - vm_compute. tauto.
  - intros [H|H]; vm_compute in H; discriminate H.
  - right. split; [reflexivity|]. split; [vm_compute; discriminate|].
    exists (2 ^ 31), (Pb.advance 6 (Pb.open [Example.bytes [34; 128; 128; 128; 128; 8]])).
    split; [vm_compute; reflexivity|]. vm_compute. reflexivity.
Defined.

(** C8 as stated fails: the [serialized] field with the wire type varint,
    read while the metadata is not there, makes the enforce throw; [Parse]
    does not return the number 7 of the field. *)
Lemma wrong_wire_type_before_metadata :
  GetTagFieldNumber 56 = 7 /\ GetTagWireType 56 = WIRETYPE_VARINT
  /\ Example.result (Parse send_recv (Example.framework false)
                       (Example.response CPUPlace) [Example.bytes [56; 0]])
     = Some (Threw "meta info should be got first!", new_VariableMessage).
Proof. repeat split; vm_compute; reflexivity. Qed.

(** C9, as amended.  Levels: a message of metadata fields [hs], alone or
    with one payload field at its end, at most [INT_MAX] bytes, split into
    buffers in any way.  The field numbers are distinct and between 1 and
    15, the values of the fields are in the range of their types, those of
    packed blocks below 128, and for the payload field the materializer finds
    what it takes for granted, with room for the payload.  Then [Parse]
    returns 0 and the offset table of [meta_] has grown by the levels of the
    [lod] fields that have a value, in message order; a [lod] field without a
    value leaves no level. *)
Theorem level_per_lod_field pb fw r source hs tl :
  proto_ok pb = true ->
  forallb Wire.is_header hs = true -> forallb Wire.in_range hs = true ->
  concat source = Wire.encode pb (hs ++ tl) ->
  Z.of_nat (length (concat source)) <= Int.INT_MAX ->
  tl = []
  \/ (exists f, tl = [f] /\ Wire.is_header f = false
                /\ can_receive pb fw r (Wire.accumulate_all hs (meta_ r)) f) ->
  exists r',
    Parse pb fw r source = Some (Returned 0, r')
    /\ lod (meta_ r') = lod (meta_ r) ++ List.filter has_value (Wire.levels hs).
Proof.
  intros Hpb Hh Hv Hsrc Hmax [-> | (f & -> & Hf & Hcan)].
  - rewrite app_nil_r in Hsrc.
    rewrite (Parse_header_only pb fw r source hs Hpb Hh Hv Hsrc Hmax).
    eexists. split; [reflexivity|]. apply lod_accumulate_all.
  - destruct f; try discriminate Hf; cbn [can_receive] in Hcan.
    + destruct Hcan as (Hname & Hkind & [var Hvar] & (d & ti & Hd & Hti & Hmd & Hroom)
                        & Hlod & Hgpu).
      destruct (Parse_header_payload pb fw r source hs payload var d ti Hpb Hh Hv Hsrc Hmax)
        as (r' & HP & Hm' & _); try assumption.
      * apply meta_info_got_iff. tauto.
      * exists r'. split; [exact HP|]. rewrite Hm'. apply lod_accumulate_all.
    + destruct Hcan as (Hname & Hkind & (var & Hvar & Hroom)).
      assert (Hmeta : meta_info_got pb (Wire.accumulate_all hs (meta_ r)) = true)
        by (apply meta_info_got_iff; tauto).
      rewrite (Parse_header_rows pb fw r source hs payload var Hpb Hh Hv Hsrc Hmax Hmeta Hvar).
      assert (Hfits : fits payload
                        (Z.of_nat (length (rows_data_ (GetMutable_SelectedRows var)))) = true)
        by (apply Z.leb_le; lia).
      rewrite Hfits. eexists. split; [reflexivity|]. cbn [meta_ store set_meta].
      apply lod_accumulate_all.
Qed.

Lemma level_per_lod_field_witness :
  exists r',
    Parse send_recv (Example.framework false) (Example.response CPUPlace)
      [Wire.encode send_recv Example.header]
    = Some (Returned 0, r')
    /\ lod (meta_ r') = [[0; 2; 6]].
Proof.
  apply (level_per_lod_field send_recv (Example.framework false)
           (Example.response CPUPlace) _ Example.header []).
  - reflexivity.
  - reflexivity.
  - reflexivity.
  - vm_compute. reflexivity.
  - apply Z.leb_le. vm_compute. reflexivity.
  - left. reflexivity.
Defined.

(** C9 as stated fails: of three [lod] fields the second has no value;
    [Parse] returns 0 and the offset table has two levels, not three. *)
Lemma empty_level_is_dropped :
  let msg := [Wire.Lod [Wire.LodValue 5]; Wire.Lod []; Wire.Lod [Wire.LodPacked [7; 9]]] in
  Wire.levels msg = [[5]; []; [7; 9]]
  /\ Example.result (Parse send_recv (Example.framework false) (Example.response CPUPlace)
                       [Wire.encode send_recv msg])
     = Some (Returned 0, add_lod [7; 9] (add_lod [5] new_VariableMessage)).
Proof. cbv zeta. split; vm_compute; reflexivity. Qed.

(** C10.  The decoder at the input where the claim fails: a dense tensor of
    shape 2 x 3 with a payload declared one byte long, followed by the
    [lod_level] field in the same buffer.  The declared length is not checked
    against the shape, [Parse] returns 0, and three bytes are copied to the
    destination, not one: the buffer to its end, the [lod_level] field
    included, which is never decoded.  When the payload ends its buffer, the
    one declared byte is copied and the field behind it decoded. *)
Lemma payload_copy_overruns :
  let msg := Example.dense ++ [Wire.Serialized (Example.bytes [9]); Wire.LodLevel 3] in
  let run source :=
    Parse send_recv (Example.framework false) (Example.response CPUPlace) source in
  Wire.encode send_recv [Wire.LodLevel 3] = Example.bytes [40; 3]
  /\ Example.copied (run [Wire.encode send_recv msg])
     = Some (Returned 0, Some (Example.bytes [9; 40; 3]))
  /\ lod_level <$> (snd <$> Example.result (run [Wire.encode send_recv msg])) = Some 0
  /\ Example.copied (run [Wire.encode send_recv
                             (Example.dense ++ [Wire.Serialized (Example.bytes [9])]);
                          Wire.encode send_recv [Wire.LodLevel 3]])
     = Some (Returned 0, Some (Example.bytes [9])).
Proof. cbv zeta. repeat split; vm_compute; reflexivity. Qed.

End Claims.

(** * More on the decoder *)

Module DecoderFacts.
Import PbFacts VarintFacts Fields Payload Invariants.

(** X2.  [ReadRaw] writes what it consumes: when it returns, the bytes
    written to [dest] are the bytes the stream has been advanced over, in
    order; it returns true exactly when these are at least [size] bytes, and
    for a [size] that is not positive it reads nothing. *)
Theorem ReadRaw_writes_what_it_consumes fw input ctx place size ok p input' ctx' :
  ReadRaw fw input ctx place size = Some (RawReturn ok (p, input', ctx')) ->
  Pb.rest input = p ++ Pb.rest input'
  /\ input' = Pb.advance (length p) input
  /\ (ok = true <-> size <= Z.of_nat (length p))
  /\ (size <= 0 -> p = []).
Proof. apply ReadRaw_bytes. Qed.


Lemma same_names_refl r : same_names r r.
Proof. split; reflexivity. Qed.

Lemma same_names_trans r1 r2 r3 :
  same_names r1 r2 -> same_names r2 r3 -> same_names r1 r3.
Proof. intros [A B] [C D]. split; congruence. Qed.

Lemma same_names_set_meta m r : same_names r (set_meta m r).
Proof. split; reflexivity. Qed.

Lemma same_names_store r name var v :
  scope_ r !! name = Some var -> same_names r (store name v r).
Proof.
  intros H. split; [|reflexivity]. cbn.
  apply dom_insert_lookup_L. rewrite H. eauto.
Qed.

Lemma ReadRaw_place fw input ctx place size ok p input' ctx' :
  ReadRaw fw input ctx place size = Some (RawReturn ok (p, input', ctx')) ->
  GetPlace ctx' = GetPlace ctx.
Proof.
  intros H. destruct (is_gpu_place place) eqn:E.
  - revert H. unfold ReadRaw. rewrite E.
    destruct (PADDLE_WITH_CUDA fw); [|discriminate].
    assert (L : forall fuel sz st ok1 p1 i1 c1,
               ReadRaw_gpu_loop fuel sz st = Some (ok1, (p1, i1, c1)) ->
               GetPlace c1 = GetPlace (snd st)).
    { induction fuel as [|fuel IH]; intros sz [[p0 i0] c0] ok1 p1 i1 c1;
        cbn [ReadRaw_gpu_loop]; destruct (0 <? sz); try discriminate;
        try (intros [= <- <- <- <-]; reflexivity).
      destruct (Pb.GetDirectBufferPointer i0); [|intros [= <- <- <- <-]; reflexivity].
      intros H. apply IH in H. exact H. }
    destruct (ReadRaw_gpu_loop _ _ _) as [[[] [[p1 i1] c1]]|] eqn:G; try discriminate;
      intros [= <- <- <- <-]; apply L in G; exact G.
  - apply ReadRaw_synchronized in H. destruct H as [_ H]. rewrite H; auto.
Qed.

Lemma same_names_copied r name var v ctx :
  scope_ r !! name = Some var -> GetPlace ctx = GetPlace (dev_ctx_ r) ->
  same_names r (set_dev_ctx ctx (store name v r)).
Proof.
  intros H Hc. split; [|exact Hc]. cbn.
  apply dom_insert_lookup_L. rewrite H. eauto.
Qed.

Lemma CopyLodTensorData_keeps fw r input dims len :
  copy_keeps r (CopyLodTensorData fw r input dims len).
Proof.
  unfold CopyLodTensorData.
  destruct (scope_ r !! varname (meta_ r)) eqn:S;
    [|cbn; split; [apply same_names_refl|discriminate]].
  destruct (copy_lod _ _ _ _);
    [|cbn; split; [eapply same_names_store; eauto|discriminate]].
  destruct (ToTypeIndex fw _);
    [|cbn; split; [eapply same_names_store; eauto|discriminate]].
  destruct (mutable_data_ok fw _ _);
    [|cbn; split; [eapply same_names_store; eauto|discriminate]].
  destruct (ReadRaw fw input _ _ len) as [[ok [[p i] c]|]|] eqn:R; cbn; auto.
  - destruct (fits p _); cbn.
    + eapply same_names_copied; eauto. eapply ReadRaw_place; eauto.
    + split; [|discriminate]. eapply same_names_copied; eauto. eapply ReadRaw_place; eauto.
  - split; [eapply same_names_store; eauto|discriminate].
Qed.

Lemma CopySelectRowsTensorData_keeps fw r input dims len :
  copy_keeps r (CopySelectRowsTensorData fw r input dims len).
Proof.
  unfold CopySelectRowsTensorData.
  destruct (scope_ r !! varname (meta_ r)) eqn:S;
    [|cbn; split; [apply same_names_refl|discriminate]].
  destruct (ToTypeIndex fw _);
    [|cbn; split; [eapply same_names_store; eauto|discriminate]].
  destruct (mutable_data_ok fw _ _);
    [|cbn; split; [eapply same_names_store; eauto|discriminate]].
  destruct (ReadRaw fw input _ _ len) as [[ok [[p i] c]|]|] eqn:R; cbn; auto.
  - destruct (fits p _); cbn.
    + eapply same_names_copied; eauto. eapply ReadRaw_place; eauto.
    + split; [|discriminate]. eapply same_names_copied; eauto. eapply ReadRaw_place; eauto.
  - split; [eapply same_names_store; eauto|discriminate].
Qed.

Lemma CopySelectRowsData_keeps fw r input len :
  copy_keeps r (CopySelectRowsData fw r input len).
Proof.
  unfold CopySelectRowsData.
  destruct (scope_ r !! varname (meta_ r)) eqn:S;
    [|cbn; split; [apply same_names_refl|discriminate]].
  destruct (ReadRaw fw input _ _ len) as [[ok [[p i] c]|]|] eqn:R; cbn; auto.
  - destruct (fits p _); cbn.
    + eapply same_names_copied; eauto. eapply ReadRaw_place; eauto.
    + split; [|discriminate]. eapply same_names_copied; eauto. eapply ReadRaw_place; eauto.
  - split; [eapply same_names_store; eauto|discriminate].
Qed.

Lemma In_return_codes pb tag :
  (tag =? kVarnameFieldNumber pb) = true \/ (tag =? kTypeFieldNumber pb) = true
  \/ (tag =? kDataTypeFieldNumber pb) = true \/ (tag =? kDimsFieldNumber pb) = true
  \/ (tag =? kLodLevelFieldNumber pb) = true \/ (tag =? kLodFieldNumber pb) = true
  \/ (tag =? kSerializedFieldNumber pb) = true \/ (tag =? kRowsFieldNumber pb) = true ->
  In tag (return_codes pb).
Proof.
  unfold return_codes, field_numbers. rewrite !Z.eqb_eq. cbn. intuition auto.
Qed.

Lemma after_copy_keeps pb tag r c :
  In tag (return_codes pb) -> copy_keeps r c -> turn_keeps pb r (after_copy tag c).
Proof.
  intros Ht. destruct c as [[ok r' input'|o r']|]; cbn; auto.
  - destruct ok; cbn; auto. intros H. split; [exact H|]. intros code [= <-]. exact Ht.
  - intros [H N]. split; [exact H|]. intros code ->. destruct (N code eq_refl).
Qed.

Lemma Parse_turn_keeps pb fw r input : turn_keeps pb r (Parse_turn pb fw r input).
Proof.
  unfold Parse_turn.
  destruct (Pb.ReadTagWithCutoff 127 input) as [[t ok] input1].
  assert (Z0 : In 0 (return_codes pb)) by (left; reflexivity).
  assert (Z1 : In (-1) (return_codes pb)) by (right; left; reflexivity).
  assert (St : forall o m, (forall code, o = Returned code -> In code (return_codes pb)) ->
                           turn_keeps pb r (Some (Stop o (set_meta m r)))).
  { intros o m H. split; [apply same_names_set_meta|exact H]. }
  assert (St' : forall o, (forall code, o = Returned code -> In code (return_codes pb)) ->
                          turn_keeps pb r (Some (Stop o r))).
  { intros o H. split; [apply same_names_refl|exact H]. }
  destruct ok; cbn [negb].
  2:{ destruct (negb _); apply St'; intros code [= <-]; assumption. }
  repeat match goal with
         | |- turn_keeps _ _ (if ?c then _ else _) => destruct c eqn:?
         | |- turn_keeps _ _ (Some (Stop (Returned (GetTagFieldNumber _)) _)) =>
             first [apply St' | apply St]; intros ? [= <-]; apply In_return_codes; tauto
         | |- turn_keeps _ _ (Some (Stop (Returned _) _)) =>
             first [apply St' | apply St]; intros ? [= <-]; assumption
         | |- turn_keeps _ _ (Some (Stop (Threw _) _)) =>
             apply St'; intros ? [=]
         | |- turn_keeps _ _ (Some (Next _ _)) =>
             first [apply same_names_refl | apply same_names_set_meta]
         | |- turn_keeps _ _ (match ?x with Some _ => _ | None => _ end) =>
             lazymatch x with
             | after_copy _ _ => fail
             | _ =>
                 let T := type of x in
                 lazymatch T with
                 | option (bool * _ * _)%type => destruct x as [[[[] ?] ?]|]
                 | option (_ * _)%type => destruct x as [[? ?]|]
                 | option _ => destruct x as [?|]
                 end
             end
         | |- turn_keeps _ _ (let '(_, _) := ?x in _) =>
             first [destruct x as [[? ?] ?] | destruct x as [? ?]]
         | |- turn_keeps _ _ None => exact I
         | |- turn_keeps _ _ (after_copy _ _) =>
             apply after_copy_keeps; [apply In_return_codes; tauto|]
         | |- copy_keeps _ (CopyLodTensorData _ _ _ _ _) => apply CopyLodTensorData_keeps
         | |- copy_keeps _ (CopySelectRowsTensorData _ _ _ _ _) =>
             apply CopySelectRowsTensorData_keeps
         | |- copy_keeps _ (CopySelectRowsData _ _ _ _) => apply CopySelectRowsData_keeps
         end.
Qed.

Lemma Parse_loop_keeps pb fw fuel : forall r input o r',
  Parse_loop pb fw fuel r input = Some (o, r') ->
  same_names r r' /\ forall code, o = Returned code -> In code (return_codes pb).
Proof.
  induction fuel as [|fuel IH]; intros r input o r'; cbn [Parse_loop]; [discriminate|].
  pose proof (Parse_turn_keeps pb fw r input) as H.
  destruct (Parse_turn pb fw r input) as [[r1 input1|o1 r1]|]; cbn in H;
    [|intros [= <- <-]; exact H|discriminate].
  intros E. destruct (IH _ _ _ _ E) as [A B]. split; [|exact B].
  eapply same_names_trans; eauto.
Qed.

(** X3.  [Parse] ends on every source, and the [int] it returns is 0, -1 or
    the number of one of the eight fields. *)
Theorem Parse_return_codes pb fw r source :
  exists o r',
    Parse pb fw r source = Some (o, r')
    /\ forall code, o = Returned code -> In code (return_codes pb).
Proof.
  destruct (Progress.Parse_total pb fw r source) as [[o r'] E].
  exists o, r'. split; [exact E|]. apply (Parse_loop_keeps _ _ _ _ _ _ _ E).
Qed.

(** X4.  However [Parse] ends, the scope has the names it had, no variable
    is created or removed, and the device context is at its place. *)
Theorem Parse_keeps_names pb fw r source o r' :
  Parse pb fw r source = Some (o, r') -> same_names r r'.
Proof. intros E. apply (Parse_loop_keeps _ _ _ _ _ _ _ E). Qed.



Lemma not_field pb n :
  ~ In n (field_numbers pb) ->
  (n =? kVarnameFieldNumber pb) = false /\ (n =? kTypeFieldNumber pb) = false
  /\ (n =? kDataTypeFieldNumber pb) = false /\ (n =? kDimsFieldNumber pb) = false
  /\ (n =? kLodLevelFieldNumber pb) = false /\ (n =? kLodFieldNumber pb) = false
  /\ (n =? kSerializedFieldNumber pb) = false /\ (n =? kRowsFieldNumber pb) = false.
Proof.
  unfold field_numbers. cbn. intros H.
  repeat split; apply Z.eqb_neq; intros ->; apply H; tauto.
Qed.

(** X5.  A tag that is not one of the eight fields: when the decoder, after
    any number of turns, reads a tag within the cutoff whose field number is
    none of the eight, or a tag beyond the cutoff with a field number other
    than 0, [Parse] returns -1 and keeps what it had decoded. *)
Theorem unknown_field pb fw r source k r1 s1 t known s2 :
  Parse_turns pb fw k r (Pb.open source) = Some (r1, s1) ->
  Pb.ReadTagWithCutoff 127 s1 = ((t, known), s2) ->
  (known = true -> ~ In (GetTagFieldNumber t) (field_numbers pb)) ->
  (known = false -> GetTagFieldNumber t <> 0) ->
  Parse pb fw r source = Some (Returned (-1), r1).
Proof.
  intros Hk Ht Hin Hz.
  apply (Progress.Parse_head pb fw r source r1 s1); [apply Parse_turns_head with k; exact Hk|].
  unfold Parse_turn. rewrite Ht. destruct known; cbn [negb].
  - destruct (not_field pb _ (Hin eq_refl)) as (-> & -> & -> & -> & -> & -> & -> & ->).
    reflexivity.
  - apply Z.eqb_neq in Hz; [|reflexivity]. rewrite Hz. reflexivity.
Qed.

Lemma unknown_field_witness :
  Parse send_recv (Example.framework false) (Example.response CPUPlace)
    [Wire.encode send_recv [Wire.Varname "X"] ++ Example.bytes [72; 1]]
  = Some (Returned (-1),
          set_meta (set_varname "X" new_VariableMessage) (Example.response CPUPlace)).
Proof.
  apply (unknown_field send_recv (Example.framework false) (Example.response CPUPlace)
           _ 1 _
           (Pb.advance 3 (Pb.open [Wire.encode send_recv [Wire.Varname "X"]
                                   ++ Example.bytes [72; 1]]))
           72 true
           (Pb.advance 4 (Pb.open [Wire.encode send_recv [Wire.Varname "X"]
                                   ++ Example.bytes [72; 1]]))).
  - vm_compute. reflexivity.
  - vm_compute. reflexivity.
  - intros _. vm_compute. intuition discriminate.
  - discriminate.
Defined.

(** X6.  The empty message: on a source without a byte, and on a source
    whose first byte is 0, [Parse] returns 0 and changes nothing; what
    follows the zero byte is not read. *)
Theorem empty_message pb fw r source :
  concat source = [] \/ (exists tl, concat source = x00 :: tl) ->
  Parse pb fw r source = Some (Returned 0, r).
Proof.
  intros H.
  apply (Progress.Parse_head pb fw r source r (Pb.open source)); [constructor|].
  destruct H as [H|[tl H]].
  - apply turn_end. rewrite rest_open. exact H.
  - unfold Parse_turn.
    assert (Hb : Pb.read_byte (Pb.open source) = Some (x00, Pb.advance 1 (Pb.open source))).
    { apply read_byte_holds. split; [exists tl; rewrite rest_open; exact H|].
      cbn. unfold Int.INT_MAX. lia. }
    unfold Pb.ReadTagWithCutoff, Pb.ReadVarint64, Pb.kMaxVarintBytes.
    cbn [Pb.ReadVarint64_loop]. rewrite Hb. reflexivity.
Qed.

Lemma empty_message_witness :
  Parse send_recv (Example.framework false) (Example.response CPUPlace)
    [[]; Example.bytes [0; 10; 1; 88]]
  = Some (Returned 0, Example.response CPUPlace).
Proof.
  apply empty_message. right. exists (Example.bytes [10; 1; 88]). reflexivity.
Defined.

(** X1.  [ReadVarintSizeAsInt] on a stream that holds the varint of [v]:
    a value up to [INT_MAX] is returned as it is and the stream is advanced
    over the varint; a value above [INT_MAX] is refused. *)
Theorem ReadVarintSizeAsInt_varint v s :
  0 <= v < 2 ^ 64 ->
  Pb.holds s (Wire.varint v) ->
  ReadVarintSizeAsInt s
  = if v <=? Int.INT_MAX then Some (v, Pb.advance (length (Wire.varint v)) s) else None.
Proof.
  intros Hv Hs. unfold ReadVarintSizeAsInt.
  rewrite (ReadVarint64_varint v s Hs).
  rewrite (IntFacts.to_uint64_id v) by exact Hv.
  rewrite (IntFacts.to_uint64_id Int.INT_MAX) by (unfold Int.INT_MAX; lia).
  destruct (Z.leb_spec v Int.INT_MAX) as [L|L]; [|reflexivity].
  rewrite IntFacts.to_int32_id; [reflexivity|]. unfold Int.INT_MAX in L. lia.
Qed.

Lemma ReadVarintSizeAsInt_varint_witness :
  ReadVarintSizeAsInt (Pb.open [Example.bytes [172; 2; 9]])
  = Some (300, Pb.advance 2 (Pb.open [Example.bytes [172; 2; 9]])).
Proof.
  apply (ReadVarintSizeAsInt_varint 300 (Pb.open [Example.bytes [172; 2; 9]])).
  - lia.
  - split; [exists (Example.bytes [9]); reflexivity|]. vm_compute. discriminate.
Defined.

(** X7.  The rows of a [SelectedRows] are copied on the host.  A message of
    metadata fields [hs] with the [rows] field at its end, in range: when the
    metadata has a name and a known kind, the name is in the scope and the
    rows the variable has, which the decoder does not resize, have room for
    the bytes of the field, [Parse] returns 0, [meta_] is the metadata of
    [hs], and the variable holds a [SelectedRows] whose rows start with the
    bytes of the field, the rows behind them and the value tensor as they
    were.  The device context is untouched, whatever its place and with or
    without CUDA: no transfer is issued. *)
Theorem rows_round_trip pb fw r source hs payload var :
  proto_ok pb = true ->
  forallb Wire.is_header hs = true -> forallb Wire.in_range hs = true ->
  concat source = Wire.encode pb (hs ++ [Wire.Rows payload]) ->
  Z.of_nat (length (concat source)) <= Int.INT_MAX ->
  meta_info_got pb (Wire.accumulate_all hs (meta_ r)) = true ->
  scope_ r !! varname (Wire.accumulate_all hs (meta_ r)) = Some var ->
  (length payload <= length (rows_data_ (GetMutable_SelectedRows var)))%nat ->
  Parse pb fw r source
  = Some (Returned 0,
          store (varname (Wire.accumulate_all hs (meta_ r)))
            (HoldsSelectedRows
               {| rows_data_ :=
                    payload ++ drop (length payload)
                                 (rows_data_ (GetMutable_SelectedRows var));
                  value_ := value_ (GetMutable_SelectedRows var) |})
            (set_meta (Wire.accumulate_all hs (meta_ r)) r)).
Proof.
  intros Hpb Hh Hv Hsrc Hmax Hmeta Hvar Hroom.
  rewrite (Parse_header_rows pb fw r source hs payload var Hpb Hh Hv Hsrc Hmax Hmeta Hvar).
  assert (Hfits : fits payload
                    (Z.of_nat (length (rows_data_ (GetMutable_SelectedRows var)))) = true)
    by (apply Z.leb_le; lia).
  rewrite Hfits. reflexivity.
Qed.

Lemma rows_round_trip_witness :
  Parse send_recv (Example.framework false) (Example.response_rows (CUDAPlace 0))
    [Wire.encode send_recv [Wire.Varname "X"; Wire.Type_ 1];
     Wire.encode send_recv [Wire.Rows Example.payload]]
  = Some (Returned 0,
          store "X"
            (HoldsSelectedRows {| rows_data_ := Example.bytes [1; 2; 3; 4; 0; 0; 0; 0];
                                  value_ := new_Tensor |})
            (set_meta (set_type 1 (set_varname "X" new_VariableMessage))
               (Example.response_rows (CUDAPlace 0)))).
Proof.
  apply (rows_round_trip send_recv (Example.framework false)
           (Example.response_rows (CUDAPlace 0))
           _ [Wire.Varname "X"; Wire.Type_ 1] Example.payload
           (HoldsSelectedRows {| rows_data_ := Example.bytes [7; 0; 0; 0; 0; 0; 0; 0];
                                 value_ := new_Tensor |})).
  - reflexivity.
  - reflexivity.
  - reflexivity.
  - vm_compute. reflexivity.
  - apply Z.leb_le. vm_compute. reflexivity.
  - reflexivity.
  - reflexivity.
  - vm_compute. lia.
Defined.

(** X26.  Rows beyond the vector: a message as in X7 whose [rows] field has
    more bytes than the rows the variable has, as it has for a variable that
    held nothing.  The copy runs past the end of the vector, which the
    decoder never resizes: that is how [Parse] ends, with the metadata of
    [hs] in [meta_]. *)
Theorem rows_beyond_the_vector pb fw r source hs payload var :
  proto_ok pb = true ->
  forallb Wire.is_header hs = true -> forallb Wire.in_range hs = true ->
  concat source = Wire.encode pb (hs ++ [Wire.Rows payload]) ->
  Z.of_nat (length (concat source)) <= Int.INT_MAX ->
  meta_info_got pb (Wire.accumulate_all hs (meta_ r)) = true ->
  scope_ r !! varname (Wire.accumulate_all hs (meta_ r)) = Some var ->
  (length (rows_data_ (GetMutable_SelectedRows var)) < length payload)%nat ->
  Parse pb fw r source
  = Some (BufferOverrun,
          store (varname (Wire.accumulate_all hs (meta_ r)))
            (HoldsSelectedRows (GetMutable_SelectedRows var))
            (set_meta (Wire.accumulate_all hs (meta_ r)) r)).
Proof.
  intros Hpb Hh Hv Hsrc Hmax Hmeta Hvar Hroom.
  rewrite (Parse_header_rows pb fw r source hs payload var Hpb Hh Hv Hsrc Hmax Hmeta Hvar).
  assert (Hfits : fits payload
                    (Z.of_nat (length (rows_data_ (GetMutable_SelectedRows var)))) = false)
    by (apply Z.leb_gt; lia).
  rewrite Hfits. reflexivity.
Qed.

Lemma rows_beyond_the_vector_witness :
  Parse send_recv (Example.framework false) (Example.response CPUPlace)
    [Wire.encode send_recv [Wire.Varname "X"; Wire.Type_ 1; Wire.Rows Example.payload]]
  = Some (BufferOverrun,
          store "X" (HoldsSelectedRows {| rows_data_ := []; value_ := new_Tensor |})
            (set_meta (set_type 1 (set_varname "X" new_VariableMessage))
               (Example.response CPUPlace))).
Proof.
  apply (rows_beyond_the_vector send_recv (Example.framework false)
           (Example.response CPUPlace)
           _ [Wire.Varname "X"; Wire.Type_ 1] Example.payload HoldsNothing).
  - reflexivity.
  - reflexivity.
  - reflexivity.
  - vm_compute. reflexivity.
  - apply Z.leb_le. vm_compute. reflexivity.
  - reflexivity.
  - reflexivity.
  - vm_compute. lia.
Defined.



(** X28.  A payload field before the metadata: a message that starts with
    metadata fields [hs], in range, which leave the name empty or the type
    none of the two known kinds, followed by the tag of the [serialized] or
    of the [rows] field.  The enforce throws, whatever the wire type of the
    tag and whatever follows it, on any split into buffers: that is how
    [Parse] ends, with the metadata of [hs] in [meta_]. *)
Theorem payload_before_metadata pb fw r source hs n wt rest :
  proto_ok pb = true ->
  forallb Wire.is_header hs = true -> forallb Wire.in_range hs = true ->
  n = kSerializedFieldNumber pb \/ n = kRowsFieldNumber pb ->
  0 <= wt < 8 ->
  concat source = Wire.encode pb hs ++ Wire.tag n wt ++ rest ->
  Z.of_nat (length (Wire.encode pb hs)) < Int.INT_MAX ->
  meta_info_got pb (Wire.accumulate_all hs (meta_ r)) = false ->
  Parse pb fw r source
  = Some (Threw "meta info should be got first!",
          set_meta (Wire.accumulate_all hs (meta_ r)) r).
Proof.
  intros Hpb Hh Hv Hn Hwt Hsrc Hmax Hmeta.
  assert (Hsmall : small_field n = true).
  { destruct Hn as [-> | ->].
    - apply (small_field_number pb (Wire.Serialized [])). exact Hpb.
    - apply (small_field_number pb (Wire.Rows [])). exact Hpb. }
  pose proof (length_tag n wt Hsmall Hwt) as Hltag.
  set (s0 := Pb.open source).
  assert (Hs0 : Pb.sane s0) by apply sane_open.
  assert (H0 : Pb.holds s0 (Wire.encode pb hs)).
  { split; [exists (Wire.tag n wt ++ rest); exact Hsrc|].
    subst s0. cbn [Pb.position Pb.current_limit Pb.open]. lia. }
  pose proof (run_header pb fw hs r s0 Hpb Hs0 Hh Hv H0) as Hrun.
  set (r1 := set_meta (Wire.accumulate_all hs (meta_ r)) r) in *.
  set (s1 := Pb.advance (length (Wire.encode pb hs)) s0) in *.
  assert (H1 : Pb.holds s1 (Wire.tag n wt)).
  { split.
    - exists rest. subst s1 s0. rewrite rest_advance, rest_open, Hsrc. apply drop_app_length.
    - subst s1 s0. cbn [Pb.position Pb.current_limit Pb.advance Pb.open]. lia. }
  destruct (ReadTagWithCutoff_tag n wt s1 Hsmall Hwt H1) as (t & T & Hf & _).
  eapply Progress.Parse_head; [exact Hrun|].
  unfold Parse_turn. rewrite T, Hf. subst r1. cbn [meta_ set_meta]. rewrite Hmeta.
  cbn [negb]. destruct Hn as [-> | ->]; dispatch Hpb; reflexivity.
Qed.

Lemma payload_before_metadata_witness :
  Parse send_recv (Example.framework false) (Example.response CPUPlace)
    [Wire.encode send_recv [Wire.Type_ 0; Wire.Dim 300] ++ Example.bytes [58; 0]]
  = Some (Threw "meta info should be got first!",
          set_meta (set_dims [300] (set_type 0 new_VariableMessage))
            (Example.response CPUPlace)).
Proof.
  apply (payload_before_metadata send_recv (Example.framework false)
           (Example.response CPUPlace) _ [Wire.Type_ 0; Wire.Dim 300] 7 2
           (Example.bytes [0])).
  - reflexivity.
  - reflexivity.
  - reflexivity.
  - left. reflexivity.
  - lia.
  - vm_compute. reflexivity.
  - vm_compute. reflexivity.
  - reflexivity.
Defined.

Lemma ReadRaw_writes_what_it_consumes_witness :
  Pb.rest (Pb.open [Example.bytes [1; 2]; Example.bytes [3; 4]; Example.bytes [5]])
  = Example.bytes [1; 2; 3; 4] ++ Example.bytes [5]
  /\ (true = true <-> 3 <= Z.of_nat (length (Example.bytes [1; 2; 3; 4]))).
Proof.
  destruct (ReadRaw_writes_what_it_consumes (Example.framework false)
              (Pb.open [Example.bytes [1; 2]; Example.bytes [3; 4]; Example.bytes [5]])
              {| GetPlace := CPUPlace; in_flight := [] |} CPUPlace 3 true
              (Example.bytes [1; 2; 3; 4])
              (Pb.advance 4 (Pb.open [Example.bytes [1; 2]; Example.bytes [3; 4];
                                      Example.bytes [5]]))
              {| GetPlace := CPUPlace; in_flight := [] |})
    as (A & _ & B & _).
  - vm_compute. reflexivity.
  - split; [exact A|exact B].
Defined.

Lemma Parse_keeps_names_witness :
  exists o r',
    Parse send_recv (Example.framework false) (Example.response CPUPlace)
      [Wire.encode send_recv (Example.header ++ [Wire.Serialized Example.payload])]
    = Some (o, r')
    /\ same_names (Example.response CPUPlace) r'.
Proof.
  eexists _, _. split; [vm_compute; reflexivity|].
  apply (Parse_keeps_names send_recv (Example.framework false) (Example.response CPUPlace)
           [Wire.encode send_recv (Example.header ++ [Wire.Serialized Example.payload])]
           (Returned 0)).
  vm_compute. reflexivity.
Defined.


(** X8.  [ParseLodData] on a level: a stream limited to the entries of a
    sub-message, single values and packed blocks in any order, the values of
    a packed block below 128.  It returns true, the values are appended to
    [lod] in order, the stream is at its limit and records the end of the
    message. *)
Theorem ParseLodData_level pb es s out :
  proto_ok pb = true -> forallb Wire.entry_in_range es = true ->
  Pb.bounded s ->
  Pb.holds s (Wire.encode_entries pb es) ->
  Pb.position s + Z.of_nat (length (Wire.encode_entries pb es)) = Pb.current_limit s ->
  ParseLodData pb s out
  = Some (true, out ++ Wire.level es,
          Pb.with_message_end (Pb.advance (length (Wire.encode_entries pb es)) s)).
Proof.
  intros Hpb Hes Hb Hs Hl. unfold ParseLodData.
  apply ParseLodData_loop_entries; auto.
  unfold loop_fuel. pose proof (holds_length _ _ Hs). lia.
Qed.

Lemma ParseLodData_level_witness :
  ParseLodData send_recv
    (snd (Pb.PushLimit 7 (Pb.open [Example.bytes [8; 172; 2; 10; 2; 2; 6; 40; 1]]))) []
  = Some (true, [300; 2; 6],
          Pb.with_message_end
            (Pb.advance 7
               (snd (Pb.PushLimit 7 (Pb.open [Example.bytes [8; 172; 2; 10; 2; 2; 6; 40; 1]]))))).
Proof.
  apply (ParseLodData_level send_recv [Wire.LodValue 300; Wire.LodPacked [2; 6]]
           (snd (Pb.PushLimit 7 (Pb.open [Example.bytes [8; 172; 2; 10; 2; 2; 6; 40; 1]]))) []).
  - reflexivity.
  - reflexivity.
  - split; vm_compute; discriminate.
  - split; [exists (Example.bytes [40; 1]); reflexivity|]. vm_compute. discriminate.
  - reflexivity.
Defined.


Lemma copy_lod_beyond n : forall i m out,
  (i <= length (lod m) < i + n)%nat -> copy_lod n i m out = None.
Proof.
  induction n as [|n IH]; intros i m out Hn; cbn [copy_lod].
  - lia.
  - destruct (lod m !! i) as [l|] eqn:Hl; [|reflexivity].
    apply lookup_lt_Some in Hl. apply IH. lia.
Qed.



(** X10.  A [lod_level] above the number of levels received: when the name
    is in the scope, [CopyLodTensorData] reads [meta_.lod(i)] past the end of
    the repeated field, whatever the stream holds. *)
Theorem lod_level_beyond_levels fw r input dims len var :
  scope_ r !! varname (meta_ r) = Some var ->
  Z.of_nat (length (lod (meta_ r))) < lod_level (meta_ r) ->
  exists r', CopyLodTensorData fw r input dims len = Some (CopyStop IndexOutOfRange r').
Proof.
  intros Hvar Hlod. unfold CopyLodTensorData.
  rewrite Hvar, copy_lod_beyond by (cbn; lia). eauto.
Qed.

Lemma lod_level_beyond_levels_witness :
  exists r',
    CopyLodTensorData (Example.framework false)
      (set_meta (set_lod_level 1 (set_varname "X" new_VariableMessage))
         (Example.response CPUPlace))
      (Pb.open [Example.payload]) [2; 3] 4
    = Some (CopyStop IndexOutOfRange r').
Proof.
  apply (lod_level_beyond_levels (Example.framework false)
           (set_meta (set_lod_level 1 (set_varname "X" new_VariableMessage))
              (Example.response CPUPlace))
           (Pb.open [Example.payload]) [2; 3] 4 HoldsNothing).
  - reflexivity.
  - reflexivity.
Defined.

End DecoderFacts.

(** * The block descriptor: its variables, its operators and the search *)

Module BlockFacts.
Import Block.

Section Facts.

Context `{Descs}.

Lemma HasVar_FindVar b name : HasVar b name = true <-> is_Some (FindVar b name).
Proof. unfold HasVar, FindVar. apply bool_decide_eq_true. Qed.

(** X11.  [Var] gets or creates: after the call the block has the variable
    returned under that name and every other name is as before; a variable
    the block had is returned as it is and the block is unchanged; otherwise
    the variable is a new one and the block is marked for update.  The
    operators are untouched. *)
Theorem Var_get_or_create name b :
  let '(var, b') := Var name b in
  FindVar b' name = Some var
  /\ (forall other, other <> name -> FindVar b' other = FindVar b other)
  /\ (forall var0, FindVar b name = Some var0 -> var = var0 /\ b' = b)
  /\ (FindVar b name = None -> var = VarDesc_new name /\ need_update_ b' = true)
  /\ ops_ b' = ops_ b.
Proof.
  unfold Var, FindVar. destruct (vars_ b !! name) as [var|] eqn:E.
  - repeat split; auto; congruence.
  - cbn. repeat split; auto.
    + apply lookup_insert_eq.
    + intros other Ho. apply lookup_insert_ne. congruence.
    + discriminate.
    + discriminate.
Qed.

(** X12.  [RenameVar] to another name: when the block has the old name, the
    variable returned is the old one under the new name; afterwards the old
    name is gone, the new name stands for the variable returned (a variable
    that had the new name is replaced), every other name is as before, every
    operator has been renamed and the block is marked for update. *)
Theorem RenameVar_moves old_name new_name b var :
  old_name <> new_name ->
  FindVar b old_name = Some var ->
  exists b',
    RenameVar old_name new_name b = (Some (SetName new_name var), b')
    /\ FindVar b' old_name = None
    /\ FindVar b' new_name = Some (SetName new_name var)
    /\ (forall other, other <> old_name -> other <> new_name ->
        FindVar b' other = FindVar b other)
    /\ AllOps b' = map (Rename old_name new_name) (AllOps b)
    /\ need_update_ b' = true.
Proof.
  intros Hne Hold. unfold RenameVar.
  assert (Hhas : HasVar b old_name = true) by (apply HasVar_FindVar; rewrite Hold; eauto).
  rewrite Hhas. cbn [negb]. unfold Var. cbn [vars_ set_need_update].
  unfold FindVar in Hold. rewrite Hold.
  eexists. split; [reflexivity|]. unfold FindVar. cbn.
  repeat split.
  - apply lookup_delete_eq.
  - rewrite lookup_delete_ne by congruence. apply lookup_insert_eq.
  - intros other H1 H2. rewrite lookup_delete_ne by congruence.
    apply lookup_insert_ne. congruence.
Qed.

(** X13.  [RenameVar] to the same name: the renamed copy is put under the
    name and then erased with it.  The block has one variable fewer, the name
    is gone and every other name is as before. *)
Theorem RenameVar_same_name name b var :
  FindVar b name = Some var ->
  exists b',
    RenameVar name name b = (Some (SetName name var), b')
    /\ FindVar b' name = None
    /\ (forall other, other <> name -> FindVar b' other = FindVar b other)
    /\ size (vars_ b') = (size (vars_ b) - 1)%nat.
Proof.
  intros Hold. unfold RenameVar.
  assert (Hhas : HasVar b name = true) by (apply HasVar_FindVar; rewrite Hold; eauto).
  rewrite Hhas. cbn [negb]. unfold Var. cbn [vars_ set_need_update].
  unfold FindVar in Hold. rewrite Hold.
  eexists. split; [reflexivity|]. unfold FindVar. cbn.
  repeat split.
  - apply lookup_delete_eq.
  - intros other H1. rewrite lookup_delete_ne by congruence.
    apply lookup_insert_ne. congruence.
  - rewrite delete_insert_eq, Nat.sub_1_r. apply map_size_delete_Some. eauto.
Qed.


(** X14.  [AllVars] lists the variables of the block: as many as the block
    has names, and a variable is listed exactly when [FindVar] finds it under
    some name. *)
Theorem AllVars_FindVar b :
  length (AllVars b) = size (vars_ b)
  /\ forall var, var ∈ AllVars b <-> exists name, FindVar b name = Some var.
Proof.
  unfold AllVars, FindVar. split.
  - rewrite length_fmap. apply length_map_to_list.
  - intros var. rewrite list_elem_of_fmap. split.
    + intros ([name v] & -> & Hin). exists name. apply elem_of_map_to_list. exact Hin.
    + intros [name Hn]. exists (name, var). split; [reflexivity|].
      apply elem_of_map_to_list. exact Hn.
Qed.

(** X15.  [InsertOp] at an index up to the size: the new operator is at
    the index, the operators before it keep their positions, those from the
    index on move up by one, and the variables are untouched. *)
Theorem InsertOp_position index b :
  (index <= length (AllOps b))%nat ->
  exists b',
    InsertOp index b = Returns b'
    /\ AllOps b' !! index = Some OpDesc_new
    /\ (forall i, (i < index)%nat -> AllOps b' !! i = AllOps b !! i)
    /\ (forall i, (index <= i)%nat -> AllOps b' !! S i = AllOps b !! i)
    /\ vars_ b' = vars_ b.
Proof.
  unfold InsertOp, AllOps. intros Hi. rewrite bool_decide_eq_true_2 by exact Hi.
  eexists. split; [reflexivity|]. cbn [ops_ set_ops vars_ set_need_update].
  assert (Hl : length (take index (ops_ b)) = index) by (rewrite length_take; lia).
  repeat split.
  - rewrite lookup_app_r by lia. rewrite Hl, Nat.sub_diag. reflexivity.
  - intros i Hlt. rewrite lookup_app_l by lia. apply lookup_take_lt. exact Hlt.
  - intros i Hle. rewrite lookup_app_r by lia. rewrite Hl.
    replace (S i - index)%nat with (S (i - index)) by lia.
    rewrite lookup_cons. rewrite lookup_drop. f_equal. lia.
Qed.

(** X16.  [InsertOp] at the ends: at index 0 it is [PrependOp], at the
    size of the deque it is [AppendOp], and one past the size it is
    undefined. *)
Theorem InsertOp_at_the_ends b :
  InsertOp 0 b = Returns (PrependOp b)
  /\ InsertOp (length (AllOps b)) b = Returns (AppendOp b)
  /\ InsertOp (S (length (AllOps b))) b = UndefinedBehaviour.
Proof.
  unfold InsertOp, AllOps, PrependOp, AppendOp.
  split; [|split].
  - rewrite bool_decide_eq_true_2 by lia. reflexivity.
  - rewrite bool_decide_eq_true_2 by lia. rewrite firstn_all, drop_all. reflexivity.
  - rewrite bool_decide_eq_false_2 by lia. reflexivity.
Qed.

(** X17.  [RemoveOp] on a range that ends before the last operator: the
    operators from [s] up to [e] are erased, those before and after keep
    their order, and the variables are untouched. *)
Theorem RemoveOp_range s e b :
  (s <= e < length (AllOps b))%nat ->
  exists b',
    RemoveOp s e b = Returns b'
    /\ AllOps b' = take s (AllOps b) ++ drop e (AllOps b)
    /\ length (AllOps b') = (length (AllOps b) - (e - s))%nat
    /\ vars_ b' = vars_ b.
Proof.
  unfold RemoveOp, AllOps. intros Hr.
  rewrite (bool_decide_eq_false_2 (length (ops_ b) < s)%nat) by lia.
  rewrite (bool_decide_eq_false_2 (s = length (ops_ b))) by lia.
  rewrite (bool_decide_eq_false_2 (length (ops_ b) < e)%nat) by lia.
  rewrite (bool_decide_eq_false_2 (e = length (ops_ b))) by lia.
  rewrite bool_decide_eq_true_2 by lia.
  eexists. split; [reflexivity|]. cbn [ops_ set_ops vars_ set_need_update].
  repeat split. rewrite length_app, length_take, length_drop. lia.
Qed.

Lemma last_drop_lt {A} (l : list A) e : (e < length l)%nat -> last (drop e l) = last l.
Proof.
  intros He. rewrite <- (take_drop e l) at 2. rewrite last_app.
  destruct (last (drop e l)) eqn:E; [reflexivity|].
  apply last_None in E. apply (f_equal length) in E. rewrite length_drop in E. cbn in E. lia.
Qed.

(** X18.  [RemoveOp] never removes the last operator: whenever it returns,
    the operator at the back is the one that was there.  A range up to the
    size of the deque is left as it is by the test at the head of the
    function. *)
Theorem RemoveOp_keeps_last s e b b' :
  RemoveOp s e b = Returns b' -> last (AllOps b') = last (AllOps b).
Proof.
  unfold RemoveOp, AllOps.
  repeat case_bool_decide; try discriminate; intros [= <-]; try reflexivity.
  cbn [ops_ set_ops set_need_update].
  assert (He : (e < length (ops_ b))%nat) by lia.
  rewrite last_app, (last_drop_lt _ _ He).
  destruct (last (ops_ b)) eqn:E; [reflexivity|].
  apply last_None in E. rewrite E in He. cbn in He. lia.
Qed.

(** X19.  [InsertOp] undone by [RemoveOp]: removing the range of the one
    operator inserted at [index] gives the operators back when the index was
    before the end; an operator inserted at the end stays, as [RemoveOp]
    does nothing on a range that ends at the size. *)
Theorem InsertOp_RemoveOp index b :
  (index <= length (AllOps b))%nat ->
  exists b1 b2,
    InsertOp index b = Returns b1
    /\ RemoveOp index (S index) b1 = Returns b2
    /\ AllOps b2 = (if bool_decide (index < length (AllOps b))%nat
                    then AllOps b else AllOps b ++ [OpDesc_new])
    /\ vars_ b2 = vars_ b.
Proof.
  unfold InsertOp, AllOps. intros Hi.
  rewrite bool_decide_eq_true_2 by exact Hi.
  set (ops' := take index (ops_ b) ++ OpDesc_new :: drop index (ops_ b)).
  assert (Hl : length ops' = S (length (ops_ b))).
  { subst ops'. rewrite length_app, length_take. cbn. rewrite length_drop. lia. }
  exists (set_ops ops' (set_need_update true b)).
  unfold RemoveOp. cbn [ops_ set_ops vars_ set_need_update]. rewrite Hl.
  rewrite (bool_decide_eq_false_2 (S (length (ops_ b)) < index)%nat) by lia.
  rewrite (bool_decide_eq_false_2 (index = S (length (ops_ b)))) by lia.
  rewrite (bool_decide_eq_false_2 (S (length (ops_ b)) < S index)%nat) by lia.
  destruct (decide (index < length (ops_ b))%nat) as [Hlt|Hge].
  - rewrite (bool_decide_eq_false_2 (S index = S (length (ops_ b)))) by lia.
    rewrite (bool_decide_eq_true_2 (index <= S index)%nat) by lia.
    rewrite (bool_decide_eq_true_2 (index < length (ops_ b))%nat) by lia.
    eexists. split; [reflexivity|].
    split; [reflexivity|]. cbn [ops_ set_ops vars_ set_need_update]. split; [|reflexivity].
    subst ops'.
    assert (Ht : length (take index (ops_ b)) = index) by (rewrite length_take; lia).
    rewrite take_app_le by lia. rewrite take_take, Nat.min_id.
    rewrite drop_app_ge by lia. rewrite Ht.
    replace (S index - index)%nat with 1%nat by lia. cbn.
    rewrite drop_0. apply take_drop.
  - rewrite (bool_decide_eq_true_2 (S index = S (length (ops_ b)))) by lia.
    rewrite (bool_decide_eq_false_2 (index < length (ops_ b))%nat) by lia.
    eexists. split; [reflexivity|].
    split; [reflexivity|]. cbn [ops_ set_ops vars_ set_need_update]. split; [|reflexivity].
    subst ops'. assert (index = length (ops_ b)) as -> by lia.
    rewrite firstn_all, drop_all. reflexivity.
Qed.

(** X24.  [SetForwardBlockID] sets once: on a block without a forward
    index it returns, the forward block is then what [MutableBlock] gives for
    the index, the parent block is as before, and every further call
    throws. *)
Theorem SetForwardBlockID_once prog forward_block_id b :
  has_forward_block_idx (desc_ b) = false ->
  exists b',
    SetForwardBlockID forward_block_id b = Returns b'
    /\ ForwardBlock prog b' = MutableBlock prog (Int.to_uint64 forward_block_id)
    /\ ParentBlock prog b' = ParentBlock prog b
    /\ forall other, exists what, SetForwardBlockID other b' = Throws what.
Proof.
  intros Hno. unfold SetForwardBlockID. rewrite Hno. cbn [negb].
  eexists. split; [reflexivity|]. repeat split. intros other. eexists. reflexivity.
Qed.

End Facts.

Section Traversal.

Context `{Descs}.
Variable prog : ProgramDesc.
Variable name : string.

Local Abbreviation n := (length (blocks_ prog)).

Lemma size_below (visited : gset nat) :
  (forall i, i ∈ visited -> (i < n)%nat) -> (size visited <= n)%nat.
Proof.
  intros Hv. rewrite <- (size_set_seq (C := gset nat) 0 n).
  apply subseteq_size. intros i Hi. apply elem_of_set_seq. specialize (Hv i Hi). lia.
Qed.

Lemma elem_of_push p frontier j :
  j ∈ push p frontier <-> j ∈ frontier \/ p = Some j.
Proof.
  destruct p as [k|]; cbn.
  - rewrite elem_of_app, list_elem_of_singleton. split.
    + intros [?|?]; [auto|subst; auto].
    + intros [?|?]; [auto|]. right. congruence.
  - split; [auto|]. intros [?|?]; [auto|discriminate].
Qed.

Lemma length_push p (frontier : list nat) :
  (length (push p frontier) <= S (length frontier))%nat.
Proof. destruct p; cbn; [rewrite length_app; cbn|]; lia. Qed.

Lemma linked_block b :
  linked prog = true -> b ∈ blocks_ prog ->
  forall j, ForwardBlock prog b = Some j \/ ParentBlock prog b = Some j -> (j < n)%nat.
Proof.
  unfold linked. rewrite forallb_forall. intros Hl Hb j Hj.
  specialize (Hl b). rewrite <- list_elem_of_In in Hl. specialize (Hl Hb).
  apply andb_true_iff in Hl. destruct Hl as [Hf Hp].
  destruct Hj as [E|E]; [rewrite E in Hf|rewrite E in Hp]; cbn in *;
    apply bool_decide_eq_true in Hf || apply bool_decide_eq_true in Hp; assumption.
Qed.

(** The loop of the search: under the invariant of the breadth-first
    traversal it ends within its fuel, with a variable of a block that can be
    come to from the frontier, or with no block left that has one. *)
Lemma FindVarRecursive_loop_search fuel : forall frontier visited,
  linked prog = true ->
  (forall i, i ∈ visited -> (i < n)%nat) ->
  (forall i, i ∈ frontier -> (i < n)%nat) ->
  (forall i b, i ∈ visited -> blocks_ prog !! i = Some b -> FindVar b name = None) ->
  (forall i j, i ∈ visited -> link prog i j -> j ∈ visited \/ j ∈ frontier) ->
  (2 * (n - size visited) + length frontier < fuel)%nat ->
  exists res,
    FindVarRecursive_loop fuel prog name frontier visited = Some (Returns res)
    /\ match res with
       | Some (j, var) =>
           (exists i, i ∈ frontier /\ reachable prog i j)
           /\ exists b, blocks_ prog !! j = Some b /\ FindVar b name = Some var
       | None =>
           exists all : gset nat,
             visited ⊆ all
             /\ (forall i, i ∈ frontier -> i ∈ all)
             /\ (forall i b, i ∈ all -> blocks_ prog !! i = Some b -> FindVar b name = None)
             /\ (forall i j, i ∈ all -> link prog i j -> j ∈ all)
       end.
Proof.
  induction fuel as [|fuel IH]; intros frontier visited Hl Hv Hf Hnone Hclosed Hfuel; [lia|].
  cbn [FindVarRecursive_loop]. destruct frontier as [|cur frontier].
  - exists None. split; [reflexivity|]. exists visited. repeat split; auto.
    + intros i Hi. apply elem_of_nil in Hi. destruct Hi.
    + intros i j Hi Hij. destruct (Hclosed i j Hi Hij) as [?|Hj]; [assumption|].
      apply elem_of_nil in Hj. destruct Hj.
  - destruct (decide (cur ∈ visited)) as [Hin|Hnot].
    + destruct (IH frontier visited Hl Hv) as (res & E & Hres).
      * intros i Hi. apply Hf. right. exact Hi.
      * exact Hnone.
      * intros i j Hi Hij. destruct (Hclosed i j Hi Hij) as [?|Hj]; [auto|].
        apply elem_of_cons in Hj. destruct Hj as [->|Hj]; auto.
      * cbn [length] in Hfuel. lia.
      * exists res. split; [exact E|]. destruct res as [[j var]|].
        -- destruct Hres as [(i & Hi & Hr) Hb]. split; [|exact Hb].
           exists i. split; [right; exact Hi|exact Hr].
        -- destruct Hres as (all & A & B & C & D). exists all. repeat split; auto.
           intros i Hi. apply elem_of_cons in Hi. destruct Hi as [->|Hi]; auto.
    + assert (Hcur : (cur < n)%nat) by (apply Hf; left).
      destruct (lookup_lt_is_Some_2 _ _ Hcur) as [b Hb]. rewrite Hb.
      destruct (FindVar b name) as [var|] eqn:Hfind.
      * exists (Some (cur, var)). split; [reflexivity|]. split.
        -- exists cur. split; [left|]. apply rtc_refl.
        -- exists b. auto.
      * set (frontier' := push (ParentBlock prog b) (push (ForwardBlock prog b) frontier)).
        assert (Hfr : forall j, j ∈ frontier' <->
                      j ∈ frontier \/ ForwardBlock prog b = Some j \/ ParentBlock prog b = Some j).
        { intros j. subst frontier'. rewrite !elem_of_push. tauto. }
        assert (Hsz : (S (size visited) <= n)%nat).
        { assert (Hs : size ({[cur]} ∪ visited) = S (size visited)).
          { rewrite size_union by (apply disjoint_singleton_l; exact Hnot).
            rewrite size_singleton. reflexivity. }
          rewrite <- Hs.
          apply size_below. intros i Hi. apply elem_of_union in Hi.
          destruct Hi as [Hi|Hi]; [apply elem_of_singleton in Hi; subst; exact Hcur|auto]. }
        destruct (IH frontier' ({[cur]} ∪ visited) Hl) as (res & E & Hres).
        -- intros i Hi. apply elem_of_union in Hi.
           destruct Hi as [Hi|Hi]; [apply elem_of_singleton in Hi; subst; exact Hcur|auto].
        -- intros j Hj. apply Hfr in Hj. destruct Hj as [Hj|Hj]; [apply Hf; right; exact Hj|].
           apply (linked_block b Hl); [eapply list_elem_of_lookup_2; eauto|exact Hj].
        -- intros i b' Hi Hb'. apply elem_of_union in Hi. destruct Hi as [Hi|Hi].
           ++ apply elem_of_singleton in Hi. subst i. congruence.
           ++ eauto.
        -- intros i j Hi Hij. apply elem_of_union in Hi. destruct Hi as [Hi|Hi].
           ++ apply elem_of_singleton in Hi. subst i. destruct Hij as (b' & Hb' & Hj).
              assert (b' = b) as -> by congruence. right. apply Hfr. right. exact Hj.
           ++ destruct (Hclosed i j Hi Hij) as [Hj|Hj]; [left; apply elem_of_union_r; exact Hj|].
              apply elem_of_cons in Hj.
              destruct Hj as [->|Hj]; [left; apply elem_of_union_l, elem_of_singleton; reflexivity|].
              right. apply Hfr. left. exact Hj.
        -- rewrite size_union by (apply disjoint_singleton_l; exact Hnot).
           rewrite size_singleton.
           pose proof (length_push (ParentBlock prog b) (push (ForwardBlock prog b) frontier)).
           pose proof (length_push (ForwardBlock prog b) frontier).
           subst frontier'. cbn [length] in Hfuel. lia.
        -- exists res. split; [exact E|]. destruct res as [[j var]|].
           ++ destruct Hres as [(i & Hi & Hr) Hb']. split; [|exact Hb'].
              apply Hfr in Hi. destruct Hi as [Hi|Hi].
              ** exists i. split; [right; exact Hi|exact Hr].
              ** exists cur. split; [left|]. eapply rtc_l; [|exact Hr]. exists b. auto.
           ++ destruct Hres as (all & A & B & C & D). exists all. repeat split; auto.
              ** intros i Hi. apply A, elem_of_union_r, Hi.
              ** intros i Hi. apply elem_of_cons in Hi. destruct Hi as [->|Hi].
                 --- apply A, elem_of_union_l, elem_of_singleton. reflexivity.
                 --- apply B, Hfr. left. exact Hi.
Qed.

End Traversal.

Section Results.

Context `{Descs}.

(** The search finds a variable in a block that the links lead to, or no
    such block has one. *)
Lemma FindVarRecursive_search prog this name :
  linked prog = true ->
  (this < length (blocks_ prog))%nat ->
  name <> kEmptyVarName ->
  exists res,
    FindVarRecursive prog this name = Some (Returns res)
    /\ match res with
       | Some (j, var) =>
           reachable prog this j
           /\ exists b, blocks_ prog !! j = Some b /\ FindVar b name = Some var
       | None =>
           forall j b, reachable prog this j -> blocks_ prog !! j = Some b ->
                       FindVar b name = None
       end.
Proof.
  intros Hl Hthis Hname. unfold FindVarRecursive.
  apply String.eqb_neq in Hname. rewrite Hname.
  destruct (FindVarRecursive_loop_search prog name (search_fuel prog) [this] ∅ Hl)
    as (res & E & Hres).
  - intros i Hi. apply elem_of_empty in Hi. destruct Hi.
  - intros i Hi. apply list_elem_of_singleton in Hi. subst i. exact Hthis.
  - intros i b Hi. apply elem_of_empty in Hi. destruct Hi.
  - intros i j Hi. apply elem_of_empty in Hi. destruct Hi.
  - rewrite size_empty. unfold search_fuel. cbn [length]. lia.
  - exists res. split; [exact E|]. destruct res as [[j var]|].
    + destruct Hres as [(i & Hi & Hr) Hb]. apply list_elem_of_singleton in Hi. subst i. auto.
    + destruct Hres as (all & _ & B & C & D).
      assert (Hall : forall i j, reachable prog i j -> i ∈ all -> j ∈ all).
      { intros i j Hr. induction Hr as [|i k j Hik _ IH]; [auto|]. intros Hi. apply IH. eauto. }
      intros j b Hr Hb. apply (C j b); [|exact Hb].
      apply (Hall this j Hr). apply B. left.
Qed.

(** A variable of the block itself is found at once. *)
Lemma FindVarRecursive_here prog this name b var :
  blocks_ prog !! this = Some b -> FindVar b name = Some var ->
  name <> kEmptyVarName ->
  FindVarRecursive prog this name = Some (Returns (Some (this, var))).
Proof.
  intros Hb Hvar Hname. unfold FindVarRecursive, search_fuel.
  apply String.eqb_neq in Hname. rewrite Hname.
  replace (2 * length (blocks_ prog) + 2)%nat with (S (2 * length (blocks_ prog) + 1)) by lia.
  cbn [FindVarRecursive_loop].
  destruct (decide (this ∈ (∅ : gset nat))) as [Hin|_]; [apply elem_of_empty in Hin; destruct Hin|].
  rewrite Hb, Hvar. reflexivity.
Qed.

(** X20.  [FindVarRecursive] searches the linked blocks: in a program whose
    forward and parent links lead to blocks of the program, for a name other
    than the empty one, the search ends and returns a variable of that name
    that is in a block the links lead to from the block itself, or, when
    it returns null, no such block has a variable of that name. *)
Theorem FindVarRecursive_reachable prog this name :
  linked prog = true ->
  (this < length (blocks_ prog))%nat ->
  name <> kEmptyVarName ->
  exists res,
    FindVarRecursive prog this name = Some (Returns res)
    /\ match res with
       | Some (j, var) =>
           reachable prog this j
           /\ exists b, blocks_ prog !! j = Some b /\ FindVar b name = Some var
       | None =>
           forall j b, reachable prog this j -> blocks_ prog !! j = Some b ->
                       FindVar b name = None
       end.
Proof. apply FindVarRecursive_search. Qed.


(** X22.  [FindRecursiveOrCreateVar]: under the conditions of the search,
    it returns a variable that the search then finds again; the program is
    unchanged when the search had found it, and otherwise the variable is a
    new one, created in the block itself. *)
Theorem FindRecursiveOrCreateVar_found_again prog this name :
  linked prog = true ->
  (this < length (blocks_ prog))%nat ->
  name <> kEmptyVarName ->
  exists j var prog',
    FindRecursiveOrCreateVar prog this name = Some (Returns ((j, var), prog'))
    /\ FindVarRecursive prog' this name = Some (Returns (Some (j, var)))
    /\ (FindVarRecursive prog this name = Some (Returns (Some (j, var))) /\ prog' = prog
        \/ FindVarRecursive prog this name = Some (Returns None)
           /\ j = this /\ var = VarDesc_new name
           /\ exists b, blocks_ prog !! this = Some b
                        /\ prog' = set_block this (snd (Var name b)) prog).
Proof.
  intros Hl Hthis Hname.
  destruct (FindVarRecursive_search prog this name Hl Hthis Hname) as (res & E & Hres).
  unfold FindRecursiveOrCreateVar. rewrite E. destruct res as [[j var]|].
  - exists j, var, prog. auto.
  - destruct (lookup_lt_is_Some_2 _ _ Hthis) as [b Hb]. rewrite Hb.
    assert (Hnone : FindVar b name = None) by (apply (Hres this b); [apply rtc_refl|exact Hb]).
    assert (Hvar : Var name b
                   = (VarDesc_new name,
                      set_vars (<[name := VarDesc_new name]> (vars_ b)) (set_need_update true b))).
    { unfold Var. unfold FindVar in Hnone. rewrite Hnone. reflexivity. }
    rewrite Hvar. eexists _, _, _. split; [reflexivity|]. split.
    + eapply FindVarRecursive_here; [| |exact Hname].
      * cbn [blocks_ set_block]. apply list_lookup_insert_eq. exact Hthis.
      * unfold FindVar. cbn [vars_ set_vars]. apply lookup_insert_eq.
    + right. repeat split; auto. exists b. rewrite Hvar. auto.
Qed.

(** X23.  The empty variable name is never found: [FindVarRecursive]
    returns null for it whatever the blocks hold, so
    [FindRecursiveOrCreateVar] gets or creates it in the block itself, and
    [HasVarRecursive] still answers false when the block has it. *)
Theorem empty_name_never_found prog this b :
  blocks_ prog !! this = Some b ->
  let prog' := set_block this (snd (Var kEmptyVarName b)) prog in
  FindVarRecursive prog this kEmptyVarName = Some (Returns None)
  /\ FindRecursiveOrCreateVar prog this kEmptyVarName
     = Some (Returns ((this, fst (Var kEmptyVarName b)), prog'))
  /\ (exists b', blocks_ prog' !! this = Some b' /\ HasVar b' kEmptyVarName = true)
  /\ HasVarRecursive prog' this kEmptyVarName = Some (Returns false).
Proof.
  intros Hb prog'.
  assert (E : forall p, FindVarRecursive p this kEmptyVarName = Some (Returns None)).
  { intros p. unfold FindVarRecursive. rewrite String.eqb_refl. reflexivity. }
  split; [apply E|]. split; [|split].
  - unfold FindRecursiveOrCreateVar. rewrite E, Hb.
    destruct (Var kEmptyVarName b) as [var b']. reflexivity.
  - exists (snd (Var kEmptyVarName b)). split.
    + subst prog'. cbn [blocks_ set_block]. apply list_lookup_insert_eq.
      eapply lookup_lt_Some; eauto.
    + unfold HasVar. apply bool_decide_eq_true. unfold Var.
      destruct (vars_ b !! kEmptyVarName) as [var|] eqn:Ev; cbn.
      * rewrite Ev. eauto.
      * rewrite lookup_insert_eq. eauto.
  - unfold HasVarRecursive. rewrite E. reflexivity.
Qed.

End Results.

Lemma RenameVar_moves_witness :
  exists b',
    RenameVar "x" "y" BlockExample.nested
    = (Some {| BlockExample.var_name := "y"; BlockExample.persistable := false |}, b')
    /\ FindVar b' "x" = None
    /\ AllOps b' = [["y"; "w"]; ["y"]]%string.
Proof.
  destruct (RenameVar_moves "x" "y" BlockExample.nested
              {| BlockExample.var_name := "x"; BlockExample.persistable := false |})
    as (b' & E & A & _ & _ & O & _).
  - discriminate.
  - reflexivity.
  - exists b'. split; [exact E|]. split; [exact A|exact O].
Defined.

Lemma RenameVar_same_name_witness :
  exists b',
    RenameVar "x" "x" BlockExample.nested
    = (Some {| BlockExample.var_name := "x"; BlockExample.persistable := false |}, b')
    /\ FindVar b' "x" = None.
Proof.
  destruct (RenameVar_same_name "x" BlockExample.nested
              {| BlockExample.var_name := "x"; BlockExample.persistable := false |})
    as (b' & E & A & _).
  - reflexivity.
  - exists b'. split; [exact E|exact A].
Defined.

Lemma InsertOp_position_witness :
  exists b',
    InsertOp 1 BlockExample.nested = Returns b'
    /\ AllOps b' !! 1%nat = Some [].
Proof.
  destruct (InsertOp_position 1 BlockExample.nested) as (b' & E & A & _).
  - cbn. lia.
  - exists b'. split; [exact E|exact A].
Defined.

Lemma RemoveOp_range_witness :
  exists b',
    RemoveOp 0 1 BlockExample.nested = Returns b'
    /\ AllOps b' = [["x"]]%string.
Proof.
  destruct (RemoveOp_range 0 1 BlockExample.nested) as (b' & E & A & _).
  - cbn. lia.
  - exists b'. split; [exact E|exact A].
Defined.

Lemma RemoveOp_keeps_last_witness :
  exists b',
    RemoveOp 0 1 BlockExample.nested = Returns b'
    /\ last (AllOps b') = last (AllOps BlockExample.nested).
Proof.
  eexists. split; [reflexivity|].
  apply (RemoveOp_keeps_last 0 1 BlockExample.nested). reflexivity.
Defined.

Lemma InsertOp_RemoveOp_witness :
  exists b1 b2,
    InsertOp 2 BlockExample.nested = Returns b1
    /\ RemoveOp 2 3 b1 = Returns b2
    /\ AllOps b2 = [["x"; "w"]; ["x"]; []]%string.
Proof.
  destruct (InsertOp_RemoveOp 2 BlockExample.nested) as (b1 & b2 & E1 & E2 & A & _).
  - cbn. lia.
  - exists b1, b2. split; [exact E1|]. split; [exact E2|exact A].
Defined.

Lemma SetForwardBlockID_once_witness :
  exists b',
    SetForwardBlockID 2 BlockExample.nested = Returns b'
    /\ ForwardBlock BlockExample.program b' = Some 2%nat
    /\ exists what, SetForwardBlockID 1 b' = Throws what.
Proof.
  destruct (SetForwardBlockID_once BlockExample.program 2 BlockExample.nested)
    as (b' & E & F & _ & T).
  - reflexivity.
  - exists b'. split; [exact E|]. split; [exact F|exact (T 1)].
Defined.

Lemma FindVarRecursive_reachable_witness :
  exists res,
    FindVarRecursive BlockExample.program 2 "w" = Some (Returns res)
    /\ match res with
       | Some (j, var) =>
           reachable BlockExample.program 2 j
           /\ exists b, Block.blocks_ BlockExample.program !! j = Some b
                        /\ FindVar b "w" = Some var
       | None =>
           forall j b, reachable BlockExample.program 2 j ->
                       Block.blocks_ BlockExample.program !! j = Some b ->
                       FindVar b "w" = None
       end.
Proof.
  apply (FindVarRecursive_reachable BlockExample.program 2 "w").
  - reflexivity.
  - cbn. lia.
  - discriminate.
Defined.


Lemma FindRecursiveOrCreateVar_found_again_witness :
  exists j var prog',
    FindRecursiveOrCreateVar BlockExample.program 2 "fresh" = Some (Returns ((j, var), prog'))
    /\ FindVarRecursive prog' 2 "fresh" = Some (Returns (Some (j, var))).
Proof.
  destruct (FindRecursiveOrCreateVar_found_again BlockExample.program 2 "fresh")
    as (j & var & prog' & E & F & _).
  - reflexivity.
  - cbn. lia.
  - discriminate.
  - exists j, var, prog'. split; [exact E|exact F].
Defined.

Lemma empty_name_never_found_witness :
  FindVarRecursive BlockExample.program 2 (@kEmptyVarName BlockExample.descs)
  = Some (Returns None).
Proof.
  apply (empty_name_never_found BlockExample.program 2 BlockExample.gradients).
  reflexivity.
Defined.

End BlockFacts.
